(** * Mosaic: quantizer, pixel map, bounded loader and row renderer

    A shallow embedding of [js/mosaic.js] and of the mosaic worker
    (the file that defines [MosaicWorker]) and the properties of the
    mosaic pipeline that are proved about them. *)

From Stdlib Require Import ZArith QArith Qround Qabs Qpower Lia Floats.
From stdpp Require Import gmap strings list sorting.

(** ** JavaScript numbers

    A JavaScript Number is an IEEE-754 binary64 value.  The finite values
    are the rationals [m * 2^p] with [|m| < 2^53] and [-1074 <= p]; every
    arithmetic operation returns the exact result rounded to the nearest
    such value, ties to the even mantissa.  The model has one zero (the
    sign of zero is never observed by the code below). *)

Module Number.
Local Open Scope Q_scope.

Inductive number : Type :=
  | Fin (q : Q)
  | Inf (neg : bool)
  | NaN.

(** The subset of numbers [Math.floor] returns: integers and the
    non-finite values. *)
Inductive integral : Type :=
  | Int (z : Z)
  | IInf (neg : bool)
  | INaN.

Definition of_Z (z : Z) : number := Fin (inject_Z z).

Definition to_number (i : integral) : number :=
  match i with
  | Int z => of_Z z
  | IInf s => Inf s
  | INaN => NaN
  end.

(** [ilog2 x] is the binary exponent of [x > 0]: [2^e <= x < 2^(e+1)]. *)
Definition ilog2 (x : Q) : Z :=
  let e0 := (Z.log2 (Qnum x) - Z.log2 (Zpos (Qden x)))%Z in
  if Qle_bool (2 ^ e0) x then e0 else (e0 - 1)%Z.

Definition round_half_even (q : Q) : Z :=
  let f := Qfloor q in
  match Qcompare (q - inject_Z f) (1 # 2) with
  | Lt => f
  | Gt => (f + 1)%Z
  | Eq => if Z.even f then f else (f + 1)%Z
  end.

(** Exponent of the unit in the last place of the binade of [a]:
    53 bits of mantissa, but never below the subnormal exponent. *)
Definition ulp_exp (a : Q) : Z := Z.max (ilog2 a - 52) (-1074).

Definition round_pos (a : Q) : Q :=
  let p := ulp_exp a in
  inject_Z (round_half_even (a / 2 ^ p)) * 2 ^ p.

Definition overflows (r : Q) : bool := Qle_bool (2 ^ 1024) r.

Definition round (x : Q) : number :=
  match Qnum x with
  | Z0 => Fin 0
  | Zpos _ =>
      let r := round_pos x in
      if overflows r then Inf false else Fin (Qred r)
  | Zneg _ =>
      let r := round_pos (- x) in
      if overflows r then Inf true else Fin (Qred (- r))
  end.

Definition is_zero (x : Q) : bool := (Qnum x =? 0)%Z.
Definition is_neg (x : Q) : bool := (Qnum x <? 0)%Z.

(** [x / y] *)
Definition div (x y : number) : number :=
  match x, y with
  | NaN, _ | _, NaN => NaN
  | Inf _, Inf _ => NaN
  | Inf s, Fin b => Inf (xorb s (is_neg b))
  | Fin _, Inf _ => Fin 0
  | Fin a, Fin b =>
      if is_zero b then (if is_zero a then NaN else Inf (is_neg a))
      else round (a / b)
  end.

(** [x * y] *)
Definition mul (x y : number) : number :=
  match x, y with
  | NaN, _ | _, NaN => NaN
  | Inf s, Inf t => Inf (xorb s t)
  | Inf s, Fin b => if is_zero b then NaN else Inf (xorb s (is_neg b))
  | Fin a, Inf s => if is_zero a then NaN else Inf (xorb (is_neg a) s)
  | Fin a, Fin b => round (a * b)
  end.

(** [Math.floor] *)
Definition Math_floor (x : number) : integral :=
  match x with
  | Fin q => Int (Qfloor q)
  | Inf s => IInf s
  | NaN => INaN
  end.

(** A rational is a binary64 value when rounding leaves it unchanged. *)
Definition representable (q : Q) : Prop := round q = Fin (Qred q).

Local Open Scope string_scope.

Definition hex_digit (d : Z) : string :=
  match d with
  | 0%Z => "0" | 1%Z => "1" | 2%Z => "2" | 3%Z => "3"
  | 4%Z => "4" | 5%Z => "5" | 6%Z => "6" | 7%Z => "7"
  | 8%Z => "8" | 9%Z => "9" | 10%Z => "a" | 11%Z => "b"
  | 12%Z => "c" | 13%Z => "d" | 14%Z => "e" | _ => "f"
  end.

Fixpoint hex_pos (fuel : nat) (z : Z) : string :=
  match fuel with
  | O => ""
  | S fuel' =>
      if (z <? 16)%Z then hex_digit z
      else hex_pos fuel' (z / 16) ++ hex_digit (z mod 16)
  end.

(** Digits of a non-negative integer in radix 16; a number has no more
    hexadecimal digits than bits ([NumberFacts.hex_of_Z_fuel]). *)
Definition hex_of_Z (z : Z) : string := hex_pos (S (Z.to_nat (Z.log2 z))) z.

(** [Number.prototype.toString(16)] on the values [Math.floor] returns. *)
Definition toString16 (i : integral) : string :=
  match i with
  | Int z => if (z <? 0)%Z then "-" ++ hex_of_Z (- z) else hex_of_Z z
  | IInf false => "Infinity"
  | IInf true => "-Infinity"
  | INaN => "NaN"
  end.

End Number.

(** ** The mosaic worker ([MosaicWorker])  *)

Module MosaicWorker.
Import Number.
Local Open Scope string_scope.

(** [convertToHex (component)] *)
Definition convertToHex (component : integral) : string :=
  let hex := toString16 component in
  if Nat.eqb (String.length hex) 1 then "0" +:+ hex else hex.

(** The expression [rgbToHex] evaluates for each of its three channels:
    [Math.floor((Math.floor(c / 255 * colors) / colors) * 255)]. *)
Definition reduce (c colors : number) : integral :=
  Math_floor
    (mul (div (to_number (Math_floor (mul (div c (of_Z 255)) colors))) colors)
         (of_Z 255)).

(** [rgbToHex (r, g, b, colors)] *)
Definition rgbToHex (r g b colors : number) : string :=
  let r := reduce r colors in
  let g := reduce g colors in
  let b := reduce b colors in
  convertToHex r +:+ convertToHex g +:+ convertToHex b.

(** [getColorMap (img, colors)], on [data = img.data]: one key per
    group of four bytes (red, green, blue, alpha).  Reading past the end
    of the data yields [undefined], which the arithmetic of [rgbToHex]
    turns into [NaN]. *)
Fixpoint getColorMap (data : list Z) (colors : number) : list string :=
  match data with
  | [] => []
  | r :: g :: b :: _ :: rest =>
      rgbToHex (of_Z r) (of_Z g) (of_Z b) colors :: getColorMap rest colors
  | [r; g; b] => [rgbToHex (of_Z r) (of_Z g) (of_Z b) colors]
  | [r; g] => [rgbToHex (of_Z r) (of_Z g) NaN colors]
  | [r] => [rgbToHex (of_Z r) NaN NaN colors]
  end.

(** The message a worker receives ([img] is [e.data.img.data]) and its
    [onmessage] handler, which posts the colour map back. *)
Record message : Type := { img : list Z; colors : number }.

Definition onmessage (e : message) : list string :=
  getColorMap (img e) (colors e).

End MosaicWorker.

(** ** Vocabulary for the quantizer's properties *)

Module Quantizer.
Import Number MosaicWorker.
Local Open Scope string_scope.

#[global] Instance integral_eq_dec : EqDecision integral.
Proof. solve_decision. Defined.

(** The colour components a pixel buffer can hold: [0 .. 255]. *)
Definition components : list Z := seqZ 0 256.

(** The distinct reduced values one channel takes over all components. *)
Definition reduced_values (colors : number) : list integral :=
  remove_dups (map (fun c => reduce (of_Z c) colors) components).

(** The reduced value as a function of the bucket [k] that the inner
    [Math.floor] selects. *)
Definition bucket_value (n : Q) (k : Z) : integral :=
  Math_floor (mul (div (of_Z k) (Fin n)) (of_Z 255)).

(** Two hexadecimal digits, zero padded: what the key format asks of
    each channel. *)
Definition hex2 (v : Z) : string :=
  hex_digit (v / 16) +:+ hex_digit (v mod 16).

Definition is_lower_hex (a : Ascii.ascii) : bool :=
  existsb (Ascii.eqb a) (String.list_ascii_of_string "0123456789abcdef").

Definition all_lower_hex (s : string) : bool :=
  forallb is_lower_hex (String.list_ascii_of_string s).

(** The formula of the specification,
    [floor((floor(c/255*n)/n)*255)], in exact arithmetic: no operation
    rounds. *)
Definition exact_component (c : Z) (n : Q) : Z :=
  Qfloor (inject_Z (Qfloor (inject_Z c / 255 * n)) / n * 255)%Q.

(** The same formula as JavaScript evaluates it: every division and
    every multiplication is a binary64 operation. *)
Definition binary64_component (c n : number) : integral :=
  Math_floor
    (mul (div (to_number (Math_floor (mul (div c (of_Z 255)) n))) n)
         (of_Z 255)).

(** Three components, two zero-padded hexadecimal digits each, in
    R, G, B order. *)
Definition key_of (r g b : Z) : string := hex2 r +:+ hex2 g +:+ hex2 b.

(** Whether the reduction of [c] for the whole palette size [m] is the
    exact value of the formula. *)
Definition exact_at (m c : Z) : bool :=
  bool_decide (reduce (of_Z c) (of_Z m) = Int (exact_component c (inject_Z m))).

End Quantizer.

(** ** The same computation on hardware binary64 values

    The channel reduction written with the primitive floating-point
    operations, used to cross-check the rounding model of [Number]. *)

Module Binary64.
Import Number MosaicWorker.

(** [Math.floor] of a primitive float, read off its mantissa and
    exponent. *)
Definition floor_float (f : float) : option Z :=
  match Prim2SF f with
  | S754_zero _ => Some 0%Z
  | S754_finite s m e =>
      let v := if s then Zneg m else Zpos m in
      Some (match e with
            | Z0 => v
            | Zpos p => v * 2 ^ (Zpos p)
            | Zneg p => v / 2 ^ (Zpos p)
            end)%Z
  | _ => None
  end.

(** Exact for [0 <= z < 2^53]. *)
Definition float_of_Z (z : Z) : float := PrimFloat.of_uint63 (Uint63.of_Z z).

Definition reduce_float (c n : Z) : option Z :=
  match floor_float (float_of_Z c / float_of_Z 255 * float_of_Z n)%float with
  | Some k => floor_float (float_of_Z k / float_of_Z n * float_of_Z 255)%float
  | None => None
  end.

Definition agree (c n : Z) : bool :=
  match reduce_float c n, reduce (of_Z c) (of_Z n) with
  | Some a, Int b => (a =? b)%Z
  | _, _ => false
  end.

(** The reduction in exact rational arithmetic, without any rounding. *)
Definition reduce_exact (c n : Z) : Z := ((c * n / 255) * 255 / n)%Z.

Definition differs_from_exact (c n : Z) : bool :=
  match reduce (of_Z c) (of_Z n) with
  | Int b => negb (b =? reduce_exact c n)%Z
  | _ => true
  end.

(** [Math.floor (i / d)] on hardware values and in the model, against
    the integer quotient. *)
Definition quotient_agrees (i d : Z) : bool :=
  match floor_float (float_of_Z i / float_of_Z d)%float,
        Math_floor (div (of_Z i) (of_Z d)) with
  | Some a, Int b => (a =? i / d)%Z && (b =? i / d)%Z
  | _, _ => false
  end.

End Binary64.

(** ** The mosaic ([js/mosaic.js]): values, pixel map, colour map *)

Module Mosaic.
Import Number.
Local Open Scope Z_scope.

(** The object literal [{color, x, y}] that [getPixelMap] creates.  A
    JavaScript object has an identity: [addr] is the address the literal
    was allocated at, and [===] on objects compares addresses. *)
Record pixel : Type := {
  addr : nat;
  color : string;
  x : Z;
  y : Z
}.

(** [===] *)
Class StrictEq (A : Type) := strict_eq : A -> A -> bool.

#[global] Instance string_strict_eq : StrictEq string := String.eqb.
#[global] Instance pixel_strict_eq : StrictEq pixel :=
  fun a b => Nat.eqb (addr a) (addr b).

(** [Array.prototype.indexOf]: the first index holding a value [===] to
    the one searched, or [-1]. *)
Fixpoint indexOf_from {A} `{StrictEq A} (self : list A) (value : A) (from : Z) : Z :=
  match self with
  | [] => -1
  | v :: rest =>
      if strict_eq v value then from else indexOf_from rest value (from + 1)
  end.

Definition indexOf {A} `{StrictEq A} (self : list A) (value : A) : Z :=
  indexOf_from self value 0.

(** [unique (value, index, self)] *)
Definition unique {A} `{StrictEq A} (value : A) (index : Z) (self : list A) : bool :=
  indexOf self value =? index.

(** [Array.prototype.filter] with a callback that receives the value,
    its index and the array. *)
Fixpoint filter_from {A} (f : A -> Z -> list A -> bool)
    (self rest : list A) (index : Z) : list A :=
  match rest with
  | [] => []
  | v :: rest' =>
      if f v index self
      then v :: filter_from f self rest' (index + 1)
      else filter_from f self rest' (index + 1)
  end.

Definition array_filter {A} (f : A -> Z -> list A -> bool) (self : list A) : list A :=
  filter_from f self self 0.

(** [Array.prototype.map] with a callback that receives the value and
    its index; the callback also receives the address at which an object
    literal it evaluates is allocated ([base] is the first free one). *)
Fixpoint map_from {A B} (f : nat -> A -> Z -> B)
    (base : nat) (rest : list A) (index : Z) : list B :=
  match rest with
  | [] => []
  | v :: rest' => f base v index :: map_from f (S base) rest' (index + 1)
  end.

(** [findCurrentRow (pixelMap, currentRowIndex)] *)
Definition findCurrentRow (pixelMap : list pixel) (currentRowIndex : Z) : list pixel :=
  List.filter (fun pixel => y pixel =? currentRowIndex) pixelMap.

(** The [then] callback of [getPixelMap (size, image, colors)], applied
    to the colour map [tileColors]; [size] is [(size.x, size.y)] and has
    [size.x >= 1].  Indices and [size.x] are array-sized integers, on
    which [i % size.x] and [Math.floor(i / size.x)] are the integer
    remainder and quotient ([Binary64Facts.floor_quotient_matches]
    compares the quotient with the binary64 one). *)
Definition getPixelMap (base : nat) (size : Z * Z) (tileColors : list string) : list pixel :=
  map_from (fun a color i =>
              {| addr := a;
                 color := color;
                 x := Z.rem i (fst size) + 1;
                 y := i / fst size + 1 |})
           base tileColors 0.

(** The first statements of the [then] callback of [create]:
    [uniqueMap] and [uniqueColors]. *)
Definition uniqueMap (pixelMap : list pixel) : list pixel :=
  array_filter unique pixelMap.

Definition uniqueColors (pixelMap : list pixel) : list string :=
  map color (uniqueMap pixelMap).

(** *** [getColorMap (img, colors)]

    What a call evaluates to: a value or a thrown error. *)
Inductive completion (T : Type) : Type :=
  | Returns (v : T)
  | Throws (name message : string).
Arguments Returns {T} v.
Arguments Throws {T} name message.

(** A scope binds identifiers; an identifier is resolved in the
    innermost scope that declares it. *)
Inductive binding : Type :=
  | Undefined
  | MosaicWorkerFunction.

Definition scope : Type := list (string * binding).

Fixpoint resolve (name : string) (chain : list scope) : binding :=
  match chain with
  | [] => Undefined
  | s :: outer =>
      match List.find (fun b => String.eqb (fst b) name) s with
      | Some b => snd b
      | None => resolve name outer
      end
  end.

Definition global_scope : scope := [("MosaicWorker"%string, MosaicWorkerFunction)].

(** The [var] declarations of [getColorMap] are hoisted: on entry its
    scope declares [mosaicWorker], [waitForWorker] and [MosaicWorker],
    all [undefined]. *)
Definition getColorMap_scope : scope :=
  [("mosaicWorker"%string, Undefined); ("waitForWorker"%string, Undefined);
   ("MosaicWorker"%string, Undefined)].

(** [new f ()] *)
Definition construct (f : binding) (fname : string) : completion unit :=
  match f with
  | MosaicWorkerFunction => Returns tt
  | Undefined => Throws "TypeError" (fname +:+ " is not a constructor")
  end.

(** [window_Worker] tells whether the platform has [window.Worker].
    With a worker, the promise resolves to the data the worker's
    [onmessage] handler posts back. *)
Definition getColorMap (window_Worker : bool) (img : list Z) (colors : number)
  : completion (list string) :=
  if window_Worker then
    Returns (MosaicWorker.onmessage
               {| MosaicWorker.img := img; MosaicWorker.colors := colors |})
  else
    match construct (resolve "MosaicWorker" [getColorMap_scope; global_scope])
                    "MosaicWorker" with
    | Throws name message => Throws name message
    | Returns _ => Returns (MosaicWorker.getColorMap img colors)
    end.

(** [currentRowDownloaded (currentRow, completeTiles)]; an [Image] has a
    [complete] flag, and [completeTiles] is an object used as a map from
    colour keys to images. *)
Record image : Type := { src : string; complete : bool }.

Definition currentRowDownloaded (currentRow : list pixel)
    (completeTiles : gmap string image) : bool :=
  negb (existsb
          (fun elem =>
             negb (match completeTiles !! color elem with
                   | Some tile => complete tile
                   | None => false
                   end))
          currentRow).

End Mosaic.

(** ** [Mosaic.prototype.downloadLimitedItems]

    The closure state of one call and the code that runs on it.  The
    iterator is the environment: a call of it starts a fetch, and the
    fetch later reports by calling the function it was handed. *)

Module Loader.
Local Open Scope Z_scope.

(** [typeof iterator === 'function'], or not. *)
Inductive iterator_kind : Type := IsFunction | NotFunction.

Section DownloadLimitedItems.
Context {A R E U : Type}.

(** The arguments [arr], [limit], [iterator] and [callback].  Of the
    iterator the code itself looks at one thing, whether it is a
    function; what its calls do is the environment below.  The callback
    acts on the state [U] of its owner; its arguments are the error
    ([None] for a falsy one such as [null]) and the results array
    ([None] when the argument is not passed). *)
Variable arr : list A.
Variable limit : Z.
Variable iterator : iterator_kind.
Variable callback : option E -> option (list (option R)) -> U -> U.

(** [l = arr.length] *)
Definition l : Z := Z.of_nat (length arr).

Record state : Type := {
  complete : Z;
  aborted : bool;
  results : list (option R);   (* [None] is [null] *)
  queued : Z;
  i : Z;
  called : bool;               (* [f.called] of [once (callback)] *)
  user : U;                    (* what the final callback acts on *)
  started : list Z;            (* indices the iterator was called with, in call order *)
  pending : list Z             (* started fetches that have not reported yet *)
}.

(** [results[idx] = v]; an index past the end would extend the array,
    leaving holes. *)
Definition array_set (a : list (option R)) (idx : Z) (v : option R) : list (option R) :=
  if idx <? Z.of_nat (length a) then <[Z.to_nat idx := v]> a
  else a ++ replicate (Z.to_nat idx - length a)%nat None ++ [v].

(** A call of [callback], which [once] wrapped: the wrapped function
    runs only if [f.called] is still false. *)
Definition call_once (err : option E) (res : option (list (option R)))
    (s : state) : state :=
  if called s then s
  else {| complete := complete s; aborted := aborted s; results := results s;
          queued := queued s; i := i s; called := true;
          user := callback err res (user s);
          started := started s; pending := pending s |}.

(** [push ()]: [var idx = i++; queued += 1; iterator(arr[idx], ...)] *)
Definition push (s : state) : state :=
  let idx := i s in
  {| complete := complete s; aborted := aborted s; results := results s;
     queued := queued s + 1; i := idx + 1; called := called s;
     user := user s;
     started := started s ++ [idx]; pending := pending s ++ [idx] |}.

(** The [while (queued < limit)] loop of [flush].  Every iteration that
    does not leave the loop increments [i], so [l - i] iterations are
    all it can make. *)
Fixpoint flush_loop (fuel : nat) (s : state) : state :=
  match fuel with
  | O => s
  | S fuel' =>
      if queued s <? limit then
        if aborted s then s
        else if i s =? l then s
        else flush_loop fuel' (push s)
      else s
  end.

(** [flush ()] *)
Definition flush (s : state) : state :=
  if complete s =? l then call_once None (Some (results s)) s
  else flush_loop (Z.to_nat (l - i s)) s.

(** [abort (err)] *)
Definition abort (err : E) (s : state) : state :=
  call_once (Some err) None
    {| complete := complete s; aborted := true; results := results s;
       queued := queued s; i := i s; called := called s; user := user s;
       started := started s; pending := pending s |}.

(** The function handed to the iterator for item [idx], called with
    [(err, result)]; [err] is [None] when falsy. *)
Definition settle (idx : Z) (err : option E) (result : R) (s : state) : state :=
  let rest := List.filter (fun j => negb (j =? idx)) (pending s) in
  match err with
  | Some e =>
      abort e
        {| complete := complete s; aborted := aborted s; results := results s;
           queued := queued s; i := i s; called := called s; user := user s;
           started := started s; pending := rest |}
  | None =>
      flush
        {| complete := complete s + 1; aborted := aborted s;
           results := array_set (results s) idx (Some result);
           queued := queued s - 1; i := i s; called := called s;
           user := user s;
           started := started s; pending := rest |}
  end.

(** The statements of [downloadLimitedItems] that follow the check of
    [iterator]: [results] is filled with [null] and [flush ()] is
    called. *)
Definition start (user0 : U) : state :=
  flush {| complete := 0; aborted := false;
           results := replicate (length arr) None;
           queued := 0; i := 0; called := false; user := user0;
           started := []; pending := [] |}.

(** [downloadLimitedItems (arr, limit, iterator, callback)]: what the
    call evaluates to.  It throws, before anything else happens, when
    [iterator] is not a function; otherwise it returns, leaving the
    state of [start]. *)
Definition downloadLimitedItems (user0 : U) : Mosaic.completion state :=
  match iterator with
  | IsFunction => Mosaic.Returns (start user0)
  | NotFunction =>
      Mosaic.Throws "Error"%string
        "Iterator function must be passed as the third argument"%string
  end.

(** The environment: the fetch of item [idx] reports [outcome idx], and
    fetches report one at a time, each started fetch at most once, in
    the order [schedule] lists them. *)
Variable outcome : Z -> option E * R.

Definition is_pending (idx : Z) (s : state) : bool :=
  existsb (Z.eqb idx) (pending s).

Definition deliver (idx : Z) (s : state) : option state :=
  if is_pending idx s
  then Some (settle idx (fst (outcome idx)) (snd (outcome idx)) s)
  else None.

Fixpoint run (schedule : list Z) (s : state) : option state :=
  match schedule with
  | [] => Some s
  | idx :: rest =>
      match deliver idx s with
      | Some s' => run rest s'
      | None => None
      end
  end.

End DownloadLimitedItems.

Arguments state : clear implicits.

(** The arguments a callback was invoked with, when all it does is
    record them. *)
Definition call_log (R E : Type) : Type :=
  list (option E * option (list (option R))).

Definition record_call {R E : Type}
    (err : option E) (res : option (list (option R)))
    (log : call_log R E) : call_log R E :=
  log ++ [(err, res)].

End Loader.

(** ** [Mosaic.prototype.create]: loading tiles and rendering rows *)

Module Create.
Import Mosaic.
Local Open Scope Z_scope.

Definition TILE_WIDTH : Z := 8.
Definition TILE_HEIGHT : Z := 8.

(** A call [context.drawImage (completeTiles[pixel.color], dx, dy)];
    [entry] is the pixel-map entry it was made for.  The position is
    kept as an exact rational. *)
Record draw : Type := {
  tile : option image;       (* [None] is [undefined] *)
  dx : Q;
  dy : Q;
  entry : pixel
}.

(** The variables of the [then] callback that rendering reads and
    writes, and the calls made on the canvas context so far. *)
Record canvas : Type := {
  currentRowIndex : Z;
  currentRow : list pixel;
  completeTiles : gmap string image;
  drawn : list draw
}.

Section Create.

Variable pixelMap : list pixel.
(** [offset = {x, y}] *)
Variable offset : Q * Q.

Definition drawImage (tiles : gmap string image) (pixel : pixel) : draw :=
  {| tile := tiles !! color pixel;
     dx := (fst offset + inject_Z ((x pixel - 1) * TILE_WIDTH))%Q;
     dy := (snd offset + inject_Z ((y pixel - 1) * TILE_HEIGHT))%Q;
     entry := pixel |}.

(** [renderCompleteRows ()] calls itself once per further row; [None]
    means the calls allowed by [fuel] were not enough. *)
Fixpoint renderCompleteRows_fuel (fuel : nat) (c : canvas) : option canvas :=
  match fuel with
  | O => None
  | S fuel' =>
      if negb (currentRowDownloaded (currentRow c) (completeTiles c)) then Some c
      else
        let index := currentRowIndex c + 1 in
        let c' :=
          {| currentRowIndex := index;
             currentRow := findCurrentRow pixelMap index;
             completeTiles := completeTiles c;
             drawn := drawn c ++ map (drawImage (completeTiles c)) (currentRow c) |} in
        if Nat.eqb (length (currentRow c')) 0 then Some c'
        else renderCompleteRows_fuel fuel' c'
  end.

(** One call more than the pixel map has entries always suffices
    ([renderCompleteRows_fuel_enough]). *)
Definition renderCompleteRows (c : canvas) : canvas :=
  match renderCompleteRows_fuel (S (length pixelMap)) c with
  | Some c' => c'
  | None => c
  end.

(** The state when [downloadLimitedItems] is called. *)
Definition initial_canvas : canvas :=
  {| currentRowIndex := 1;
     currentRow := findCurrentRow pixelMap 1;
     completeTiles := ∅;
     drawn := [] |}.

(** The final callback: [function () { renderCompleteRows () }]. *)
Definition final_callback (err : option unit)
    (res : option (list (option image))) (c : canvas) : canvas :=
  renderCompleteRows c.

Definition pass : Type := Loader.state image canvas.

Definition with_user (f : canvas -> canvas) (s : pass) : pass :=
  {| Loader.complete := Loader.complete s; Loader.aborted := Loader.aborted s;
     Loader.results := Loader.results s; Loader.queued := Loader.queued s;
     Loader.i := Loader.i s; Loader.called := Loader.called s;
     Loader.user := f (Loader.user s);
     Loader.started := Loader.started s; Loader.pending := Loader.pending s |}.

Definition set_tile (color : string) (img : image) (c : canvas) : canvas :=
  {| currentRowIndex := currentRowIndex c; currentRow := currentRow c;
     completeTiles := <[color := img]> (completeTiles c);
     drawn := drawn c |}.

(** [self.downloadLimitedItems (uniqueColors, 16, function (color, cb)
    {...}, function () {...})]: the iterator passed is a function
    literal. *)
Definition create : completion pass :=
  Loader.downloadLimitedItems (uniqueColors pixelMap) 16 Loader.IsFunction
    final_callback initial_canvas.

(** [image.onload] of the fetch started for item [idx], whose key is
    [color]: [completeTiles[color] = image; cb (false, image);
    renderCompleteRows ()].  A loaded image has [complete] set. *)
Definition onload (idx : Z) (color : string) (s : pass) : pass :=
  let img := {| src := "color/" +:+ color; complete := true |} in
  let s1 := with_user (set_tile color img) s in
  let s2 := Loader.settle (uniqueColors pixelMap) 16 final_callback idx None img s1 in
  with_user renderCompleteRows s2.

(** Images load one at a time, in any order: [schedule] lists the
    indices of the started fetches in the order their images load. *)
Definition load (idx : Z) (s : pass) : option pass :=
  if Loader.is_pending idx s then
    match uniqueColors pixelMap !! Z.to_nat idx with
    | Some color => Some (onload idx color s)
    | None => None
    end
  else None.

Fixpoint run (schedule : list Z) (s : pass) : option pass :=
  match schedule with
  | [] => Some s
  | idx :: rest =>
      match load idx s with
      | Some s' => run rest s'
      | None => None
      end
  end.

End Create.

End Create.

(** ** Sample batches *)

Module Examples.
Local Open Scope Z_scope.

Definition keys : list string := ["a0ff10"; "000000"; "ffffff"]%string.

(** Every fetch succeeds; the fetch of item [j] yields [10 * j]. *)
Definition all_succeed (j : Z) : option string * Z := (None, 10 * j).

(** The fetch of item 1 fails. *)
Definition second_fails (j : Z) : option string * Z :=
  if j =? 1 then (Some "404"%string, 0) else (None, 10 * j).

(** A two by two mosaic whose corners share a colour. *)
Definition sample_map : list Mosaic.pixel :=
  Mosaic.getPixelMap 0 (2, 2) ["000000"; "ffffff"; "a0ff10"; "000000"]%string.

End Examples.

(** ** Vocabulary for the properties of the mosaic *)

(** *** The grid *)

Module Grid.
Import Mosaic.
Local Open Scope Z_scope.

Definition coordinates (p : pixel) : Z * Z := (x p, y p).

(** The cells of a [gx] by [gy] grid in row-major order. *)
Definition row_major (gx gy : Z) : list (Z * Z) :=
  flat_map (fun row => map (fun col => (col, row)) (seqZ 1 gx)) (seqZ 1 gy).

(** The cell that index [n] of a row-major scan falls in. *)
Definition cell_of_index (gx n : Z) : Z * Z := (n mod gx + 1, n / gx + 1).

End Grid.

(** *** The loader *)

Module LoaderInvariants.
Import Loader.
Local Open Scope Z_scope.

Section Counters.
Context {A R U : Type}.
Variable arr : list A.
Variable limit : Z.

(** What the counters count. *)
Record counts_ok (s : state R U) : Prop := {
  i_range : 0 <= i s <= l arr;
  started_fifo : started s = seqZ 0 (i s);
  pending_nodup : NoDup (pending s);
  pending_started : forall j, j ∈ pending s -> 0 <= j < i s;
  queued_count : queued s = i s - complete s;
  pending_eq_queued : aborted s = false -> Z.of_nat (length (pending s)) = queued s;
  pending_lt_queued : aborted s = true -> Z.of_nat (length (pending s)) < queued s;
  queued_le_limit : 0 <= limit -> queued s <= limit;
  results_length : length (results s) = length arr;
  complete_nonneg : 0 <= complete s
}.

(** Unless the batch is aborted, every item has been started or every
    slot is taken. *)
Definition topped_up (s : state R U) : Prop :=
  aborted s = false -> i s = l arr \/ limit <= queued s.

(** The state after [k] more iterations of the dispatch loop. *)
Definition pushed (k : Z) (s : state R U) : state R U :=
  {| complete := complete s; aborted := aborted s; results := results s;
     queued := queued s + k; i := i s + k; called := called s;
     user := user s;
     started := started s ++ seqZ (i s) k;
     pending := pending s ++ seqZ (i s) k |}.

End Counters.

Section Callback.
Context {A R E : Type}.
Variable arr : list A.
Variable limit : Z.
Variable outcome : Z -> option E * R.

Definition succeeded (j : Z) : Prop := fst (outcome j) = None.

(** No fetch has failed so far. *)
Record quiet (s : state R (call_log R E)) : Prop := {
  q_aborted : aborted s = false;
  q_progress : i s = l arr \/ limit <= queued s;
  q_waiting : complete s <> l arr -> called s = false /\ user s = [];
  q_done : complete s = l arr ->
           called s = true /\ user s = [(None, Some (results s))]
}.

(** What the fetches that reported ([hist]) left in [results]. *)
Record recorded (hist : list Z) (s : state R (call_log R E)) : Prop := {
  rec_results : forall j, 0 <= j -> j ∈ hist -> succeeded j ->
      results s !! Z.to_nat j = Some (Some (snd (outcome j)));
  rec_covered : forall j, 0 <= j < i s -> j ∈ hist \/ j ∈ pending s;
  rec_complete : complete s = Z.of_nat (length hist)
}.

(** After a failure nothing changes but the bookkeeping of fetches that
    still report. *)
Record stuck (e : E) (started0 : list Z) (s : state R (call_log R E)) : Prop := {
  st_aborted : aborted s = true;
  st_called : called s = true;
  st_user : user s = [(Some e, None)];
  st_started : started s = started0
}.

End Callback.

Arguments q_aborted {A R E arr limit} s _.
Arguments q_progress {A R E arr limit} s _.
Arguments q_waiting {A R E arr limit} s _ _.
Arguments q_done {A R E arr limit} s _ _.
Arguments rec_results {R E outcome} hist s _ j _ _ _.
Arguments rec_covered {R E outcome} hist s _ j _.
Arguments rec_complete {R E outcome} hist s _.
Arguments st_user {R E} e started0 s _.

End LoaderInvariants.

(** *** The canvas *)

Module CreateInvariants.
Import Mosaic Create.
Local Open Scope Z_scope.

(** A tile drawn from an image that was loaded. *)
Definition loaded (d : draw) : Prop :=
  exists img, tile d = Some img /\ complete img = true.

Section Canvas.
Variable pixelMap : list pixel.

(** The rows before the current one are drawn, whole and in order, each
    tile from a loaded image. *)
Record rendered (c : canvas) : Prop := {
  row_current : currentRow c = findCurrentRow pixelMap (currentRowIndex c);
  index_pos : 1 <= currentRowIndex c;
  drawn_rows : map entry (drawn c)
               = flat_map (findCurrentRow pixelMap) (seqZ 1 (currentRowIndex c - 1));
  drawn_loaded : Forall loaded (drawn c)
}.

(** Entries of a later row than [index]: what recursion has left to do. *)
Definition rows_after (index : Z) : nat :=
  length (List.filter (fun p => index <? y p) pixelMap).

End Canvas.

Arguments drawn_rows {pixelMap} c _.
Arguments drawn_loaded {pixelMap} c _.

End CreateInvariants.
(** ** Reading colour keys back ([toString(16)] inverted) *)

Module HexDecode.
Local Open Scope Z_scope.

(** The value of a hexadecimal digit, lower case as [toString(16)]
    writes it: its position among the sixteen digits. *)
Fixpoint position (a : Ascii.ascii) (digits : list Ascii.ascii) (n : Z) : option Z :=
  match digits with
  | [] => None
  | d :: rest => if Ascii.eqb a d then Some n else position a rest (n + 1)
  end.

Definition hex_value (a : Ascii.ascii) : option Z :=
  position a (String.list_ascii_of_string "0123456789abcdef") 0.

(** Reads hexadecimal digits from the left, [acc] being the value of
    the digits read so far. *)
Fixpoint parse_hex_from (acc : Z) (s : string) : option Z :=
  match s with
  | EmptyString => Some acc
  | String a rest =>
      match hex_value a with
      | Some d => parse_hex_from (16 * acc + d) rest
      | None => None
      end
  end.

Definition parse_hex (s : string) : option Z := parse_hex_from 0 s.

(** The three channels of a six-digit key. *)
Definition parse_key (key : string) : option (Z * Z * Z) :=
  match key with
  | String r1 (String r2 (String g1 (String g2 (String b1 (String b2 EmptyString))))) =>
      match parse_hex (String r1 (String r2 EmptyString)),
            parse_hex (String g1 (String g2 EmptyString)),
            parse_hex (String b1 (String b2 EmptyString)) with
      | Some r, Some g, Some b => Some (r, g, b)
      | _, _, _ => None
      end
  | _ => None
  end.

(** Whether the two-digit form of a component reads back as it. *)
Definition two_digits (v : Z) : bool :=
  match Quantizer.hex2 v with
  | String a (String b EmptyString) =>
      match parse_hex (String a (String b EmptyString)) with
      | Some w => w =? v
      | None => false
      end
  | _ => false
  end.

End HexDecode.

(** ** [once (fn)] *)

Module Once.
Import Mosaic.

Section Once.
Context {Args V W : Type}.

(** The wrapped function: called with [args] in a world [w] it returns
    a value or throws, and leaves a world behind. *)
Variable fn : Args -> W -> completion V * W.

(** The properties [f.called] and [f.value] of the wrapper [f];
    [None] is [undefined]. *)
Record wrapper : Type := { called : bool; value : option V }.

(** [once (fn)]: [f.called = false; return f] *)
Definition once : wrapper := {| called := false; value := None |}.

(** A call [f (args)]:
    [if (f.called) return f.value; f.called = true;
     return f.value = fn.apply (this, arguments)].
    When [fn] throws, the assignment to [f.value] does not happen. *)
Definition call (f : wrapper) (args : Args) (w : W)
  : completion (option V) * wrapper * W :=
  if called f then (Returns (value f), f, w)
  else
    match fn args w with
    | (Returns v, w') => (Returns (Some v), {| called := true; value := Some v |}, w')
    | (Throws name message, w') =>
        (Throws name message, {| called := true; value := value f |}, w')
    end.

(** A sequence of calls, one after the other; a caller that catches
    what a call throws goes on with the next. *)
Fixpoint calls (f : wrapper) (argss : list Args) (w : W)
  : list (completion (option V)) * wrapper * W :=
  match argss with
  | [] => ([], f, w)
  | args :: rest =>
      let '(r, f1, w1) := call f args w in
      let '(rs, f2, w2) := calls f1 rest w1 in
      (r :: rs, f2, w2)
  end.

End Once.

End Once.

(** ** [getSize] and [getDimensions]: fitting the image to the canvas *)

Module Layout.
Import Number.

(** [Math.ceil] *)
Definition Math_ceil (x : number) : integral :=
  match x with
  | Fin q => Int (Qceiling q)
  | Inf s => IInf s
  | NaN => INaN
  end.

(** [x < y]: false as soon as one side is [NaN]. *)
Definition lt (x y : number) : bool :=
  match x, y with
  | NaN, _ | _, NaN => false
  | Fin a, Fin b => negb (Qle_bool b a)
  | Fin _, Inf t => negb t
  | Inf s, Fin _ => s
  | Inf s, Inf t => s && negb t
  end.

(** What [getSize] reads of its arguments: [{width, height}]. *)
Record extent : Type := { width : number; height : number }.

(** [{x, y}] *)
Record size : Type := { x : number; y : number }.

(** [getSize (image, canvas)] *)
Definition getSize (image canvas : extent) : size :=
  let aspectRatio := div (width image) (height image) in
  let width := width canvas in
  let height := height canvas in
  if lt (div width aspectRatio) height then
    {| x := width;
       y := to_number (Math_floor (div width aspectRatio)) |}
  else
    {| x := to_number (Math_floor (mul height aspectRatio));
       y := to_number (Math_floor height) |}.

(** [getDimensions (size)] *)
Definition getDimensions (size : size) : Layout.size :=
  {| x := to_number (Math_ceil (div (x size) (of_Z Create.TILE_WIDTH)));
     y := to_number (Math_ceil (div (y size) (of_Z Create.TILE_HEIGHT))) |}.

End Layout.

(** *** The finished mosaic *)

Module Painting.
Import Mosaic Create.
Local Open Scope Z_scope.

(** The image the iterator of [create] makes for a key, once it has
    loaded. *)
Definition tile_of (key : string) : image :=
  {| src := "color/" +:+ key; complete := true |}.

(** Where [renderCompleteRows] stops: at a row with a tile missing, or
    past the last row. *)
Definition halted (c : canvas) : Prop :=
  currentRow c = []
  \/ currentRowDownloaded (currentRow c) (completeTiles c) = false.

Section Painting.
Variable pixelMap : list pixel.
Variable offset : Q * Q.

(** The call that paints entry [p] with the tile of its own key. *)
Definition painted (p : pixel) : draw :=
  {| tile := Some (tile_of (color p));
     dx := (fst offset + inject_Z ((x p - 1) * TILE_WIDTH))%Q;
     dy := (snd offset + inject_Z ((y p - 1) * TILE_HEIGHT))%Q;
     entry := p |}.

(** Tiles are the images fetched for their keys, and every call made on
    the canvas painted an entry with the tile of its key. *)
Record tiles_ok (c : canvas) : Prop := {
  tiles_sound : forall key img,
      completeTiles c !! key = Some img -> img = tile_of key;
  drawn_painted : drawn c = map painted (map entry (drawn c))
}.

(** No fetch fails, and the tile of every fetch that has reported is
    in place. *)
Record loading (s : pass) : Prop := {
  not_aborted : Loader.aborted s = false;
  reported_loaded : forall idx key,
      0 <= idx < Loader.i s -> idx ∉ Loader.pending s ->
      uniqueColors pixelMap !! Z.to_nat idx = Some key ->
      completeTiles (Loader.user s) !! key = Some (tile_of key)
}.

(** What holds of every state the loads lead to. *)
Record sound (s : pass) : Prop := {
  s_counts : LoaderInvariants.counts_ok (uniqueColors pixelMap) 16 s;
  s_topped : LoaderInvariants.topped_up (uniqueColors pixelMap) 16 s;
  s_loading : loading s;
  s_rendered : CreateInvariants.rendered pixelMap (Loader.user s);
  s_tiles : tiles_ok (Loader.user s);
  s_halted : halted (Loader.user s)
}.

End Painting.

End Painting.

(** ** The client ([Client.prototype.onFileChange]) *)

Module Client.
Import Stdlib.Strings.Ascii.
Local Open Scope string_scope.

(** [String.prototype.split (separator)] for a separator of one
    character: the pieces between the separators, empty ones included. *)
Fixpoint split (separator : Ascii.ascii) (s : string) : list string :=
  match s with
  | EmptyString => [EmptyString]
  | String a rest =>
      if Ascii.eqb a separator then EmptyString :: split separator rest
      else
        match split separator rest with
        | piece :: pieces => String a piece :: pieces
        | [] => [String a EmptyString]
        end
  end.

(** [Array.prototype.join (separator)] *)
Fixpoint join (separator : string) (pieces : list string) : string :=
  match pieces with
  | [] => ""
  | [piece] => piece
  | piece :: rest => piece +:+ separator +:+ join separator rest
  end.

(** What [onFileChange] reads of a [File]. *)
Record file : Type := { type : string; name : string }.

(** What [onFileChange] does, in order. *)
Inductive effect : Type :=
  | SetErrorText (text : string)       (* [this.error.textContent = text] *)
  | AddBodyClass (class : string)      (* [document.body.classList.add (class)] *)
  | SetDownload (name : string)        (* [this.saveButton.download = name] *)
  | RenderCanvas                       (* [this.renderCanvas ()] *)
  | Render (f : file).                 (* [this.render (file)] *)

(** [name.split ('.'); name.pop (); name.join ('.') + '-mosaic.png'] *)
Definition download_name (name : string) : string :=
  join "." (removelast (split "."%char name)) +:+ "-mosaic.png".

(** [onFileChange (input)]; [files] is [input.files], [None] when it is
    missing. *)
Definition onFileChange (files : option (list file)) : list effect :=
  match files with
  | None | Some [] => []
  | Some (file :: _) =>
      if String.eqb (type file) "image/png"
         || String.eqb (type file) "image/jpg"
         || String.eqb (type file) "image/jpeg"
      then [SetErrorText ""; AddBodyClass "view";
            SetDownload (download_name (name file)); RenderCanvas; Render file]
      else [SetErrorText "Please upload an image."]
  end.

End Client.

(** ** The offset that centres the mosaic on the canvas *)

Module Centre.
Import Number Layout.

(** [x - y] *)
Definition sub (x y : number) : number :=
  match x, y with
  | NaN, _ | _, NaN => NaN
  | Inf s, Inf t => if Bool.eqb s t then NaN else Inf s
  | Inf s, Fin _ => Inf s
  | Fin _, Inf t => Inf (negb t)
  | Fin a, Fin b => round (a - b)
  end.

(** [offset] in [create]:
    [{x: (canvas.width - imageSize.x) / 2, y: (canvas.height - imageSize.y) / 2}] *)
Definition offset (canvas : extent) (imageSize : size) : size :=
  {| x := div (sub (width canvas) (x imageSize)) (of_Z 2);
     y := div (sub (height canvas) (y imageSize)) (of_Z 2) |}.

End Centre.


(** ** Facts about binary64 rounding *)

Module NumberFacts.
Import Number.
Local Open Scope Q_scope.

Lemma two_pos : 0 < 2. Proof. reflexivity. Qed.
Lemma two_nz : ~ 2 == 0. Proof. discriminate. Qed.
Lemma pow2_pos e : 0 < 2 ^ e.
Proof. apply Qpower_0_lt, two_pos. Qed.

Lemma pow2_inject (k : Z) : (0 <= k)%Z -> inject_Z (2 ^ k) == 2 ^ k.
Proof. intros Hk. now rewrite Zpower_Qpower. Qed.

Lemma Qmake_mult_den (a : Z) (b : positive) : (a # b) * inject_Z (Zpos b) == inject_Z a.
Proof. unfold Qeq, Qmult, inject_Z; simpl. rewrite Pos.mul_1_r. ring. Qed.

Lemma ilog2_spec (x : Q) :
  0 < x -> 2 ^ ilog2 x <= x /\ x < 2 ^ (ilog2 x + 1).
Proof.
  intros Hx. destruct x as [a b].
  assert (Ha : (0 < a)%Z) by (unfold Qlt in Hx; simpl in Hx; lia).
  pose proof (Z.log2_spec a Ha) as [Hal Hau].
  pose proof (Z.log2_spec (Zpos b) (Pos2Z.is_pos b)) as [Hbl Hbu].
  pose proof (Z.log2_nonneg a) as Hla.
  pose proof (Z.log2_nonneg (Zpos b)) as Hlb.
  set (la := Z.log2 a) in *. set (lb := Z.log2 (Zpos b)) in *.
  assert (Hup : a # b < 2 ^ (la - lb + 1)).
  { replace (la - lb + 1)%Z with (la + 1 - lb)%Z by lia.
    rewrite Qpower_minus by apply two_nz.
    apply Qlt_shift_div_l; [apply pow2_pos|].
    apply Qle_lt_trans with (inject_Z a).
    - rewrite <- (Qmake_mult_den a b).
      apply Qmult_le_l; [exact Hx|].
      rewrite <- pow2_inject by lia. rewrite <- Zle_Qle. exact Hbl.
    - rewrite <- pow2_inject by lia. rewrite <- Zlt_Qlt. 
      replace (la + 1)%Z with (Z.succ la) by lia. exact Hau. }
  assert (Hlo : 2 ^ (la - lb - 1) < a # b).
  { replace (la - lb - 1)%Z with (la - (lb + 1))%Z by lia.
    rewrite Qpower_minus by apply two_nz.
    apply Qlt_shift_div_r; [apply pow2_pos|].
    apply Qle_lt_trans with (inject_Z a).
    - rewrite <- pow2_inject by lia. rewrite <- Zle_Qle. exact Hal.
    - rewrite <- (Qmake_mult_den a b) at 1.
      apply Qmult_lt_l; [exact Hx|].
      rewrite <- pow2_inject by lia. rewrite <- Zlt_Qlt.
      replace (lb + 1)%Z with (Z.succ lb) by lia. exact Hbu. }
  unfold ilog2. cbn [Qnum Qden]. fold la lb.
  destruct (Qle_bool (2 ^ (la - lb)) (a # b)) eqn:E.
  - apply Qle_bool_iff in E. split; [exact E | exact Hup].
  - split.
    + apply Qlt_le_weak. exact Hlo.
    + replace (la - lb - 1 + 1)%Z with (la - lb)%Z by lia.
      apply Qnot_le_lt. intros H. apply Qle_bool_iff in H. congruence.
Qed.

Lemma round_half_even_le (q : Q) (N : Z) :
  q <= inject_Z N -> (round_half_even q <= N)%Z.
Proof.
  intros Hq. unfold round_half_even.
  pose proof (Qfloor_le q) as Hf.
  assert (Hfl : (Qfloor q <= N)%Z).
  { rewrite <- (Qfloor_Z N). apply Qfloor_resp_le. exact Hq. }
  assert (Hstep : inject_Z (Qfloor q) < q -> (Qfloor q + 1 <= N)%Z).
  { intros Hlt. assert (H : (Qfloor q < N)%Z).
    { rewrite Zlt_Qlt. eapply Qlt_le_trans; eauto. }
    lia. }
  assert (Hfrac : 0 < q - inject_Z (Qfloor q) -> inject_Z (Qfloor q) < q).
  { intros H. apply Qlt_minus_iff. exact H. }
  destruct (Qcompare (q - inject_Z (Qfloor q)) (1 # 2)) eqn:E.
  - destruct (Z.even (Qfloor q)); [exact Hfl|].
    apply Hstep, Hfrac. apply Qeq_alt in E. rewrite E. reflexivity.
  - exact Hfl.
  - apply Hstep, Hfrac. apply Qgt_alt in E.
    eapply Qlt_trans; [|exact E]. reflexivity.
Qed.

Lemma round_half_even_nonneg (q : Q) : 0 <= q -> (0 <= round_half_even q)%Z.
Proof.
  intros Hq. unfold round_half_even.
  assert (H0 : (0 <= Qfloor q)%Z).
  { change 0%Z with (Qfloor 0). apply Qfloor_resp_le. exact Hq. }
  destruct (Qcompare _ _); [destruct (Z.even _)| |]; lia.
Qed.

Lemma round_pos_nonneg (x : Q) : 0 <= x -> 0 <= round_pos x.
Proof.
  intros Hx. unfold round_pos.
  apply Qmult_le_0_compat; [|apply Qlt_le_weak, pow2_pos].
  change 0 with (inject_Z 0). rewrite <- Zle_Qle.
  apply round_half_even_nonneg.
  apply Qle_shift_div_l; [apply pow2_pos|]. now rewrite Qmult_0_l.
Qed.

Lemma ilog2_mono (x y : Q) : 0 < x -> x <= y -> (ilog2 x <= ilog2 y)%Z.
Proof.
  intros Hx Hxy.
  destruct (ilog2_spec x Hx) as [Hl _].
  destruct (ilog2_spec y (Qlt_le_trans _ _ _ Hx Hxy)) as [_ Hu].
  assert (H : (ilog2 x < ilog2 y + 1)%Z).
  { apply Qpower_lt_compat_l_inv with 2; [|reflexivity].
    eapply Qle_lt_trans; [exact Hl|]. eapply Qle_lt_trans; eauto. }
  lia.
Qed.

(** Rounding never crosses a binary64 value: a value below a
    representable bound rounds to a value below that bound. *)
Lemma round_pos_le (x B : Q) :
  0 < x -> x <= B -> round_pos B == B -> round_pos x <= B.
Proof.
  intros Hx HxB HB.
  pose proof (ilog2_mono x B Hx HxB) as Hlog.
  unfold round_pos in *.
  set (p := ulp_exp x). set (pB := ulp_exp B) in *.
  assert (Hp : (p <= pB)%Z) by (unfold p, pB, ulp_exp; lia).
  set (mB := round_half_even (B / 2 ^ pB)) in *.
  assert (HBp : B == inject_Z (mB * 2 ^ (pB - p)) * 2 ^ p).
  { rewrite <- HB at 1. rewrite inject_Z_mult, pow2_inject by lia.
    rewrite <- Qmult_assoc, <- Qpower_plus by apply two_nz.
    replace (pB - p + p)%Z with pB by lia. reflexivity. }
  apply Qle_trans with (inject_Z (mB * 2 ^ (pB - p)) * 2 ^ p); [|rewrite <- HBp; apply Qle_refl].
  apply Qmult_le_compat_r; [|apply Qlt_le_weak, pow2_pos].
  rewrite <- Zle_Qle. apply round_half_even_le.
  apply Qle_shift_div_r; [apply pow2_pos|].
  rewrite <- HBp. exact HxB.
Qed.

Lemma representable_pos (B : Q) :
  0 < B -> representable B -> round_pos B == B /\ overflows (round_pos B) = false.
Proof.
  intros HB. unfold representable, round.
  destruct B as [a b]. destruct a as [|a|a]; try (unfold Qlt in HB; simpl in HB; lia).
  cbn [Qnum]. destruct (overflows _); [discriminate|].
  intros H. split; [|reflexivity]. apply Qred_eq_iff. congruence.
Qed.

(** The rounding of a value in [[0, B]], for a positive binary64 value
    [B], is a finite value in [[0, B]]. *)
Lemma round_bounds (x B : Q) :
  0 <= x -> x <= B -> 0 < B -> representable B ->
  exists r, round x = Fin r /\ 0 <= r /\ r <= B.
Proof.
  intros Hx HxB HB Hrep.
  destruct (representable_pos B HB Hrep) as [HBr Hov].
  unfold round. destruct x as [a b]. destruct a as [|a|a].
  - exists 0. split; [reflexivity|]. split; [apply Qle_refl | apply Qlt_le_weak, HB].
  - cbn [Qnum]. 
    assert (Hpos : 0 < Z.pos a # b) by reflexivity.
    pose proof (round_pos_le _ _ Hpos HxB HBr) as Hle.
    destruct (overflows (round_pos (Z.pos a # b))) eqn:E.
    + exfalso. unfold overflows in *. apply Qle_bool_iff in E.
      assert (Hc : Qle_bool (2 ^ 1024) (round_pos B) = true).
      { apply Qle_bool_iff. rewrite HBr. eapply Qle_trans; eauto. }
      congruence.
    + eexists. split; [reflexivity|]. rewrite Qred_correct. split; [|exact Hle].
      apply round_pos_nonneg. apply Qlt_le_weak, Hpos.
  - exfalso. unfold Qle in Hx. simpl in Hx. lia.
Qed.

Lemma representable_1 : representable 1.
Proof. vm_compute. reflexivity. Qed.

Lemma representable_255 : representable (inject_Z 255).
Proof. vm_compute. reflexivity. Qed.

Lemma is_zero_false (q : Q) : 0 < q -> is_zero q = false.
Proof.
  destruct q as [a b]. unfold Qlt, is_zero. simpl. intros H.
  apply Z.eqb_neq. lia.
Qed.

Lemma Qfloor_nonneg (q : Q) : 0 <= q -> (0 <= Qfloor q)%Z.
Proof. intros H. change 0%Z with (Qfloor 0). now apply Qfloor_resp_le. Qed.

Local Close Scope Q_scope.
Local Open Scope Z_scope.

(** [hex_pos] never runs out of fuel in [hex_of_Z]: more fuel gives the
    same digits. *)
Lemma hex_pos_fuel (fuel : nat) : forall (z : Z) (extra : nat),
  0 <= z < 16 ^ Z.of_nat (S fuel) ->
  hex_pos (S fuel + extra) z = hex_pos (S fuel) z.
Proof.
  induction fuel as [|fuel IH]; intros z extra Hz.
  - cbn [Nat.add hex_pos]. destruct (Z.ltb_spec z 16); [reflexivity|].
    change (16 ^ Z.of_nat 1) with 16 in Hz. lia.
  - change (S (S fuel) + extra)%nat with (S (S fuel + extra)).
    cbn [hex_pos]. destruct (Z.ltb_spec z 16); [reflexivity|].
    rewrite IH; [reflexivity|].
    rewrite Nat2Z.inj_succ, Z.pow_succ_r in Hz by lia.
    split; [apply Z.div_pos; lia|].
    apply Z.div_lt_upper_bound; lia.
Qed.

Lemma hex_of_Z_fuel (z : Z) (extra : nat) :
  0 <= z ->
  hex_pos (S (Z.to_nat (Z.log2 z)) + extra) z = hex_of_Z z.
Proof.
  intros Hz. unfold hex_of_Z. apply hex_pos_fuel. split; [assumption|].
  destruct (Z.eq_dec z 0) as [->|Hne].
  - cbn. lia.
  - pose proof (Z.log2_spec z ltac:(lia)) as [_ Hu].
    pose proof (Z.log2_nonneg z) as Hl.
    rewrite Nat2Z.inj_succ, Z2Nat.id by assumption.
    eapply Z.lt_le_trans; [exact Hu|].
    apply Z.pow_le_mono_l. lia.
Qed.

End NumberFacts.

(** ** The number model agrees with hardware binary64 *)

Module Binary64Facts.
Import Number MosaicWorker Binary64.

(** For all palette sizes up to 32, the default 16 among them, the model
    and the hardware reduce every component to the same value. *)
Lemma reduce_matches_hardware :
  forallb (fun n => forallb (fun c => agree c n) (seqZ 0 256)) (seqZ 1 32) = true.
Proof. vm_compute. reflexivity. Qed.

(** On array indices the binary64 quotient, floored, is the integer
    quotient: what [getPixelMap] computes for [y]. *)
Lemma floor_quotient_matches :
  forallb (fun d => forallb (fun i => quotient_agrees i d) (seqZ 0 300)) (seqZ 1 24)
  = true.
Proof. vm_compute. reflexivity. Qed.

(** Inputs at which binary64 rounding makes the result differ from the
    one exact rational arithmetic would give: model and hardware agree
    there too. *)
Lemma reduce_matches_hardware_inexact :
  forallb (fun '(c, n) => agree c n && differs_from_exact c n)
    [(155, 51); (187, 75); (147, 85); (171, 85); (155, 102); (187, 150);
     (155, 153); (195, 153); (187, 165); (147, 170); (171, 170); (155, 204);
     (187, 285); (195, 289); (187, 300)]%Z = true
  /\ reduce (of_Z 155) (of_Z 51) = Int 150
  /\ reduce_exact 155 51 = 155%Z.
Proof. repeat split; vm_compute; reflexivity. Qed.

End Binary64Facts.

(** ** The colour quantizer *)

Module QuantizerFacts.
Import Number MosaicWorker Quantizer NumberFacts.
Local Open Scope Q_scope.

Lemma reduce_via_bucket (c : Z) (n : Q) :
  (0 <= c <= 255)%Z -> representable n -> 1 <= n ->
  exists k, (0 <= k <= Qfloor n)%Z /\ reduce (of_Z c) (Fin n) = bucket_value n k.
Proof.
  intros Hc Hrep Hn.
  assert (Hn0 : 0 < n) by (eapply Qlt_le_trans; [|exact Hn]; reflexivity).
  unfold reduce, of_Z at 1 2. unfold div at 2.
  rewrite (is_zero_false (inject_Z 255)) by reflexivity.
  destruct (round_bounds (inject_Z c / inject_Z 255) 1) as (a & Ha & Ha0 & Ha1).
  { apply Qle_shift_div_l; [reflexivity|]. rewrite Qmult_0_l.
    change 0 with (inject_Z 0). rewrite <- Zle_Qle. lia. }
  { apply Qle_shift_div_r; [reflexivity|]. rewrite Qmult_1_l.
    rewrite <- Zle_Qle. lia. }
  { reflexivity. }
  { exact representable_1. }
  rewrite Ha. unfold mul at 2.
  destruct (round_bounds (a * n) n) as (b & Hb & Hb0 & Hb1); try assumption.
  { apply Qmult_le_0_compat; [exact Ha0 | apply Qlt_le_weak, Hn0]. }
  { rewrite <- (Qmult_1_l n) at 2. apply Qmult_le_compat_r; [exact Ha1 | apply Qlt_le_weak, Hn0]. }
  rewrite Hb. cbn [Math_floor to_number].
  exists (Qfloor b). split; [|reflexivity].
  split; [apply Qfloor_nonneg, Hb0 | apply Qfloor_resp_le, Hb1].
Qed.

Lemma bucket_value_range (n : Q) (k : Z) :
  (0 <= k <= Qfloor n)%Z -> representable n -> 1 <= n ->
  exists v, bucket_value n k = Int v /\ (0 <= v <= 255)%Z.
Proof.
  intros Hk Hrep Hn.
  assert (Hn0 : 0 < n) by (eapply Qlt_le_trans; [|exact Hn]; reflexivity).
  assert (Hkn : inject_Z k <= n).
  { eapply Qle_trans; [|apply (Qfloor_le n)]. rewrite <- Zle_Qle. lia. }
  unfold bucket_value, of_Z. unfold div. rewrite (is_zero_false n Hn0).
  destruct (round_bounds (inject_Z k / n) 1) as (d & Hd & Hd0 & Hd1).
  { apply Qle_shift_div_l; [exact Hn0|]. rewrite Qmult_0_l.
    change 0 with (inject_Z 0). rewrite <- Zle_Qle. lia. }
  { apply Qle_shift_div_r; [exact Hn0|]. rewrite Qmult_1_l. exact Hkn. }
  { reflexivity. }
  { exact representable_1. }
  rewrite Hd. unfold mul.
  destruct (round_bounds (d * inject_Z 255) (inject_Z 255)) as (e & He & He0 & He1).
  { apply Qmult_le_0_compat; [exact Hd0 | discriminate]. }
  { rewrite <- (Qmult_1_l (inject_Z 255)) at 2.
    apply Qmult_le_compat_r; [exact Hd1 | discriminate]. }
  { reflexivity. }
  { exact representable_255. }
  rewrite He. cbn [Math_floor]. eexists. split; [reflexivity|].
  split; [apply Qfloor_nonneg, He0|].
  rewrite <- (Qfloor_Z 255). apply Qfloor_resp_le, He1.
Qed.

Lemma reduce_range (c : Z) (n : Q) :
  (0 <= c <= 255)%Z -> representable n -> 1 <= n ->
  exists v, reduce (of_Z c) (Fin n) = Int v /\ (0 <= v <= 255)%Z.
Proof.
  intros Hc Hrep Hn.
  destruct (reduce_via_bucket c n Hc Hrep Hn) as (k & Hk & ->).
  now apply bucket_value_range.
Qed.

Lemma convertToHex_table :
  forallb (fun v => String.eqb (convertToHex (Int v)) (hex2 v)
                    && all_lower_hex (hex2 v)
                    && Nat.eqb (String.length (hex2 v)) 2) components = true.
Proof. vm_compute. reflexivity. Qed.

Lemma convertToHex_hex2 (v : Z) :
  (0 <= v <= 255)%Z ->
  convertToHex (Int v) = hex2 v /\ all_lower_hex (hex2 v) = true
  /\ String.length (hex2 v) = 2%nat.
Proof.
  intros Hv.
  pose proof (proj1 (forallb_forall _ _) convertToHex_table v) as H.
  cbv beta in H. rewrite !andb_true_iff in H.
  destruct H as [[H1 H2] H3].
  { apply list_elem_of_In, elem_of_seqZ. lia. }
  split; [now apply String.eqb_eq|]. split; [exact H2|].
  now apply Nat.eqb_eq.
Qed.

Lemma all_lower_hex_app (s t : string) :
  all_lower_hex (s +:+ t) = all_lower_hex s && all_lower_hex t.
Proof.
  unfold all_lower_hex. induction s as [|a s IH]; [reflexivity|].
  change (String a s +:+ t)%string with (String a (s +:+ t)).
  cbn [String.list_ascii_of_string forallb].
  rewrite IH. now rewrite andb_assoc.
Qed.

Lemma length_string_app (s t : string) :
  String.length (s +:+ t) = (String.length s + String.length t)%nat.
Proof.
  induction s as [|a s IH]; [reflexivity|].
  change (String a s +:+ t)%string with (String a (s +:+ t)).
  cbn [String.length]. now rewrite IH.
Qed.

(** C1, as stated, fails for a palette of size one: components 0 and 255
    are reduced to two different values. *)
Lemma palette_bound_fails_at_1 :
  reduced_values (of_Z 1) = [Int 0; Int 255]
  /\ ~ (Z.of_nat (length (reduced_values (of_Z 1))) <= 1)%Z.
Proof. split; [vm_compute; reflexivity | vm_compute; intros H; apply H; reflexivity]. Qed.

Lemma reduce_in_buckets (n : Z) :
  (1 <= n)%Z -> representable (inject_Z n) ->
  forall c, (0 <= c <= 255)%Z ->
    reduce (of_Z c) (of_Z n) ∈ map (bucket_value (inject_Z n)) (seqZ 0 (n + 1)).
Proof.
  intros Hn Hrep c Hc.
  assert (HnQ : 1 <= inject_Z n) by (rewrite Zle_Qle in Hn; exact Hn).
  destruct (reduce_via_bucket c (inject_Z n)) as (k & Hk & Hred);
    [lia | assumption | assumption |].
  rewrite Qfloor_Z in Hk.
  apply list_elem_of_fmap. exists k. split; [exact Hred|].
  apply elem_of_seqZ. lia.
Qed.

Lemma distinct_images_incl (f : Z -> integral) (l : list integral) :
  (forall c, (0 <= c <= 255)%Z -> f c ∈ l) ->
  forall v, v ∈ remove_dups (map f components) -> v ∈ l.
Proof.
  intros H v Hv.
  apply elem_of_remove_dups, list_elem_of_fmap in Hv.
  destruct Hv as (c & -> & Hc). apply elem_of_seqZ in Hc. apply H. lia.
Qed.

Lemma distinct_images_length (f : Z -> integral) (l : list integral) :
  (forall c, (0 <= c <= 255)%Z -> f c ∈ l) ->
  (length (remove_dups (map f components)) <= length l)%nat.
Proof.
  intros H. apply submseteq_length, NoDup_submseteq; [apply NoDup_remove_dups|].
  now apply distinct_images_incl.
Qed.

(** C1 (amended): for every integer palette size [n >= 1] (a binary64
    value), the distinct reduced values one channel takes over the
    components [0 .. 255] number at most [n + 1]. *)
Theorem reduced_values_at_most_succ (n : Z) :
  (1 <= n)%Z -> representable (inject_Z n) ->
  (Z.of_nat (length (reduced_values (of_Z n))) <= n + 1)%Z.
Proof.
  intros Hn Hrep.
  pose proof (distinct_images_length (fun c => reduce (of_Z c) (of_Z n)) _
                (reduce_in_buckets n Hn Hrep)) as H.
  rewrite length_map, length_seqZ in H. unfold reduced_values. lia.
Qed.

Lemma reduced_values_at_most_succ_witness :
  (Z.of_nat (length (reduced_values (of_Z 16))) <= 16 + 1)%Z.
Proof.
  apply (reduced_values_at_most_succ 16); [lia | vm_compute; reflexivity].
Defined.

(** Read in exact arithmetic the formula does not give what the code
    computes: for [c = 155] and [n = 51] the product [155 / 255 * 51] is
    31 exactly, the binary64 product is just below 31, and the code
    reduces 155 to 150 where the exact formula gives 155. *)
Lemma rgbToHex_not_exact_at_51 :
  rgbToHex (of_Z 155) (of_Z 155) (of_Z 155) (of_Z 51) = "969696"%string
  /\ key_of (exact_component 155 51) (exact_component 155 51)
            (exact_component 155 51) = "9b9b9b"%string
  /\ rgbToHex (of_Z 155) (of_Z 155) (of_Z 155) (of_Z 51)
     <> key_of (exact_component 155 51) (exact_component 155 51)
               (exact_component 155 51).
Proof.
  assert (H1 : rgbToHex (of_Z 155) (of_Z 155) (of_Z 155) (of_Z 51) = "969696"%string)
    by (vm_compute; reflexivity).
  assert (H2 : key_of (exact_component 155 51) (exact_component 155 51)
                      (exact_component 155 51) = "9b9b9b"%string)
    by (vm_compute; reflexivity).
  split; [exact H1|]. split; [exact H2|]. rewrite H1, H2. discriminate.
Qed.

(** For whole palette sizes up to 50 no rounding shows: every component
    is reduced to the exact value of the formula. *)
Lemma exact_up_to_50 :
  forallb (fun m => forallb (exact_at m) components) (seqZ 1 50) = true.
Proof. vm_compute. reflexivity. Qed.

Lemma reduce_exact_up_to_50 (c m v : Z) :
  (0 <= c <= 255)%Z -> (1 <= m <= 50)%Z ->
  reduce (of_Z c) (Fin (inject_Z m)) = Int v ->
  v = exact_component c (inject_Z m).
Proof.
  intros Hc Hm Hv. pose proof exact_up_to_50 as Ht.
  rewrite forallb_forall in Ht.
  assert (Hmi : In m (seqZ 1 50)) by (apply list_elem_of_In, elem_of_seqZ; lia).
  specialize (Ht m Hmi). rewrite forallb_forall in Ht.
  assert (Hci : In c components)
    by (apply list_elem_of_In, elem_of_seqZ; lia).
  specialize (Ht c Hci). unfold exact_at in Ht.
  apply bool_decide_eq_true in Ht. unfold of_Z in Ht at 2.
  rewrite Hv in Ht. now injection Ht.
Qed.

(** C7: for components in [0, 255] and a finite palette size [n >= 1],
    each channel is reduced to the value of
    [Math.floor((Math.floor(c / 255 * n) / n) * 255)], evaluated with
    binary64 operations, an integer in [0, 255]; for a whole [n] up to
    50 that is the exact value of the formula.  The key is the three
    reduced values written as two zero-padded lowercase hexadecimal
    digits each, in R, G, B order: six lowercase hexadecimal digits. *)
Theorem rgbToHex_six_hex_digits (r g b : Z) (n : Q) :
  (0 <= r <= 255)%Z -> (0 <= g <= 255)%Z -> (0 <= b <= 255)%Z ->
  representable n -> 1 <= n ->
  exists r' g' b' : Z,
    binary64_component (of_Z r) (Fin n) = Int r' /\ (0 <= r' <= 255)%Z /\
    binary64_component (of_Z g) (Fin n) = Int g' /\ (0 <= g' <= 255)%Z /\
    binary64_component (of_Z b) (Fin n) = Int b' /\ (0 <= b' <= 255)%Z /\
    rgbToHex (of_Z r) (of_Z g) (of_Z b) (Fin n) = key_of r' g' b' /\
    String.length (rgbToHex (of_Z r) (of_Z g) (of_Z b) (Fin n)) = 6%nat /\
    all_lower_hex (rgbToHex (of_Z r) (of_Z g) (of_Z b) (Fin n)) = true /\
    (forall m : Z, n = inject_Z m -> (m <= 50)%Z ->
       r' = exact_component r n /\ g' = exact_component g n
       /\ b' = exact_component b n).
Proof.
  intros Hr Hg Hb Hrep Hn.
  destruct (reduce_range r n Hr Hrep Hn) as (r' & Er & Hr').
  destruct (reduce_range g n Hg Hrep Hn) as (g' & Eg & Hg').
  destruct (reduce_range b n Hb Hrep Hn) as (b' & Eb & Hb').
  destruct (convertToHex_hex2 r' Hr') as (Cr & Lr & Nr).
  destruct (convertToHex_hex2 g' Hg') as (Cg & Lg & Ng).
  destruct (convertToHex_hex2 b' Hb') as (Cb & Lb & Nb).
  exists r', g', b'.
  assert (Hkey : rgbToHex (of_Z r) (of_Z g) (of_Z b) (Fin n) = key_of r' g' b').
  { unfold rgbToHex, key_of. cbv zeta. rewrite Er, Eg, Eb, Cr, Cg, Cb. reflexivity. }
  repeat split; try assumption; try lia.
  - rewrite Hkey. unfold key_of. rewrite !length_string_app, Nr, Ng, Nb. reflexivity.
  - rewrite Hkey. unfold key_of. rewrite !all_lower_hex_app, Lr, Lg, Lb. reflexivity.
  - subst n. apply (reduce_exact_up_to_50 r m r'); [lia| |exact Er].
    split; [|lia]. rewrite Zle_Qle. exact Hn.
  - subst n. apply (reduce_exact_up_to_50 g m g'); [lia| |exact Eg].
    split; [|lia]. rewrite Zle_Qle. exact Hn.
  - subst n. apply (reduce_exact_up_to_50 b m b'); [lia| |exact Eb].
    split; [|lia]. rewrite Zle_Qle. exact Hn.
Qed.

Lemma rgbToHex_six_hex_digits_witness :
  exists r' g' b' : Z,
    binary64_component (of_Z 160) (Fin 16) = Int r' /\ (0 <= r' <= 255)%Z /\
    binary64_component (of_Z 255) (Fin 16) = Int g' /\ (0 <= g' <= 255)%Z /\
    binary64_component (of_Z 17) (Fin 16) = Int b' /\ (0 <= b' <= 255)%Z /\
    rgbToHex (of_Z 160) (of_Z 255) (of_Z 17) (Fin 16) = key_of r' g' b' /\
    String.length (rgbToHex (of_Z 160) (of_Z 255) (of_Z 17) (Fin 16)) = 6%nat /\
    all_lower_hex (rgbToHex (of_Z 160) (of_Z 255) (of_Z 17) (Fin 16)) = true /\
    (forall m : Z, 16 = inject_Z m -> (m <= 50)%Z ->
       r' = exact_component 160 16 /\ g' = exact_component 255 16
       /\ b' = exact_component 17 16).
Proof.
  apply (rgbToHex_six_hex_digits 160 255 17 16);
    try lia; [vm_compute; reflexivity | discriminate].
Defined.

End QuantizerFacts.

(** ** The bounded-concurrency loader *)

Module LoaderFacts.
Import Loader LoaderInvariants.
Local Open Scope Z_scope.

Lemma length_filter_remove (idx : Z) (p : list Z) :
  NoDup p -> idx ∈ p ->
  S (length (List.filter (fun j => negb (j =? idx)) p)) = length p.
Proof.
  induction p as [|a p IH]; intros Hnd Hin.
  - inversion Hin.
  - apply NoDup_cons in Hnd as [Ha Hnd]. cbn.
    destruct (Z.eqb_spec a idx) as [->|Hne]; cbn.
    + f_equal. clear IH Hin. induction p as [|b p IH]; [reflexivity|].
      apply not_elem_of_cons in Ha as [Hb Ha]. cbn.
      destruct (Z.eqb_spec b idx); [congruence|]. cbn. f_equal.
      apply IH; [assumption | now apply NoDup_cons in Hnd as [_ ?]].
    + f_equal. apply IH; [assumption|].
      apply elem_of_cons in Hin as [->|Hin]; [congruence | assumption].
Qed.

Lemma elem_of_filter_remove (idx j : Z) (p : list Z) :
  j ∈ List.filter (fun k => negb (k =? idx)) p <-> j ∈ p /\ j <> idx.
Proof.
  rewrite !list_elem_of_In, filter_In, negb_true_iff, Z.eqb_neq. tauto.
Qed.

Lemma is_pending_elem {R U} (idx : Z) (s : state R U) :
  is_pending idx s = true <-> idx ∈ pending s.
Proof.
  unfold is_pending. rewrite existsb_exists. split.
  - intros (j & Hj & Heq). apply Z.eqb_eq in Heq. subst. now apply list_elem_of_In.
  - intros H. exists idx. split; [now apply list_elem_of_In | apply Z.eqb_refl].
Qed.

(** A call that returns was made with a function as iterator, and
    leaves the state of [start]. *)
Lemma returns_start {A R E U : Type} (arr : list A) (limit : Z)
    (iterator : iterator_kind)
    (callback : option E -> option (list (option R)) -> U -> U)
    (u : U) (s0 : state R U) :
  downloadLimitedItems arr limit iterator callback u = Mosaic.Returns s0 ->
  iterator = IsFunction /\ s0 = start arr limit callback u.
Proof.
  unfold downloadLimitedItems. destruct iterator; [|discriminate].
  intros [= <-]. split; reflexivity.
Qed.

Section Invariants.
Context {A R E U : Type}.
Variable arr : list A.
Variable limit : Z.
Variable callback : option E -> option (list (option R)) -> U -> U.
Variable outcome : Z -> option E * R.

Local Abbreviation state := (state R U).
Local Abbreviation l := (l arr).
Local Abbreviation flush := (flush arr limit callback).
Local Abbreviation flush_loop := (flush_loop arr limit).
Local Abbreviation settle := (settle arr limit callback).
Local Abbreviation deliver := (deliver arr limit callback outcome).
Local Abbreviation run := (run arr limit callback outcome).
Local Abbreviation counts_ok := (counts_ok (R := R) (U := U) arr limit).

Lemma pending_le_queued (s : state) : counts_ok s -> Z.of_nat (length (pending s)) <= queued s.
Proof.
  intros []. destruct (aborted s) eqn:Ha.
  - specialize (pending_lt_queued0 eq_refl). lia.
  - specialize (pending_eq_queued0 eq_refl). lia.
Qed.

Lemma call_once_counts err res (s : state) : counts_ok s -> counts_ok (call_once callback err res s).
Proof.
  intros H. unfold call_once. destruct (called s); [exact H|].
  destruct H. constructor; cbn; assumption.
Qed.

Lemma push_counts (s : state) :
  counts_ok s -> queued s < limit -> i s <> l -> counts_ok (push s).
Proof.
  intros [] Hq Hi. constructor; cbn; try assumption; try lia.
  - rewrite started_fifo0, seqZ_app by lia. reflexivity.
  - apply NoDup_app. split; [assumption|]. split; [|apply NoDup_singleton].
    intros j Hj Hj'. apply list_elem_of_singleton in Hj'. subst.
    apply pending_started0 in Hj. lia.
  - intros j Hj. apply elem_of_app in Hj as [Hj|Hj].
    + apply pending_started0 in Hj. lia.
    + apply list_elem_of_singleton in Hj. lia.
  - intros Ha. rewrite length_app. cbn. specialize (pending_eq_queued0 Ha). lia.
  - intros Ha. rewrite length_app. cbn. specialize (pending_lt_queued0 Ha). lia.
Qed.

Lemma flush_loop_counts fuel (s : state) : counts_ok s -> counts_ok (flush_loop fuel s).
Proof.
  revert s. induction fuel as [|fuel IH]; intros s H; cbn; [exact H|].
  destruct (Z.ltb_spec (queued s) limit); [|exact H].
  destruct (aborted s); [exact H|].
  destruct (Z.eqb_spec (i s) l); [exact H|].
  apply IH, push_counts; assumption.
Qed.

Lemma flush_counts (s : state) : counts_ok s -> counts_ok (flush s).
Proof.
  intros H. unfold Loader.flush. destruct (complete s =? l).
  - now apply call_once_counts.
  - now apply flush_loop_counts.
Qed.

Lemma length_array_set (a : list (option R)) idx v :
  0 <= idx < Z.of_nat (length a) -> length (array_set a idx v) = length a.
Proof.
  intros H. unfold array_set. destruct (Z.ltb_spec idx (Z.of_nat (length a))); [|lia].
  apply length_insert.
Qed.

Lemma settle_counts idx err result (s : state) :
  counts_ok s -> idx ∈ pending s -> counts_ok (settle idx err result s).
Proof.
  intros H Hin. pose proof (pending_le_queued s H) as Hle. destruct H.
  pose proof (length_filter_remove idx (pending s) pending_nodup0 Hin) as Hlen.
  pose proof (pending_started0 idx Hin) as Hidx.
  unfold Loader.settle. destruct err as [e|].
  - unfold abort. apply call_once_counts. constructor; cbn; try assumption; try lia.
    + apply NoDup_ListNoDup, List.NoDup_filter, NoDup_ListNoDup; assumption.
    + intros j Hj. apply elem_of_filter_remove in Hj as [Hj _]. auto.
  - apply flush_counts. constructor; cbn; try assumption; try lia.
    + apply NoDup_ListNoDup, List.NoDup_filter, NoDup_ListNoDup; assumption.
    + intros j Hj. apply elem_of_filter_remove in Hj as [Hj _]. auto.
    + intros Ha. specialize (pending_eq_queued0 Ha). lia.
    + intros Ha. specialize (pending_lt_queued0 Ha). lia.
    + rewrite length_array_set; [assumption|]. unfold Loader.l in *. lia.
Qed.

Lemma init_counts (u : U) : counts_ok (start arr limit callback u).
Proof.
  apply flush_counts. constructor; cbn; try lia; try discriminate; try reflexivity.
  - unfold Loader.l. lia.
  - apply NoDup_nil_2.
  - intros j Hj. inversion Hj.
  - apply length_replicate.
Qed.


Lemma pushed_0 (s : state) : pushed 0 s = s.
Proof.
  destruct s. unfold pushed. cbn. rewrite !app_nil_r.
  f_equal; lia.
Qed.

Lemma pushed_push k (s : state) : 0 <= k -> pushed k (push s) = pushed (k + 1) s.
Proof.
  intros Hk. unfold pushed, push. cbn.
  rewrite (seqZ_cons (i s) (k + 1)) by lia.
  replace (Z.pred (k + 1)) with k by lia.
  replace (Z.succ (i s)) with (i s + 1) by lia.
  rewrite <- !app_assoc. cbn. f_equal; lia.
Qed.

Lemma flush_loop_pushed fuel (s : state) : exists k, 0 <= k /\ flush_loop fuel s = pushed k s.
Proof.
  revert s. induction fuel as [|fuel IH]; intros s; cbn.
  - exists 0. split; [lia | now rewrite pushed_0].
  - destruct (queued s <? limit); [|exists 0; split; [lia | now rewrite pushed_0]].
    destruct (aborted s); [exists 0; split; [lia | now rewrite pushed_0]|].
    destruct (i s =? l); [exists 0; split; [lia | now rewrite pushed_0]|].
    destruct (IH (push s)) as (k & Hk & ->).
    exists (k + 1). split; [lia | now apply pushed_push].
Qed.

(** The loop leaves only when a slot is missing, the batch is aborted or
    every item has been started: the fuel never cuts it short. *)
Lemma flush_loop_exit fuel (s : state) :
  l - i s <= Z.of_nat fuel -> i s <= l ->
  queued (flush_loop fuel s) < limit ->
  aborted (flush_loop fuel s) = true \/ i (flush_loop fuel s) = l.
Proof.
  revert s. induction fuel as [|fuel IH]; intros s Hf Hi; cbn.
  - intros _. right. lia.
  - destruct (Z.ltb_spec (queued s) limit); [|lia].
    destruct (aborted s) eqn:Ha; [now left|].
    destruct (Z.eqb_spec (i s) l); [now right|].
    apply IH; cbn; lia.
Qed.

Lemma flush_loop_aborted fuel (s : state) : aborted s = true -> flush_loop fuel s = s.
Proof.
  intros Ha. destruct fuel; cbn; [reflexivity|].
  rewrite Ha. now destruct (queued s <? limit).
Qed.

Lemma run_app (h1 h2 : list Z) (s : state) :
  run (h1 ++ h2) s = match run h1 s with Some s' => run h2 s' | None => None end.
Proof.
  revert s. induction h1 as [|j h1 IH]; intros s; cbn; [reflexivity|].
  destruct (deliver j s); [apply IH | reflexivity].
Qed.

Lemma deliver_counts idx (s s' : state) : counts_ok s -> deliver idx s = Some s' -> counts_ok s'.
Proof.
  unfold Loader.deliver. intros H. destruct (is_pending idx s) eqn:Hp; [|discriminate].
  intros [= <-]. apply settle_counts; [assumption|]. now apply is_pending_elem.
Qed.

Lemma run_counts schedule (s s' : state) : counts_ok s -> run schedule s = Some s' -> counts_ok s'.
Proof.
  revert s. induction schedule as [|j h IH]; intros s H; cbn.
  - now intros [= <-].
  - destruct (deliver j s) eqn:Hd; [|discriminate]. 
    apply IH. eapply deliver_counts; eauto.
Qed.

(** Every report brings the batch one step closer to its end: the
    fetches outstanding plus the items not started yet decrease by one. *)
Lemma settle_measure idx err result (s : state) :
  counts_ok s -> idx ∈ pending s ->
  l - i (settle idx err result s) + Z.of_nat (length (pending (settle idx err result s)))
  = l - i s + Z.of_nat (length (pending s)) - 1.
Proof.
  intros Hc Hin. destruct Hc.
  pose proof (length_filter_remove idx (pending s) pending_nodup0 Hin) as Hlen.
  unfold Loader.settle. destruct err as [e|].
  - unfold abort, call_once. cbn. destruct (called s); cbn; lia.
  - unfold Loader.flush, call_once. cbn. destruct (_ =? _).
    + destruct (called s); cbn; lia.
    + match goal with |- context [Loader.flush_loop _ _ ?f ?x] =>
        destruct (flush_loop_pushed f x) as (k & Hk & ->) end.
      cbn. rewrite length_app, length_seqZ. lia.
Qed.

(** Whatever has happened, the fetches outstanding can all report: the
    run goes on until none is left. *)
Lemma run_completes (s : state) :
  counts_ok s ->
  exists rest s', run rest s = Some s' /\ pending s' = [].
Proof.
  intros Hc.
  assert (Hm : exists n : nat, l - i s + Z.of_nat (length (pending s)) = Z.of_nat n).
  { exists (Z.to_nat (l - i s + Z.of_nat (length (pending s)))).
    destruct Hc. lia. }
  destruct Hm as [n Hn]. revert s Hc Hn.
  induction n as [|n IH]; intros s Hc Hn.
  - exists [], s. split; [reflexivity|].
    destruct Hc. destruct (pending s); [reflexivity | cbn in Hn; lia].
  - destruct (pending s) as [|idx p] eqn:Hp.
    + exists [], s. split; [reflexivity | assumption].
    + assert (Hin : idx ∈ pending s) by (rewrite Hp; left).
      pose proof (settle_measure idx (fst (outcome idx)) (snd (outcome idx)) s Hc Hin) as Hms.
      destruct (IH (settle idx (fst (outcome idx)) (snd (outcome idx)) s))
        as (rest & s' & Hrun & Hdone).
      * now apply settle_counts.
      * rewrite Hp in Hms. cbn [length] in Hms, Hn. lia.
      * exists (idx :: rest), s'. split; [|assumption].
        cbn. unfold Loader.deliver.
        rewrite (proj2 (is_pending_elem idx s) Hin). exact Hrun.
Qed.

Lemma run_in_range schedule (s s' : state) :
  counts_ok s -> run schedule s = Some s' ->
  forall j, j ∈ schedule -> 0 <= j < l.
Proof.
  revert s. induction schedule as [|idx h IH]; intros s H Hrun j Hj.
  - inversion Hj.
  - cbn in Hrun. destruct (deliver idx s) as [s1|] eqn:Hd; [|discriminate].
    apply elem_of_cons in Hj as [->|Hj].
    + unfold Loader.deliver in Hd.
      destruct (is_pending idx s) eqn:Hp; [|discriminate].
      apply is_pending_elem in Hp. destruct H.
      specialize (pending_started0 idx Hp). lia.
    + apply (IH s1); [eapply deliver_counts; eauto | assumption | assumption].
Qed.

(** The dispatch loop tops the slots up. *)
Lemma flush_topped_up (s : state) :
  i s <= l -> (complete s = l -> aborted s = false -> i s = l) ->
  topped_up arr limit (flush s).
Proof.
  intros Hi Hdone. unfold topped_up, Loader.flush.
  destruct (Z.eqb_spec (complete s) l) as [Hl|Hl].
  - unfold call_once. destruct (called s); cbn; auto.
  - destruct (flush_loop_pushed (Z.to_nat (l - i s)) s) as (k & Hk & Hpushed).
    pose proof (flush_loop_exit (Z.to_nat (l - i s)) s ltac:(lia) Hi) as Hexit.
    rewrite Hpushed in Hexit. rewrite Hpushed. cbn in *. intros Ha.
    destruct (Z.lt_ge_cases (queued s + k) limit) as [Hlim|Hlim]; [|right; lia].
    destruct (Hexit Hlim) as [Habs|Hil]; [congruence | left; exact Hil].
Qed.

Lemma settle_topped_up idx err result (s : state) :
  counts_ok s -> idx ∈ pending s ->
  topped_up arr limit (settle idx err result s).
Proof.
  intros Hc Hin. destruct Hc. unfold Loader.settle. destruct err as [e|].
  - unfold topped_up, abort, call_once. cbn. destruct (called s); cbn; discriminate.
  - apply flush_topped_up; cbn; [lia|].
    intros Hl Ha. specialize (pending_eq_queued0 Ha).
    destruct (pending s); [inversion Hin|]. cbn in *. lia.
Qed.

Lemma init_topped_up (u : U) :
  topped_up arr limit (start arr limit callback u).
Proof.
  unfold start. apply flush_topped_up; cbn; unfold Loader.l; lia.
Qed.

Lemma run_topped_up schedule : forall (s s' : state),
  counts_ok s -> topped_up arr limit s ->
  run schedule s = Some s' -> topped_up arr limit s'.
Proof.
  induction schedule as [|idx h IH]; intros s s' Hc Ht Hrun; cbn in Hrun.
  - now injection Hrun as <-.
  - unfold Loader.deliver in Hrun.
    destruct (is_pending idx s) eqn:Hp; [|discriminate].
    apply is_pending_elem in Hp.
    apply (IH _ s' (settle_counts idx _ _ s Hc Hp)
             (settle_topped_up idx _ _ s Hc Hp) Hrun).
Qed.

End Invariants.

(** Replaces the dispatch loop in the goal by the [k] pushes it makes,
    and records why it stopped. *)
Ltac loop_as_pushed arr limit k Hk Hexit :=
  match goal with
  | |- context [Loader.flush_loop _ _ ?f ?x] =>
      let fuel := fresh "fuel" in
      let s1 := fresh "s1" in
      let Hp := fresh "Hpushed" in
      set (fuel := f); set (s1 := x);
      destruct (flush_loop_pushed arr limit fuel s1) as (k & Hk & Hp);
      pose proof (flush_loop_exit arr limit fuel s1) as Hexit;
      rewrite Hp in Hexit; rewrite Hp; clear Hp;
      subst s1 fuel; unfold pushed in *; cbn in *
  end.

(** *** The final callback, observed through the calls it receives *)

Section Callback.
Context {A R E : Type}.
Variable arr : list A.
Variable limit : Z.
Variable outcome : Z -> option E * R.

Local Abbreviation state := (state R (call_log R E)).
Local Abbreviation l := (l arr).
Local Abbreviation callback := (record_call (R := R) (E := E)).
Local Abbreviation flush := (flush arr limit callback).
Local Abbreviation flush_loop := (flush_loop (U := call_log R E) arr limit).
Local Abbreviation settle := (settle arr limit callback).
Local Abbreviation deliver := (deliver arr limit callback outcome).
Local Abbreviation run := (run arr limit callback outcome).
Local Abbreviation counts_ok := (counts_ok (R := R) (U := call_log R E) arr limit).
Local Abbreviation quiet := (quiet arr limit).
Local Abbreviation recorded := (recorded outcome).
Local Abbreviation succeeded := (succeeded outcome).
Local Abbreviation init := (start arr limit callback []).

Lemma pending_not_complete (s : state) idx :
  counts_ok s -> aborted s = false -> idx ∈ pending s -> complete s < i s.
Proof.
  intros [] Ha Hin. specialize (pending_eq_queued0 Ha).
  destruct (pending s); [inversion Hin|]. cbn in *. lia.
Qed.

Lemma lookup_array_set_eq (a : list (option R)) idx v :
  0 <= idx < Z.of_nat (length a) -> array_set a idx v !! Z.to_nat idx = Some v.
Proof.
  intros H. unfold array_set. destruct (Z.ltb_spec idx (Z.of_nat (length a))); [|lia].
  apply list_lookup_insert_eq. lia.
Qed.

Lemma lookup_array_set_ne (a : list (option R)) idx j v :
  0 <= idx < Z.of_nat (length a) -> 0 <= j -> j <> idx ->
  array_set a idx v !! Z.to_nat j = a !! Z.to_nat j.
Proof.
  intros H Hj Hne. unfold array_set. destruct (Z.ltb_spec idx (Z.of_nat (length a))); [|lia].
  apply list_lookup_insert_ne. lia.
Qed.

Lemma settle_ok hist idx (s : state) :
  counts_ok s -> quiet s -> recorded hist s ->
  idx ∈ pending s -> succeeded idx ->
  quiet (settle idx None (snd (outcome idx)) s)
  /\ recorded (hist ++ [idx]) (settle idx None (snd (outcome idx)) s).
Proof.
  intros Hc Hq Hr Hin Hok.
  pose proof (pending_not_complete s idx Hc (q_aborted s Hq) Hin) as Hlt.
  pose proof Hc as [].
  pose proof (pending_started0 idx Hin) as Hidx.
  destruct (q_waiting s Hq ltac:(lia)) as [Hcalled Huser].
  pose proof (rec_complete hist s Hr) as Hcomp.
  assert (Hlen : Z.of_nat (length (hist ++ [idx])) = Z.of_nat (length hist) + 1)
    by (rewrite length_app; cbn; lia).
  assert (Hres : forall j, 0 <= j -> j ∈ hist ++ [idx] -> succeeded j ->
      array_set (results s) idx (Some (snd (outcome idx))) !! Z.to_nat j
      = Some (Some (snd (outcome j)))).
  { pose proof (rec_results hist s Hr) as Hold.
    intros j Hj Hjin Hjok. destruct (Z.eq_dec j idx) as [->|Hne].
    - apply lookup_array_set_eq. unfold Loader.l in *. lia.
    - rewrite lookup_array_set_ne by (unfold Loader.l in *; lia).
      apply Hold; try assumption.
      apply elem_of_app in Hjin as [?|Hjin]; [assumption|].
      apply list_elem_of_singleton in Hjin. congruence. }
  assert (Hcov : forall j, 0 <= j < i s ->
     j ∈ hist ++ [idx] \/ j ∈ List.filter (fun k => negb (k =? idx)) (pending s)).
  { intros j Hj. destruct (Z.eq_dec j idx) as [->|Hne].
    - left. apply elem_of_app. right. now apply list_elem_of_singleton.
    - destruct (rec_covered hist s Hr j Hj) as [?|?].
      + left. apply elem_of_app. now left.
      + right. now apply elem_of_filter_remove. }
  unfold Loader.settle.
  match goal with |- context [Loader.flush _ _ _ ?x] => set (s1 := x) end.
  assert (Hq1 : quiet (flush s1) /\ recorded (hist ++ [idx]) (flush s1)); [|exact Hq1].
  unfold Loader.flush.
  destruct (Z.eqb_spec (complete s1) l) as [Hl|Hl]; subst s1; cbn in Hl.
  - unfold call_once. cbn [called]. rewrite Hcalled.
    split; constructor; cbn; try assumption; try lia.
    + apply (q_aborted s Hq).
    + intros _. rewrite Huser. split; reflexivity.
  - loop_as_pushed arr limit k Hk Hexit.
    specialize (Hexit ltac:(lia) ltac:(lia)).
    split; constructor; cbn; try assumption; try lia.
    + apply (q_aborted s Hq).
    + destruct (Z.lt_ge_cases (queued s - 1 + k) limit) as [Hlim|Hlim]; [|right; lia].
      destruct (Hexit Hlim) as [Habs|Hil]; [|left; exact Hil].
      rewrite (q_aborted s Hq) in Habs. discriminate.
    + intros _. split; assumption.
    + intros j Hj. destruct (Z.lt_ge_cases j (i s)) as [Hlo|Hhi].
      * destruct (Hcov j ltac:(lia)) as [?|?]; [now left|].
        right. apply elem_of_app. now left.
      * right. apply elem_of_app. right. apply elem_of_seqZ. lia.
Qed.

Lemma init_ok : quiet init /\ recorded [] init.
Proof.
  unfold start.
  match goal with |- context [Loader.flush _ _ _ ?x] => set (s0 := x) end.
  unfold Loader.flush.
  destruct (Z.eqb_spec (complete s0) l) as [Hl|Hl]; subst s0; cbn in Hl.
  - unfold call_once. cbn.
    split; constructor; cbn; try lia; try (intros; split; reflexivity); try reflexivity.
    intros j _ Hj. inversion Hj.
  - loop_as_pushed arr limit k Hk Hexit.
    specialize (Hexit ltac:(lia) ltac:(unfold Loader.l; lia)).
    split; constructor; cbn; try lia; try (intros; split; reflexivity); try reflexivity.
    + intros j _ Hj. inversion Hj.
    + intros j Hj. right. apply elem_of_seqZ. lia.
Qed.

Lemma run_ok schedule : forall h0 (s0 s : state),
  counts_ok s0 -> quiet s0 -> recorded h0 s0 ->
  run schedule s0 = Some s ->
  (forall j, j ∈ schedule -> succeeded j) ->
  counts_ok s /\ quiet s /\ recorded (h0 ++ schedule) s.
Proof.
  induction schedule as [|idx h IH]; intros h0 s0 s Hc Hq Hr Hrun Hok.
  - cbn in Hrun. injection Hrun as <-. now rewrite app_nil_r.
  - cbn in Hrun. unfold Loader.deliver in Hrun.
    destruct (is_pending idx s0) eqn:Hp; [|discriminate].
    apply is_pending_elem in Hp.
    assert (Hs : succeeded idx) by (apply Hok; left).
    rewrite Hs in Hrun.
    destruct (settle_ok h0 idx s0 Hc Hq Hr Hp Hs) as [Hq' Hr'].
    replace (h0 ++ idx :: h) with ((h0 ++ [idx]) ++ h) by (now rewrite <- app_assoc).
    apply (IH (h0 ++ [idx]) (settle idx None (snd (outcome idx)) s0) s);
      try assumption.
    + now apply settle_counts.
    + intros j Hj. apply Hok. now right.
Qed.

Lemma settle_stuck e started0 idx err result (s : state) :
  stuck e started0 s -> stuck e started0 (settle idx err result s).
Proof.
  intros []. unfold Loader.settle. destruct err as [e'|].
  - unfold abort, call_once. cbn. rewrite st_called0.
    constructor; cbn; first [assumption | reflexivity].
  - unfold Loader.flush, call_once. cbn.
    destruct (complete s + 1 =? l).
    + rewrite st_called0. constructor; cbn; first [assumption | reflexivity].
    + rewrite flush_loop_aborted by assumption.
      constructor; cbn; first [assumption | reflexivity].
Qed.

Lemma run_stuck e started0 schedule : forall (s s' : state),
  stuck e started0 s -> run schedule s = Some s' -> stuck e started0 s'.
Proof.
  induction schedule as [|idx h IH]; intros s s' Hs Hrun; cbn in Hrun.
  - now injection Hrun as <-.
  - unfold Loader.deliver in Hrun. destruct (is_pending idx s); [|discriminate].
    eapply IH; [|exact Hrun]. now apply settle_stuck.
Qed.

Lemma first_failure e idx result (s : state) :
  counts_ok s -> quiet s -> idx ∈ pending s ->
  stuck e (started s) (settle idx (Some e) result s).
Proof.
  intros Hc Hq Hin.
  pose proof (pending_not_complete s idx Hc (q_aborted s Hq) Hin) as Hlt.
  destruct Hc. destruct (q_waiting s Hq ltac:(lia)) as [Hcalled Huser].
  unfold Loader.settle, abort, call_once. cbn. rewrite Hcalled.
  constructor; cbn; try reflexivity. now rewrite Huser.
Qed.

(** Everything a run with a first failure at [j] leads to. *)
Lemma run_failure h1 j h2 e (s1 s : state) :
  run h1 init = Some s1 ->
  (forall k, k ∈ h1 -> succeeded k) ->
  fst (outcome j) = Some e ->
  run (h1 ++ j :: h2) init = Some s ->
  stuck e (started s1) s.
Proof.
  intros Hrun1 Hok He Hrun.
  rewrite run_app, Hrun1 in Hrun. cbn in Hrun.
  unfold Loader.deliver in Hrun.
  destruct (is_pending j s1) eqn:Hp; [|discriminate].
  apply is_pending_elem in Hp. rewrite He in Hrun.
  destruct init_ok as [Hq0 Hr0].
  destruct (run_ok h1 [] init s1 (init_counts arr limit record_call []) Hq0 Hr0 Hrun1 Hok)
    as (Hc1 & Hq1 & _).
  eapply run_stuck; [|exact Hrun]. now apply first_failure.
Qed.

Lemma results_full (hist : list Z) (s : state) :
  counts_ok s -> recorded hist s ->
  (forall j, 0 <= j < l -> succeeded j /\ j ∈ hist) ->
  results s = map (fun j => Some (snd (outcome j))) (seqZ 0 l).
Proof.
  intros Hc Hr Hall. destruct Hc.
  apply list_eq. intros n.
  destruct (Nat.lt_ge_cases n (length arr)) as [Hn|Hn].
  - rewrite list_lookup_fmap, lookup_seqZ_lt by (unfold Loader.l; lia).
    cbn. rewrite Z.add_0_l.
    destruct (Hall (Z.of_nat n)) as [Hok Hin]; [unfold Loader.l; lia|].
    rewrite <- (Nat2Z.id n) at 1.
    apply (rec_results hist s Hr); [lia | assumption | assumption].
  - rewrite lookup_ge_None_2 by lia.
    rewrite list_lookup_fmap, lookup_seqZ_ge by (unfold Loader.l; lia). reflexivity.
Qed.

(** When every item has reported success, [complete] has reached [l]. *)
Lemma all_reported_complete (hist : list Z) (s : state) :
  counts_ok s -> recorded hist s ->
  (forall j, 0 <= j < l -> j ∈ hist) ->
  complete s = l.
Proof.
  intros Hc Hr Hall.
  pose proof (pending_le_queued arr limit s Hc) as Hle.
  pose proof (rec_complete hist s Hr) as Hcomp. destruct Hc.
  assert (Hsub : seqZ 0 l ⊆+ hist).
  { apply NoDup_submseteq; [apply NoDup_seqZ|].
    intros j Hj. apply elem_of_seqZ in Hj. apply Hall. lia. }
  apply submseteq_length in Hsub. rewrite length_seqZ in Hsub.
  unfold Loader.l in *. lia.
Qed.

(** As long as [once] has not let a call through, the callback has not
    run. *)
Lemma settle_uncalled idx err result (s : state) :
  (called s = false -> user s = []) ->
  called (settle idx err result s) = false -> user (settle idx err result s) = [].
Proof.
  intros H0. unfold Loader.settle. destruct err.
  - unfold abort, call_once. cbn. destruct (called s); cbn; [auto | discriminate].
  - unfold Loader.flush, call_once. cbn. destruct (_ =? _).
    + destruct (called s); cbn; [auto | discriminate].
    + match goal with |- context [Loader.flush_loop _ _ ?f ?x] =>
        destruct (flush_loop_pushed arr limit f x) as (k & _ & ->) end.
      cbn. exact H0.
Qed.

Lemma run_uncalled schedule : forall (s0 s : state),
  (called s0 = false -> user s0 = []) ->
  run schedule s0 = Some s -> called s = false -> user s = [].
Proof.
  induction schedule as [|idx h IH]; intros s0 s H0 Hrun; cbn in Hrun.
  - now injection Hrun as <-.
  - unfold Loader.deliver in Hrun. destruct (is_pending idx s0); [|discriminate].
    apply (IH _ s (settle_uncalled idx _ _ s0 H0) Hrun).
Qed.

(** C3: after a call that returns, a batch of [k] items whose fetches
    have all reported success has invoked the final callback exactly once, with a null error and
    the [k] results in input order; a batch with a failing fetch invokes
    it exactly once, with the first error and no results array; a later
    attempt to invoke it does nothing.  With at least one slot, every
    run can go on until no fetch is outstanding, and unless a fetch
    fails every item has then reported. *)
Theorem final_callback_once (iterator : iterator_kind) (schedule : list Z)
    (s0 s : state) :
  downloadLimitedItems arr limit iterator callback [] = Mosaic.Returns s0 ->
  run schedule s0 = Some s ->
  ((forall j, 0 <= j < l -> succeeded j /\ j ∈ schedule) ->
     user s = [(None, Some (map (fun j => Some (snd (outcome j))) (seqZ 0 l)))]
     /\ length (map (fun j => Some (snd (outcome j))) (seqZ 0 l)) = length arr)
  /\ (forall h1 j h2 e,
        schedule = h1 ++ j :: h2 ->
        (forall k, k ∈ h1 -> succeeded k) -> fst (outcome j) = Some e ->
        user s = [(Some e, None)])
  /\ (user s <> [] -> forall err res, call_once callback err res s = s)
  /\ (1 <= limit ->
      exists rest s',
        run rest s = Some s' /\ pending s' = []
        /\ ((forall j, 0 <= j < l -> succeeded j) ->
            forall j, 0 <= j < l -> j ∈ schedule ++ rest)).
Proof.
  intros Hcall Hrun. apply returns_start in Hcall as [_ ->].
  pose proof (init_counts arr limit (record_call (R := R) (E := E)) []) as Hc0.
  destruct init_ok as [Hq0 Hr0].
  assert (Hcalled : user s <> [] -> called s = true).
  { intros Hne. destruct (called s) eqn:Hcs; [reflexivity|]. exfalso. apply Hne.
    apply (run_uncalled schedule init s); try assumption.
    destruct (Z.eq_dec (complete init) l) as [He|He].
    - destruct (q_done init Hq0 He) as [-> _]. discriminate.
    - intros _. apply (q_waiting init Hq0 He). }
  split; [|split; [|split]].
  - intros Hall.
    assert (Hsched : forall j, j ∈ schedule -> succeeded j).
    { intros j Hj. apply Hall. eapply run_in_range; eauto. }
    destruct (run_ok schedule [] init s Hc0 Hq0 Hr0 Hrun Hsched) as (Hc & Hq & Hr).
    cbn in Hr.
    assert (Hl : complete s = l).
    { apply (all_reported_complete schedule s Hc Hr). intros j Hj. now apply Hall. }
    destruct (q_done s Hq Hl) as [_ Hu].
    rewrite Hu, (results_full schedule s Hc Hr Hall).
    split; [reflexivity|].
    rewrite length_map, length_seqZ. unfold Loader.l. lia.
  - intros h1 j h2 e -> Hok He.
    destruct (run h1 init) as [s1|] eqn:Hrun1.
    + apply (st_user e (started s1) s). eapply run_failure; eauto.
    + rewrite run_app, Hrun1 in Hrun. discriminate.
  - intros Hne err res. unfold call_once. now rewrite (Hcalled Hne).
  - intros Hlimit.
    destruct (run_completes arr limit callback outcome s
                (run_counts arr limit callback outcome schedule init s Hc0 Hrun))
      as (rest & s' & Hrest & Hdone).
    exists rest, s'. split; [assumption|]. split; [assumption|].
    intros Hok j Hj.
    assert (Hfull : run (schedule ++ rest) init = Some s')
      by (now rewrite run_app, Hrun).
    assert (Hsched : forall k, k ∈ schedule ++ rest -> succeeded k).
    { intros k Hk. apply Hok. eapply run_in_range; eauto. }
    destruct (run_ok (schedule ++ rest) [] init s' Hc0 Hq0 Hr0 Hfull Hsched)
      as (Hc & Hq & Hr).
    cbn in Hr. pose proof Hc as [].
    specialize (pending_eq_queued0 (q_aborted s' Hq)).
    rewrite Hdone in pending_eq_queued0. cbn in pending_eq_queued0.
    assert (Hi : i s' = l) by (destruct (q_progress s' Hq); lia).
    destruct (rec_covered (schedule ++ rest) s' Hr j ltac:(lia)) as [Hin|Hin];
      [assumption|].
    rewrite Hdone in Hin. inversion Hin.
Qed.

(** C5: after a call that returns, once a fetch has reported the first
    error, the iterator is never
    called again, whatever the fetches still outstanding report; the
    final callback has received that error, and only that: no results
    array is ever handed over. *)
Theorem fail_fast (iterator : iterator_kind) (h1 h2 : list Z) (j : Z) (e : E)
    (s0 s1 s : state) :
  downloadLimitedItems arr limit iterator callback [] = Mosaic.Returns s0 ->
  run h1 s0 = Some s1 ->
  (forall k, k ∈ h1 -> succeeded k) ->
  fst (outcome j) = Some e ->
  run (h1 ++ j :: h2) s0 = Some s ->
  started s = started s1
  /\ aborted s = true
  /\ user s = [(Some e, None)].
Proof.
  intros Hcall Hrun1 Hok He Hrun. apply returns_start in Hcall as [_ ->].
  destruct (run_failure h1 j h2 e s1 s Hrun1 Hok He Hrun).
  repeat split; assumption.
Qed.

End Callback.

(** C4: after a call that returns, at every point of every run the
    fetches started and not yet
    reported number at most [limit]; the iterator has been called for
    the items of [arr] in input order, for indices [0, 1, ..., i - 1] in
    that order; and unless the batch is aborted, every item has been
    started or [limit] fetches are outstanding. *)
Theorem in_flight_bounded {A R E U : Type} (arr : list A) (limit : Z)
    (iterator : iterator_kind)
    (callback : option E -> option (list (option R)) -> U -> U)
    (outcome : Z -> option E * R) (user0 : U)
    (schedule : list Z) (s0 s : state R U) :
  0 <= limit ->
  downloadLimitedItems arr limit iterator callback user0 = Mosaic.Returns s0 ->
  run arr limit callback outcome schedule s0 = Some s ->
  Z.of_nat (length (pending s)) <= limit
  /\ started s = seqZ 0 (i s)
  /\ 0 <= i s <= l arr
  /\ (aborted s = false ->
      i s = l arr \/ Z.of_nat (length (pending s)) = limit).
Proof.
  intros Hl Hcall Hrun. apply returns_start in Hcall as [_ ->].
  pose proof (run_counts arr limit callback outcome schedule _ s
                (init_counts arr limit callback user0) Hrun) as Hc.
  pose proof (run_topped_up arr limit callback outcome schedule _ s
                (init_counts arr limit callback user0)
                (init_topped_up arr limit callback user0) Hrun) as Ht.
  pose proof (pending_le_queued arr limit s Hc) as Hle.
  destruct Hc. specialize (queued_le_limit0 Hl).
  repeat split; try assumption; try lia.
  intros Ha. specialize (pending_eq_queued0 Ha).
  destruct (Ht Ha); [now left | right; lia].
Qed.

(** C10: called with an empty array and a function as iterator,
    [downloadLimitedItems] never calls the iterator and invokes the
    final callback once, at once, with a null error and an empty results
    array; no fetch is outstanding, so nothing can happen afterwards.
    Called with anything else as iterator it throws, and the callback
    is not invoked. *)
Theorem empty_batch {A R E : Type} (limit : Z) (outcome : Z -> option E * R) :
  (exists s,
     downloadLimitedItems (A := A) [] limit IsFunction record_call []
     = Mosaic.Returns s
     /\ started s = []
     /\ pending s = []
     /\ user s = [(None, Some [])]
     /\ forall idx, deliver (A := A) [] limit record_call outcome idx s = None)
  /\ downloadLimitedItems (A := A) (R := R) (E := E) [] limit NotFunction
       record_call []
     = Mosaic.Throws "Error"
         "Iterator function must be passed as the third argument".
Proof.
  split; [|reflexivity].
  exists (start (A := A) [] limit record_call []). repeat split.
Qed.

(** With an empty array and an iterator that is not a function, the
    call does not return: the final callback is not invoked with
    [(null, [])]. *)
Lemma empty_batch_needs_iterator :
  downloadLimitedItems (A := string) (R := Z) (E := string) [] 16 NotFunction
    record_call []
  = Mosaic.Throws "Error"
      "Iterator function must be passed as the third argument"
  /\ ~ exists s,
        downloadLimitedItems (A := string) (R := Z) (E := string) [] 16
          NotFunction record_call [] = Mosaic.Returns s
        /\ user s = [(None, Some [])].
Proof.
  split; [reflexivity|]. intros (s & Hcall & _). discriminate Hcall.
Qed.

End LoaderFacts.

Module LoaderWitnesses.
Import Loader LoaderFacts Examples.
Local Open Scope Z_scope.

Lemma final_callback_once_witness :
  exists s0 s,
    downloadLimitedItems keys 2 IsFunction record_call [] = Mosaic.Returns s0
    /\ run keys 2 record_call all_succeed [1; 0; 2] s0 = Some s
    /\ user s = [(None, Some [Some 0; Some 10; Some 20])].
Proof.
  eexists. eexists. split; [reflexivity|]. split; [vm_compute; reflexivity|].
  destruct (final_callback_once keys 2 all_succeed IsFunction [1; 0; 2] _ _
              eq_refl eq_refl) as (H & _).
  apply H. intros j Hj. split; [reflexivity|].
  assert (Hcases : j = 0 \/ j = 1 \/ j = 2) by (unfold l, keys in Hj; cbn in Hj; lia).
  destruct Hcases as [-> | [-> | ->] ]; apply list_elem_of_In; simpl; auto.
Defined.

Lemma fail_fast_witness :
  exists s0 s1 s,
    downloadLimitedItems keys 2 IsFunction record_call [] = Mosaic.Returns s0
    /\ run keys 2 record_call second_fails [0] s0 = Some s1
    /\ run keys 2 record_call second_fails ([0] ++ 1 :: [2]) s0 = Some s
    /\ started s = started s1
    /\ aborted s = true
    /\ user s = [(Some "404"%string, None)].
Proof.
  eexists. eexists. eexists. split; [reflexivity|].
  split; [vm_compute; reflexivity|].
  split; [vm_compute; reflexivity|].
  apply (fail_fast keys 2 second_fails IsFunction [0] [2] 1 "404"%string
           (start keys 2 record_call [])).
  - reflexivity.
  - reflexivity.
  - intros k Hk. apply list_elem_of_singleton in Hk. subst. reflexivity.
  - reflexivity.
  - reflexivity.
Defined.

Lemma in_flight_bounded_witness :
  exists s0 s,
    downloadLimitedItems keys 2 IsFunction record_call [] = Mosaic.Returns s0
    /\ run keys 2 record_call all_succeed [1; 0] s0 = Some s
    /\ Z.of_nat (length (pending s)) <= 2
    /\ started s = seqZ 0 (i s)
    /\ 0 <= i s <= l keys
    /\ (aborted s = false ->
        i s = l keys \/ Z.of_nat (length (pending s)) = 2).
Proof.
  eexists. eexists. split; [reflexivity|]. split; [vm_compute; reflexivity|].
  apply (in_flight_bounded keys 2 IsFunction record_call all_succeed [] [1; 0]
           (start keys 2 record_call []));
    [lia | reflexivity | reflexivity].
Defined.

End LoaderWitnesses.

(** ** What the loader does to its owner's state *)

Module LoaderUser.
Import Loader LoaderFacts.
Local Open Scope Z_scope.
Section User.
Context {A R E U : Type}.
Variable arr : list A.
Variable limit : Z.
Variable callback : option E -> option (list (option R)) -> U -> U.
Variable P : U -> Prop.
Hypothesis callback_P : forall err res u, P u -> P (callback err res u).

Lemma call_once_user err res (s : state R U) :
  P (user s) -> P (user (call_once callback err res s)).
Proof. unfold call_once. destruct (called s); cbn; auto. Qed.

Lemma flush_user (s : state R U) :
  P (user s) -> P (user (flush arr limit callback s)).
Proof.
  intros H. unfold flush. destruct (_ =? _).
  - now apply call_once_user.
  - destruct (flush_loop_pushed arr limit (Z.to_nat (l arr - i s)) s) as (k & _ & ->).
    exact H.
Qed.

Lemma settle_user idx err result (s : state R U) :
  P (user s) -> P (user (settle arr limit callback idx err result s)).
Proof.
  intros H. unfold settle. destruct err.
  - unfold abort. now apply call_once_user.
  - now apply flush_user.
Qed.

Lemma init_user (u : U) : P u -> P (user (start arr limit callback u)).
Proof. intros H. unfold start. now apply flush_user. Qed.
End User.
End LoaderUser.


(** ** The pixel map, the key list and the colour map *)

Module MosaicFacts.
Import Number Mosaic Grid.
Local Open Scope Z_scope.

(** *** The pixel map *)

Section PixelMap.
Variable base : nat.
Variables gx gy : Z.
Hypothesis gx_pos : 1 <= gx.

Lemma lookup_map_from {A B} (f : nat -> A -> Z -> B) (l : list A) :
  forall b idx n,
    map_from f b l idx !! n = (fun v => f (b + n)%nat v (idx + Z.of_nat n)) <$> l !! n.
Proof.
  induction l as [|v l IH]; intros b idx n; [reflexivity|].
  destruct n as [|n]; cbn.
  - do 2 f_equal; lia.
  - rewrite IH. destruct (l !! n); cbn; [|reflexivity].
    do 2 f_equal; lia.
Qed.

Lemma length_map_from {A B} (f : nat -> A -> Z -> B) (l : list A) :
  forall b idx, length (map_from f b l idx) = length l.
Proof. induction l as [|v l IH]; intros b idx; cbn; [reflexivity | now rewrite IH]. Qed.

Lemma coordinates_getPixelMap (tileColors : list string) :
  map coordinates (getPixelMap base (gx, gy) tileColors)
  = map (cell_of_index gx) (seqZ 0 (Z.of_nat (length tileColors))).
Proof.
  apply list_eq. intros n. unfold getPixelMap.
  rewrite !list_lookup_fmap, lookup_map_from.
  destruct (tileColors !! n) as [c|] eqn:Hc; cbn.
  - apply lookup_lt_Some in Hc. rewrite lookup_seqZ_lt by lia. cbn.
    unfold coordinates, cell_of_index. cbn. rewrite Z.rem_mod_nonneg by lia.
    reflexivity.
  - apply lookup_ge_None in Hc. rewrite lookup_seqZ_ge by lia. reflexivity.
Qed.

Lemma cell_of_index_row (k j : Z) :
  0 <= j < gx -> cell_of_index gx (gx * k + j) = (1 + j, 1 + k).
Proof.
  intros Hj. unfold cell_of_index.
  replace (gx * k + j) with (j + k * gx) by lia. f_equal.
  - rewrite Z_mod_plus_full, Z.mod_small by lia. lia.
  - rewrite Z_div_plus_full by lia. rewrite Z.div_small by lia. lia.
Qed.

Lemma row_major_indices (k : nat) :
  row_major gx (Z.of_nat k) = map (cell_of_index gx) (seqZ 0 (gx * Z.of_nat k)).
Proof.
  unfold row_major. induction k as [|k IH].
  - rewrite Z.mul_0_r. reflexivity.
  - rewrite seqZ_S, flat_map_app, IH. cbn [flat_map]. rewrite app_nil_r.
    replace (gx * Z.of_nat (S k)) with (gx * Z.of_nat k + gx) by lia.
    rewrite seqZ_app, map_app by lia. f_equal.
    rewrite Z.add_0_l.
    rewrite <- (Z.add_0_r (gx * Z.of_nat k)) at 1.
    rewrite <- (fmap_add_seqZ (gx * Z.of_nat k) 0 gx).
    rewrite <- (Z.add_0_r 1) at 1.
    rewrite <- (fmap_add_seqZ 1 0 gx).
    rewrite <- !list_fmap_compose.
    apply list_fmap_ext. intros n j Hj. cbn.
    apply lookup_seqZ in Hj. rewrite cell_of_index_row by lia. reflexivity.
Qed.

Lemma cell_of_index_inj (n m : Z) :
  cell_of_index gx n = cell_of_index gx m -> n = m.
Proof.
  unfold cell_of_index. intros [= Hm Hd].
  rewrite (Z.div_mod n gx), (Z.div_mod m gx) by lia.
  replace (n / gx) with (m / gx) by lia.
  replace (n mod gx) with (m mod gx) by lia. reflexivity.
Qed.

Lemma elem_of_row_major (a b : Z) :
  (a, b) ∈ row_major gx gy <-> 1 <= a <= gx /\ 1 <= b <= gy.
Proof.
  unfold row_major. rewrite list_elem_of_In, in_flat_map. split.
  - intros (row & Hrow & Hin). apply list_elem_of_In, elem_of_seqZ in Hrow.
    apply list_elem_of_In, list_elem_of_fmap in Hin.
    destruct Hin as (col & [= -> ->] & Hcol). apply elem_of_seqZ in Hcol. lia.
  - intros [Ha Hb]. exists b. split.
    + apply list_elem_of_In, elem_of_seqZ. lia.
    + apply list_elem_of_In, list_elem_of_fmap. exists a.
      split; [reflexivity | apply elem_of_seqZ; lia].
Qed.

(** C9: for a [gx] by [gy] grid and a colour list of [gx * gy] keys,
    the pixel map has [gx * gy] entries; entry [n] carries key [n] at
    [x = n mod gx + 1], [y = floor (n / gx) + 1]; the coordinates are the
    cells of the grid in row-major order, each cell of
    [[1, gx] x [1, gy]] exactly once. *)
Theorem pixel_map_complete (tileColors : list string) :
  1 <= gy -> Z.of_nat (length tileColors) = gx * gy ->
  Z.of_nat (length (getPixelMap base (gx, gy) tileColors)) = gx * gy
  /\ (forall (n : nat) c, tileColors !! n = Some c ->
        exists p, getPixelMap base (gx, gy) tileColors !! n = Some p
                  /\ color p = c
                  /\ x p = Z.of_nat n mod gx + 1
                  /\ y p = Z.of_nat n / gx + 1)
  /\ map coordinates (getPixelMap base (gx, gy) tileColors) = row_major gx gy
  /\ NoDup (map coordinates (getPixelMap base (gx, gy) tileColors))
  /\ (forall a b, (a, b) ∈ map coordinates (getPixelMap base (gx, gy) tileColors)
                  <-> 1 <= a <= gx /\ 1 <= b <= gy).
Proof.
  intros Hgy Hlen.
  assert (Hrm : map coordinates (getPixelMap base (gx, gy) tileColors) = row_major gx gy).
  { rewrite coordinates_getPixelMap, Hlen.
    rewrite <- (Z2Nat.id gy) by lia. symmetry. apply row_major_indices. }
  split; [|split; [|split; [|split]]].
  - unfold getPixelMap. rewrite length_map_from. exact Hlen.
  - intros n c Hc. unfold getPixelMap. rewrite lookup_map_from, Hc. cbn.
    eexists. split; [reflexivity|]. cbn.
    rewrite Z.rem_mod_nonneg by lia. repeat split.
  - exact Hrm.
  - rewrite coordinates_getPixelMap.
    apply NoDup_fmap_2_strong; [|apply NoDup_seqZ].
    intros n m _ _. apply cell_of_index_inj.
  - intros a b. rewrite Hrm. apply elem_of_row_major.
Qed.

End PixelMap.

(** *** The keys handed to the loader *)

Lemma indexOf_from_skip {A} `{StrictEq A} (pre rest : list A) (v : A) (from : Z) :
  (forall u, u ∈ pre -> strict_eq u v = false) ->
  indexOf_from (pre ++ rest) v from
  = indexOf_from rest v (from + Z.of_nat (length pre)).
Proof.
  revert from. induction pre as [|u pre IH]; intros from Hpre; cbn.
  - f_equal. lia.
  - rewrite (Hpre u) by apply list_elem_of_here.
    rewrite IH by (intros w Hw; apply Hpre; now apply list_elem_of_further).
    f_equal. lia.
Qed.

(** On objects with pairwise different addresses [filter (unique)]
    keeps every element. *)
Lemma filter_unique_distinct (pre rest : list pixel) :
  NoDup (map addr (pre ++ rest)) ->
  filter_from unique (pre ++ rest) rest (Z.of_nat (length pre)) = rest.
Proof.
  revert pre. induction rest as [|v rest IH]; intros pre Hnd; [reflexivity|].
  cbn [filter_from].
  assert (Hu : unique v (Z.of_nat (length pre)) (pre ++ v :: rest) = true).
  { unfold unique, indexOf. rewrite indexOf_from_skip.
    - cbn. unfold strict_eq at 1, pixel_strict_eq. rewrite Nat.eqb_refl. lia.
    - intros u Hu. unfold strict_eq, pixel_strict_eq. apply Nat.eqb_neq.
      rewrite map_app in Hnd. apply NoDup_app in Hnd as (_ & Hdisj & _).
      intros Heq. apply (Hdisj (addr u)).
      + apply list_elem_of_fmap. now exists u.
      + rewrite Heq. cbn. left. }
  rewrite Hu. f_equal.
  replace (Z.of_nat (length pre) + 1) with (Z.of_nat (length (pre ++ [v])))
    by (rewrite length_app; cbn; lia).
  replace (pre ++ v :: rest) with ((pre ++ [v]) ++ rest) in *
    by (now rewrite <- app_assoc).
  now apply IH.
Qed.

Lemma array_filter_unique_distinct (pixelMap : list pixel) :
  NoDup (map addr pixelMap) -> array_filter unique pixelMap = pixelMap.
Proof. intros H. exact (filter_unique_distinct [] pixelMap H). Qed.

Lemma addr_map_from {A} (f : nat -> A -> Z -> pixel) (l : list A) :
  (forall a v idx, addr (f a v idx) = a) ->
  forall b idx, map addr (map_from f b l idx) = seq b (length l).
Proof.
  intros Hf. induction l as [|v l IH]; intros b idx; cbn; [reflexivity|].
  now rewrite Hf, IH.
Qed.

Lemma color_map_from (f : nat -> string -> Z -> pixel) (l : list string) :
  (forall a v idx, color (f a v idx) = v) ->
  forall b idx, map color (map_from f b l idx) = l.
Proof.
  intros Hf. induction l as [|v l IH]; intros b idx; cbn; [reflexivity|].
  now rewrite Hf, IH.
Qed.

(** C2 fails: [filter (unique)] runs on the pixel objects, which are all
    different objects, so the key list handed to the loader is the whole
    colour map, duplicates included. *)
Theorem uniqueColors_keeps_duplicates (base : nat) (size : Z * Z) (tileColors : list string) :
  uniqueColors (getPixelMap base size tileColors) = tileColors.
Proof.
  unfold uniqueColors, uniqueMap.
  rewrite array_filter_unique_distinct.
  - apply color_map_from. reflexivity.
  - unfold getPixelMap. rewrite addr_map_from by reflexivity.
    apply NoDup_ListNoDup, seq_NoDup.
Qed.

(** A two-cell image of one colour: the loader is handed the same key
    twice.  On the keys themselves [filter (unique)] does remove the
    duplicate. *)
Lemma uniqueColors_of_two_equal_cells :
  uniqueColors (getPixelMap 0 (2, 1) ["000000"; "000000"]%string)
    = ["000000"; "000000"]%string
  /\ array_filter unique ["000000"; "000000"]%string = ["000000"]%string.
Proof. split; reflexivity. Qed.

(** *** The colour map *)

(** C8 fails: without [window.Worker] the call throws, because the
    hoisted [var MosaicWorker] hides the constructor; with it, the call
    yields the worker's colour map. *)
Theorem getColorMap_fallback_throws (img : list Z) (colors : number) :
  getColorMap true img colors = Returns (MosaicWorker.getColorMap img colors)
  /\ getColorMap false img colors
     = Throws "TypeError" "MosaicWorker is not a constructor".
Proof. split; reflexivity. Qed.

Lemma pixel_map_complete_witness :
  Z.of_nat (length (getPixelMap 0 (2, 2) ["000000"; "ffffff"; "000000"; "a0ff10"]%string)) = 2 * 2
  /\ map coordinates (getPixelMap 0 (2, 2) ["000000"; "ffffff"; "000000"; "a0ff10"]%string)
     = [(1, 1); (2, 1); (1, 2); (2, 2)].
Proof.
  destruct (pixel_map_complete 0 2 2 ltac:(lia)
              ["000000"; "ffffff"; "000000"; "a0ff10"]%string ltac:(lia) eq_refl)
    as (H1 & _ & H3 & _).
  split; [exact H1 | exact H3].
Defined.

End MosaicFacts.

(** ** Progressive row rendering *)

Module CreateFacts.
Import Mosaic Create CreateInvariants LoaderUser.
Local Open Scope Z_scope.

Section Render.
Variable pixelMap : list pixel.
Variable offset : Q * Q.

Local Abbreviation renderCompleteRows := (renderCompleteRows pixelMap offset).
Local Abbreviation renderCompleteRows_fuel := (renderCompleteRows_fuel pixelMap offset).
Local Abbreviation drawImage := (drawImage offset).
Local Abbreviation rendered := (rendered pixelMap).
Local Abbreviation rows_after := (rows_after pixelMap).

Lemma entry_drawImage tiles (row : list pixel) :
  map entry (map (drawImage tiles) row) = row.
Proof. induction row as [|p row IH]; cbn; [reflexivity | now rewrite IH]. Qed.

Lemma downloaded_loaded tiles (row : list pixel) :
  currentRowDownloaded row tiles = true ->
  Forall loaded (map (drawImage tiles) row).
Proof.
  unfold currentRowDownloaded. rewrite negb_true_iff. intros H.
  apply Forall_forall. intros d Hd. apply list_elem_of_fmap in Hd as (p & -> & Hp).
  assert (Hn : negb (match tiles !! color p with
                     | Some t => complete t | None => false end) = false).
  { destruct (negb _) eqn:E; [|reflexivity].
    rewrite <- H. symmetry. apply existsb_exists. exists p.
    split; [now apply list_elem_of_In | exact E]. }
  apply negb_false_iff in Hn. unfold loaded. cbn.
  destruct (tiles !! color p) as [t|]; [|discriminate]. now exists t.
Qed.

Lemma render_step_rendered (c : canvas) :
  rendered c ->
  currentRowDownloaded (currentRow c) (completeTiles c) = true ->
  rendered {| currentRowIndex := currentRowIndex c + 1;
              currentRow := findCurrentRow pixelMap (currentRowIndex c + 1);
              completeTiles := completeTiles c;
              drawn := drawn c ++ map (drawImage (completeTiles c)) (currentRow c) |}.
Proof.
  intros [] Hd. constructor; cbn.
  - reflexivity.
  - lia.
  - rewrite map_app, entry_drawImage, drawn_rows0, row_current0.
    replace (currentRowIndex c + 1 - 1) with (currentRowIndex c - 1 + 1) by lia.
    rewrite seqZ_app, flat_map_app by lia.
    rewrite (seqZ_cons _ 1), (seqZ_nil _ (Z.pred 1)) by lia. cbn [flat_map]. rewrite app_nil_r.
    do 2 f_equal. lia.
  - apply Forall_app. split; [assumption | now apply downloaded_loaded].
Qed.

Lemma renderCompleteRows_fuel_rendered fuel : forall c c',
  rendered c -> renderCompleteRows_fuel fuel c = Some c' -> rendered c'.
Proof.
  induction fuel as [|fuel IH]; intros c c' Hc; cbn; [discriminate|].
  destruct (currentRowDownloaded (currentRow c) (completeTiles c)) eqn:Hd; cbn.
  - destruct (Nat.eqb _ 0).
    + intros [= <-]. now apply render_step_rendered.
    + apply IH. now apply render_step_rendered.
  - now intros [= <-].
Qed.

Lemma renderCompleteRows_rendered (c : canvas) :
  rendered c -> rendered (renderCompleteRows c).
Proof.
  intros Hc. unfold Create.renderCompleteRows.
  destruct (renderCompleteRows_fuel _ c) eqn:E; [|exact Hc].
  eapply renderCompleteRows_fuel_rendered; eauto.
Qed.

Lemma filter_after_next (pm : list pixel) (index : Z) :
  (length (List.filter (fun q => (index + 1 <? y q)%Z) pm)
   <= length (List.filter (fun q => (index <? y q)%Z) pm))%nat.
Proof.
  induction pm as [|q pm IH]; cbn; [lia|].
  destruct (Z.ltb_spec (index + 1) (y q)); destruct (Z.ltb_spec index (y q));
    cbn; lia.
Qed.

Lemma rows_after_next (index : Z) :
  findCurrentRow pixelMap (index + 1) <> [] ->
  (rows_after (index + 1) < rows_after index)%nat.
Proof.
  unfold rows_after, findCurrentRow. induction pixelMap as [|p pm IH]; cbn.
  - congruence.
  - intros Hne. destruct (Z.eqb_spec (y p) (index + 1)) as [Hy|Hy].
    + destruct (Z.ltb_spec (index + 1) (y p)); [lia|].
      destruct (Z.ltb_spec index (y p)); [|lia]. cbn.
      pose proof (filter_after_next pm index). lia.
    + specialize (IH Hne).
      destruct (Z.ltb_spec (index + 1) (y p)); destruct (Z.ltb_spec index (y p));
        cbn; lia.
Qed.

Lemma rows_after_le (index : Z) : (rows_after index <= length pixelMap)%nat.
Proof. unfold rows_after. apply filter_length_le. Qed.

(** [renderCompleteRows] returns: it calls itself at most once per
    entry of the pixel map. *)
Lemma renderCompleteRows_fuel_enough fuel : forall c,
  (rows_after (currentRowIndex c) < fuel)%nat ->
  is_Some (renderCompleteRows_fuel fuel c).
Proof.
  induction fuel as [|fuel IH]; intros c Hf; [lia|]. cbn.
  destruct (currentRowDownloaded (currentRow c) (completeTiles c)); cbn; [|eauto].
  destruct (findCurrentRow pixelMap (currentRowIndex c + 1)) as [|p row] eqn:Hrow;
    cbn; [eauto|].
  rewrite <- Hrow. apply IH. cbn.
  pose proof (rows_after_next (currentRowIndex c)) as Hn.
  rewrite Hrow in Hn. specialize (Hn ltac:(discriminate)). lia.
Qed.

Lemma renderCompleteRows_returns (c : canvas) :
  renderCompleteRows_fuel (S (length pixelMap)) c = Some (renderCompleteRows c).
Proof.
  unfold Create.renderCompleteRows.
  destruct (renderCompleteRows_fuel_enough (S (length pixelMap)) c) as [c' ->];
    [|reflexivity].
  pose proof (rows_after_le (currentRowIndex c)). lia.
Qed.

Lemma seqZ_sorted (a n : Z) : StronglySorted Z.le (seqZ a n).
Proof.
  destruct (Z.le_gt_cases n 0) as [Hn|Hn]; [rewrite seqZ_nil by lia; constructor|].
  rewrite <- (Z2Nat.id n) by lia. revert a. clear Hn.
  induction (Z.to_nat n) as [|k IH]; intros a; [constructor|].
  rewrite seqZ_cons by lia. replace (Z.pred (Z.of_nat (S k))) with (Z.of_nat k) by lia.
  constructor; [apply IH|].
  apply Forall_forall. intros j Hj. apply elem_of_seqZ in Hj. lia.
Qed.

Lemma y_findCurrentRow (index : Z) (p : pixel) :
  p ∈ findCurrentRow pixelMap index <-> p ∈ pixelMap /\ y p = index.
Proof.
  unfold findCurrentRow. rewrite !list_elem_of_In, filter_In, Z.eqb_eq. tauto.
Qed.

Lemma elem_of_rows (rows : list Z) (p : pixel) :
  p ∈ flat_map (findCurrentRow pixelMap) rows <-> p ∈ pixelMap /\ y p ∈ rows.
Proof.
  rewrite list_elem_of_In, in_flat_map. split.
  - intros (r & Hr & Hp). apply list_elem_of_In in Hr, Hp.
    apply y_findCurrentRow in Hp as [Hp ->]. auto.
  - intros [Hp Hy]. exists (y p). split; [now apply list_elem_of_In|].
    apply list_elem_of_In, y_findCurrentRow. auto.
Qed.

Lemma rows_sorted (rows : list Z) :
  StronglySorted Z.le rows ->
  StronglySorted Z.le (map y (flat_map (findCurrentRow pixelMap) rows)).
Proof.
  induction rows as [|r rows IH]; intros Hs; [constructor|].
  apply StronglySorted_cons in Hs as [Hr Hs]. cbn [flat_map].
  rewrite map_app. apply StronglySorted_app_2.
  - intros y1 y2 H1 H2.
    apply list_elem_of_fmap in H1 as (p1 & -> & H1).
    apply list_elem_of_fmap in H2 as (p2 & -> & H2).
    apply y_findCurrentRow in H1 as [_ ->].
    apply elem_of_rows in H2 as [_ H2].
    rewrite Forall_forall in Hr. now apply Hr.
  - assert (Hall : Forall (fun v => v = r) (map y (findCurrentRow pixelMap r))).
    { apply Forall_forall. intros v Hv.
      apply list_elem_of_fmap in Hv as (p & -> & Hp).
      now apply y_findCurrentRow in Hp as [_ ->]. }
    induction Hall as [|v l -> Hl IHl]; constructor; [assumption|].
    eapply Forall_impl; [exact Hl|]. intros w ->. lia.
  - now apply IH.
Qed.

Lemma drawn_sorted (c : canvas) :
  rendered c -> StronglySorted Z.le (map y (map entry (drawn c))).
Proof. intros []. rewrite drawn_rows0. apply rows_sorted, seqZ_sorted. Qed.

Lemma drawn_after_earlier_rows (c : canvas) before d after p :
  rendered c -> drawn c = before ++ d :: after ->
  p ∈ pixelMap -> 1 <= y p < y (entry d) ->
  p ∈ map entry before.
Proof.
  intros Hc Hd Hp Hy. pose proof (drawn_sorted c Hc) as Hs. destruct Hc.
  rewrite Hd, !map_app in Hs. cbn [map] in Hs.
  assert (Hin : p ∈ map entry (drawn c)).
  { rewrite drawn_rows0. apply elem_of_rows. split; [assumption|].
    assert (Hdin : entry d ∈ map entry (drawn c)).
    { rewrite Hd, map_app. apply elem_of_app. right. left. }
    rewrite drawn_rows0 in Hdin. apply elem_of_rows in Hdin as [_ Hdy].
    apply elem_of_seqZ in Hdy. apply elem_of_seqZ. lia. }
  rewrite Hd, map_app in Hin. cbn [map] in Hin.
  apply elem_of_app in Hin as [Hin|Hin]; [assumption|]. exfalso.
  apply elem_of_cons in Hin as [->|Hin]; [lia|].
  apply StronglySorted_app_1_r, StronglySorted_cons in Hs as [Hall _].
  rewrite Forall_forall in Hall. specialize (Hall (y p)).
  enough (Hle : y (entry d) <= y p) by lia.
  apply Hall. apply list_elem_of_fmap. now exists p.
Qed.

Lemma initial_canvas_rendered : rendered (initial_canvas pixelMap).
Proof. constructor; cbn; first [reflexivity | lia | constructor]. Qed.

Lemma set_tile_rendered color img (c : canvas) :
  rendered c -> rendered (set_tile color img c).
Proof. intros []. constructor; assumption. Qed.

Local Abbreviation run := (Create.run pixelMap offset).
Local Abbreviation create :=
  (Loader.start (uniqueColors pixelMap) 16 (final_callback pixelMap offset)
     (initial_canvas pixelMap)).

(** The call of [downloadLimitedItems] in [create] returns. *)
Lemma create_returns (s0 : pass) :
  Create.create pixelMap offset = Returns s0 <-> s0 = create.
Proof.
  unfold Create.create, Loader.downloadLimitedItems.
  split; [now intros [= <-] | now intros ->].
Qed.

Lemma user_with_user (f : canvas -> canvas) (s : pass) :
  Loader.user (with_user f s) = f (Loader.user s).
Proof. reflexivity. Qed.

Lemma create_rendered : rendered (Loader.user create).
Proof.
  apply (init_user _ _ _ rendered).
  - intros err res u. apply renderCompleteRows_rendered.
  - apply initial_canvas_rendered.
Qed.

Lemma onload_rendered idx color (s : pass) :
  rendered (Loader.user s) -> rendered (Loader.user (onload pixelMap offset idx color s)).
Proof.
  intros H. unfold onload. cbv zeta. rewrite user_with_user.
  apply renderCompleteRows_rendered.
  apply (settle_user _ _ _ rendered).
  - intros err res u. apply renderCompleteRows_rendered.
  - rewrite user_with_user. now apply set_tile_rendered.
Qed.

Lemma run_rendered schedule : forall (s s' : pass),
  rendered (Loader.user s) -> run schedule s = Some s' -> rendered (Loader.user s').
Proof.
  induction schedule as [|idx h IH]; intros s s' H; cbn.
  - now intros [= <-].
  - unfold load. destruct (Loader.is_pending idx s); [|discriminate].
    destruct (uniqueColors pixelMap !! Z.to_nat idx) as [color|]; [|discriminate].
    apply IH. now apply onload_rendered.
Qed.

(** *** Every fetch that is outstanding can load *)

Local Abbreviation counts_ok :=
  (LoaderInvariants.counts_ok (R := image) (U := canvas) (uniqueColors pixelMap) 16).

Lemma with_user_counts (f : canvas -> canvas) (s : pass) :
  counts_ok s -> counts_ok (with_user f s).
Proof. intros []. constructor; assumption. Qed.

Lemma onload_counts idx color (s : pass) :
  counts_ok s -> idx ∈ Loader.pending s ->
  counts_ok (onload pixelMap offset idx color s).
Proof.
  intros Hc Hin. unfold onload. cbv zeta.
  apply with_user_counts, LoaderFacts.settle_counts.
  - now apply with_user_counts.
  - exact Hin.
Qed.

Lemma create_run_counts schedule : forall (s s' : pass),
  counts_ok s -> run schedule s = Some s' -> counts_ok s'.
Proof.
  induction schedule as [|idx h IH]; intros s s' Hc; cbn.
  - now intros [= <-].
  - unfold load. destruct (Loader.is_pending idx s) eqn:Hp; [|discriminate].
    apply LoaderFacts.is_pending_elem in Hp.
    destruct (uniqueColors pixelMap !! Z.to_nat idx) as [color|]; [|discriminate].
    apply IH. now apply onload_counts.
Qed.

Lemma load_accepts (schedule : list Z) (s : pass) idx :
  run schedule create = Some s -> idx ∈ Loader.pending s ->
  is_Some (load pixelMap offset idx s).
Proof.
  intros Hrun Hin.
  pose proof (create_run_counts schedule create s
                (LoaderFacts.init_counts _ _ _ _) Hrun) as Hc.
  unfold load. rewrite (proj2 (LoaderFacts.is_pending_elem idx s) Hin).
  pose proof (LoaderInvariants.pending_started _ _ s Hc idx Hin) as Hidx.
  pose proof (LoaderInvariants.i_range _ _ s Hc) as Hi.
  destruct (lookup_lt_is_Some_2 (uniqueColors pixelMap) (Z.to_nat idx)) as [color ->].
  - unfold Loader.l in *. lia.
  - eauto.
Qed.

(** C6: once the call of [downloadLimitedItems] has returned, in
    whatever order the images load, the tiles are drawn in
    non-decreasing row order; every tile drawn comes from an image that
    was loaded when it was drawn; and when an entry of a row is drawn,
    every entry of every earlier row has been drawn before it. *)
Theorem rows_drawn_in_order (schedule : list Z) (s0 s : pass) :
  Create.create pixelMap offset = Returns s0 ->
  run schedule s0 = Some s ->
  StronglySorted Z.le (map (fun d => y (entry d)) (drawn (Loader.user s)))
  /\ Forall loaded (drawn (Loader.user s))
  /\ (forall before d after p,
        drawn (Loader.user s) = before ++ d :: after ->
        p ∈ pixelMap -> 1 <= y p < y (entry d) ->
        p ∈ map entry before)
  /\ map entry (drawn (Loader.user s))
     = flat_map (findCurrentRow pixelMap)
         (seqZ 1 (currentRowIndex (Loader.user s) - 1)).
Proof.
  intros Hcall Hrun. apply create_returns in Hcall as ->.
  pose proof (run_rendered schedule create s create_rendered Hrun) as Hr.
  split; [|split; [|split]].
  - pose proof (drawn_sorted _ Hr) as Hs. now rewrite map_map in Hs.
  - apply (drawn_loaded _ Hr).
  - intros before d after p. now apply drawn_after_earlier_rows.
  - apply (drawn_rows _ Hr).
Qed.

End Render.
End CreateFacts.

Module CreateWitnesses.
Import Mosaic Create CreateInvariants CreateFacts Examples.
Local Open Scope Z_scope.

Lemma rows_drawn_in_order_witness :
  exists s0 s,
    create sample_map (0, 0)%Q = Returns s0
    /\ run sample_map (0, 0)%Q [2; 1; 3; 0] s0 = Some s
    /\ map (fun d => y (entry d)) (drawn (Loader.user s)) = [1; 1; 2; 2]
    /\ StronglySorted Z.le (map (fun d => y (entry d)) (drawn (Loader.user s)))
    /\ Forall loaded (drawn (Loader.user s)).
Proof.
  eexists. eexists. split; [reflexivity|].
  split; [vm_compute; reflexivity|].
  match goal with |- context [Loader.user ?s'] =>
    assert (Hrun : run sample_map (0, 0)%Q [2; 1; 3; 0]
                     (Loader.start (uniqueColors sample_map) 16
                        (final_callback sample_map (0, 0)%Q)
                        (initial_canvas sample_map)) = Some s')
      by (vm_compute; reflexivity)
  end.
  split; [vm_compute; reflexivity|].
  destruct (rows_drawn_in_order sample_map (0, 0)%Q [2; 1; 3; 0] _ _ eq_refl Hrun)
    as (H1 & H2 & _).
  split; [exact H1 | exact H2].
Defined.

End CreateWitnesses.
(** ** Rounding to binary64: equal rationals, monotonicity, dyadics *)

Module RoundingFacts.
Import Number NumberFacts.
Local Open Scope Q_scope.

Lemma ilog2_unique (x : Q) (e : Z) :
  0 < x -> 2 ^ e <= x -> x < 2 ^ (e + 1) -> ilog2 x = e.
Proof.
  intros Hx Hl Hu. destruct (ilog2_spec x Hx) as [Hl' Hu'].
  assert (H1 : (e < ilog2 x + 1)%Z).
  { apply Qpower_lt_compat_l_inv with 2; [|reflexivity].
    eapply Qle_lt_trans; eauto. }
  assert (H2 : (ilog2 x < e + 1)%Z).
  { apply Qpower_lt_compat_l_inv with 2; [|reflexivity].
    eapply Qle_lt_trans; eauto. }
  lia.
Qed.

Lemma ilog2_Qeq (x y : Q) : x == y -> 0 < x -> ilog2 x = ilog2 y.
Proof.
  intros Heq Hx. symmetry. apply ilog2_unique.
  - now rewrite <- Heq.
  - rewrite <- Heq. apply (ilog2_spec x Hx).
  - rewrite <- Heq. apply (ilog2_spec x Hx).
Qed.

Lemma round_half_even_Qeq (q q' : Q) : q == q' -> round_half_even q = round_half_even q'.
Proof.
  intros Heq. unfold round_half_even. rewrite (Qfloor_comp _ _ Heq).
  assert (Hc : Qcompare (q - inject_Z (Qfloor q')) (1 # 2)
               = Qcompare (q' - inject_Z (Qfloor q')) (1 # 2)).
  { apply Qcompare_comp; [|reflexivity]. now rewrite Heq. }
  now rewrite Hc.
Qed.

Lemma round_pos_Qeq (x y : Q) : x == y -> 0 < x -> round_pos x == round_pos y.
Proof.
  intros Heq Hx. unfold round_pos, ulp_exp. rewrite <- (ilog2_Qeq x y Heq Hx).
  rewrite (round_half_even_Qeq (x / 2 ^ Z.max (ilog2 x - 52) (-1074))
                               (y / 2 ^ Z.max (ilog2 x - 52) (-1074))).
  - reflexivity.
  - apply Qdiv_comp; [exact Heq | reflexivity].
Qed.

Lemma overflows_Qeq (x y : Q) : x == y -> overflows x = overflows y.
Proof.
  intros Heq. unfold overflows.
  assert (Hxy : x <= y) by (rewrite Heq; apply Qle_refl).
  assert (Hyx : y <= x) by (rewrite Heq; apply Qle_refl).
  destruct (Qle_bool (2 ^ 1024) x) eqn:E1, (Qle_bool (2 ^ 1024) y) eqn:E2; try reflexivity.
  - apply Qle_bool_iff in E1.
    assert (H : Qle_bool (2 ^ 1024) y = true)
      by (apply Qle_bool_iff; eapply Qle_trans; eauto).
    congruence.
  - apply Qle_bool_iff in E2.
    assert (H : Qle_bool (2 ^ 1024) x = true)
      by (apply Qle_bool_iff; eapply Qle_trans; eauto).
    congruence.
Qed.

(** Rounding does not depend on how a rational is written. *)
Lemma round_Qeq (x y : Q) : x == y -> round x = round y.
Proof.
  intros Heq. unfold round.
  destruct x as [a b], y as [c d]. unfold Qeq in Heq. cbn [Qnum Qden] in *.
  destruct a as [|a|a], c as [|c|c]; try (exfalso; simpl in Heq; lia); try reflexivity.
  - assert (Hq : Z.pos a # b == Z.pos c # d) by exact Heq.
    rewrite (overflows_Qeq _ _ (round_pos_Qeq _ _ Hq eq_refl)).
    destruct (overflows _); [reflexivity|].
    f_equal. apply Qred_complete. now apply round_pos_Qeq.
  - assert (Hq : - (Z.neg a # b) == - (Z.neg c # d))
      by (apply Qopp_comp; exact Heq).
    rewrite (overflows_Qeq _ _ (round_pos_Qeq _ _ Hq eq_refl)).
    destruct (overflows _); [reflexivity|].
    f_equal. apply Qred_complete. apply Qopp_comp. now apply round_pos_Qeq.
Qed.

Lemma representable_Qeq (x q : Q) : representable q -> x == q -> round x = Fin (Qred q).
Proof. intros Hrep Heq. now rewrite (round_Qeq x q Heq). Qed.


Lemma round_half_even_inject (m : Z) : round_half_even (inject_Z m) = m.
Proof.
  unfold round_half_even. rewrite Qfloor_Z.
  assert (H : Qcompare (inject_Z m - inject_Z m) (1 # 2) = Lt).
  { apply Qlt_alt. setoid_replace (inject_Z m - inject_Z m) with 0 using relation Qeq by ring. reflexivity. }
  now rewrite H.
Qed.

Lemma round_half_even_floor (q : Q) : (Qfloor q <= round_half_even q)%Z.
Proof.
  unfold round_half_even.
  destruct (Qcompare _ _); [destruct (Z.even _)| |]; lia.
Qed.

Lemma round_half_even_ge (q : Q) (N : Z) :
  inject_Z N <= q -> (N <= round_half_even q)%Z.
Proof.
  intros Hq. pose proof (round_half_even_floor q) as Hf.
  assert (H : (N <= Qfloor q)%Z).
  { rewrite <- (Qfloor_Z N). now apply Qfloor_resp_le. }
  lia.
Qed.

Lemma pow2_split (a b : Z) : 2 ^ (a + b) == 2 ^ a * 2 ^ b.
Proof. apply Qpower_plus, two_nz. Qed.

Lemma pow2_le (a b : Z) : (a <= b)%Z -> 2 ^ a <= 2 ^ b.
Proof. intros H. apply Qpower_le_compat_l; [exact H | discriminate]. Qed.

Lemma pow2_lt_inv (a b : Z) : 2 ^ a < 2 ^ b -> (a < b)%Z.
Proof. intros H. apply Qpower_lt_compat_l_inv with 2; [exact H | reflexivity]. Qed.

Lemma div_pow2 (x : Q) (m p u : Z) :
  (u <= p)%Z -> x == inject_Z m * 2 ^ p ->
  x / 2 ^ u == inject_Z (m * 2 ^ (p - u)).
Proof.
  intros Hu Hx. rewrite Hx, inject_Z_mult, pow2_inject by lia.
  replace p with ((p - u) + u)%Z at 1 by lia. rewrite pow2_split.
  field. apply Qnot_eq_sym, Qlt_not_eq, pow2_pos.
Qed.

Lemma ilog2_dyadic (m p : Z) :
  (0 < m)%Z -> ilog2 (inject_Z m * 2 ^ p) = (Z.log2 m + p)%Z.
Proof.
  intros Hm. destruct (Z.log2_spec m Hm) as [Hl Hu].
  pose proof (Z.log2_nonneg m) as Hk.
  apply ilog2_unique.
  - apply Qmult_lt_0_compat; [|apply pow2_pos].
    change 0 with (inject_Z 0). now rewrite <- Zlt_Qlt.
  - rewrite pow2_split. apply Qmult_le_compat_r; [|apply Qlt_le_weak, pow2_pos].
    rewrite <- pow2_inject by lia. now rewrite <- Zle_Qle.
  - replace (Z.log2 m + p + 1)%Z with (Z.succ (Z.log2 m) + p)%Z by lia.
    rewrite pow2_split. apply Qmult_lt_compat_r; [apply pow2_pos|].
    rewrite <- pow2_inject by lia. now rewrite <- Zlt_Qlt.
Qed.

(** Every [m * 2^p] with a mantissa of at most 53 bits and an exponent
    in range is left unchanged by rounding. *)
Lemma round_pos_dyadic (m p : Z) :
  (0 < m < 2 ^ 53)%Z -> (-1074 <= p)%Z ->
  round_pos (inject_Z m * 2 ^ p) == inject_Z m * 2 ^ p.
Proof.
  intros Hm Hp. unfold round_pos, ulp_exp. rewrite ilog2_dyadic by lia.
  assert (Hk : (Z.log2 m < 53)%Z) by (apply Z.log2_lt_pow2; lia).
  set (u := Z.max (Z.log2 m + p - 52) (-1074)).
  assert (Hu : (u <= p)%Z) by (unfold u; lia).
  rewrite (round_half_even_Qeq _ (inject_Z (m * 2 ^ (p - u)))).
  2:{ apply div_pow2; [exact Hu | reflexivity]. }
  rewrite round_half_even_inject, inject_Z_mult, pow2_inject by lia.
  rewrite <- Qmult_assoc, <- pow2_split.
  replace (p - u + u)%Z with p by lia. reflexivity.
Qed.

Lemma round_half_even_mono (q q' : Q) :
  q <= q' -> (round_half_even q <= round_half_even q')%Z.
Proof.
  intros Hq.
  destruct (Qlt_le_dec (inject_Z (round_half_even q')) q) as [Hlt|Hle].
  2:{ now apply round_half_even_le. }
  (* both lie in the same unit interval, above the rounding of q' *)
  pose proof (round_half_even_floor q') as Hf'.
  pose proof (Qfloor_le q') as Hfl'. pose proof (Qlt_floor q') as Hfu'.
  assert (Hfq : Qfloor q = Qfloor q').
  { assert (H1 : (Qfloor q <= Qfloor q')%Z) by now apply Qfloor_resp_le.
    assert (H2 : (round_half_even q' <= Qfloor q)%Z).
    { rewrite <- (Qfloor_Z (round_half_even q')). apply Qfloor_resp_le.
      now apply Qlt_le_weak. }
    lia. }
  assert (Hr' : round_half_even q' = Qfloor q').
  { assert (H2 : (round_half_even q' <= Qfloor q)%Z).
    { rewrite <- (Qfloor_Z (round_half_even q')). apply Qfloor_resp_le.
      now apply Qlt_le_weak. }
    lia. }
  assert (Hfrac : q - inject_Z (Qfloor q') <= q' - inject_Z (Qfloor q')).
  { apply Qplus_le_l. exact Hq. }
  revert Hr'. unfold round_half_even. rewrite Hfq.
  destruct (Qcompare (q' - inject_Z (Qfloor q')) (1 # 2)) eqn:E'.
  - apply Qeq_alt in E'.
    destruct (Z.even (Qfloor q')) eqn:Ev; [|lia]. intros _.
    destruct (Qcompare (q - inject_Z (Qfloor q')) (1 # 2)) eqn:E; [lia|lia|].
    apply Qgt_alt in E. exfalso. apply (Qlt_irrefl (1 # 2)).
    eapply Qlt_le_trans; [exact E|]. rewrite <- E'. exact Hfrac.
  - apply Qlt_alt in E'. intros _.
    destruct (Qcompare (q - inject_Z (Qfloor q')) (1 # 2)) eqn:E.
    + apply Qeq_alt in E. exfalso. apply (Qlt_irrefl (1 # 2)).
      rewrite <- E at 1. eapply Qle_lt_trans; eauto.
    + lia.
    + apply Qgt_alt in E. exfalso. apply (Qlt_irrefl (1 # 2)).
      eapply Qlt_trans; [exact E|]. eapply Qle_lt_trans; eauto.
  - lia.
Qed.

Lemma round_pos_pow2 (e : Z) : (-1074 <= e)%Z -> round_pos (2 ^ e) == 2 ^ e.
Proof.
  intros He. rewrite <- (round_pos_Qeq (inject_Z 1 * 2 ^ e)).
  - rewrite round_pos_dyadic by lia. ring.
  - ring.
  - apply Qmult_lt_0_compat; [reflexivity | apply pow2_pos].
Qed.

(** A positive binary64 value is at least the smallest subnormal. *)
Lemma fixed_point_exponent (B : Q) :
  0 < B -> round_pos B == B -> (-1074 <= ilog2 B)%Z.
Proof.
  intros HB Hfix. unfold round_pos in Hfix.
  set (p := ulp_exp B) in *. set (m := round_half_even (B / 2 ^ p)) in *.
  assert (Hp : (-1074 <= p)%Z) by (unfold p, ulp_exp; lia).
  assert (Hm : (1 <= m)%Z).
  { destruct (Z_lt_le_dec m 1) as [Hlt|]; [exfalso|assumption].
    apply (Qlt_irrefl 0). eapply Qlt_le_trans; [exact HB|].
    rewrite <- Hfix. setoid_replace 0 with (0 * 2 ^ p) using relation Qeq by ring.
    apply Qmult_le_compat_r; [|apply Qlt_le_weak, pow2_pos].
    change 0 with (inject_Z 0). rewrite <- Zle_Qle. lia. }
  assert (Hge : 2 ^ (-1074) <= B).
  { rewrite <- Hfix. apply Qle_trans with (2 ^ p); [now apply pow2_le|].
    setoid_replace (2 ^ p) with (1 * 2 ^ p) using relation Qeq at 1 by ring.
    apply Qmult_le_compat_r; [|apply Qlt_le_weak, pow2_pos].
    change 1 with (inject_Z 1). rewrite <- Zle_Qle. lia. }
  destruct (ilog2_spec B HB) as [_ Hu].
  assert (H : (-1074 < ilog2 B + 1)%Z).
  { apply pow2_lt_inv. eapply Qle_lt_trans; eauto. }
  lia.
Qed.

(** Rounding never crosses a binary64 value from above either. *)
Lemma round_pos_ge (x B : Q) :
  0 < B -> B <= x -> round_pos B == B -> B <= round_pos x.
Proof.
  intros HB HBx Hfix.
  assert (Hx : 0 < x) by (eapply Qlt_le_trans; eauto).
  pose proof (ilog2_mono B x HB HBx) as Hlog.
  pose proof (fixed_point_exponent B HB Hfix) as HeB.
  destruct (Z.eq_dec (ilog2 B) (ilog2 x)) as [Heq|Hne].
  - unfold round_pos in *. unfold ulp_exp in *. rewrite Heq in Hfix.
    set (p := Z.max (ilog2 x - 52) (-1074)) in *.
    rewrite <- Hfix at 1.
    apply Qmult_le_compat_r; [|apply Qlt_le_weak, pow2_pos].
    rewrite <- Zle_Qle. apply round_half_even_mono.
    apply Qmult_le_compat_r; [exact HBx|].
    apply Qlt_le_weak, Qinv_lt_0_compat, pow2_pos.
  - destruct (ilog2_spec B HB) as [_ HuB].
    destruct (ilog2_spec x Hx) as [Hlx _].
    apply Qle_trans with (2 ^ ilog2 x).
    + apply Qlt_le_weak. eapply Qlt_le_trans; [exact HuB|]. apply pow2_le. lia.
    + unfold round_pos, ulp_exp.
      set (p := Z.max (ilog2 x - 52) (-1074)).
      assert (Hp : (p <= ilog2 x)%Z) by (unfold p; lia).
      setoid_replace (2 ^ ilog2 x) with (inject_Z (2 ^ (ilog2 x - p)) * 2 ^ p) using relation Qeq.
      2:{ rewrite pow2_inject by lia. rewrite <- pow2_split.
          replace (ilog2 x - p + p)%Z with (ilog2 x) by lia. reflexivity. }
      apply Qmult_le_compat_r; [|apply Qlt_le_weak, pow2_pos].
      rewrite <- Zle_Qle. apply round_half_even_ge.
      apply Qle_shift_div_l; [apply pow2_pos|].
      rewrite pow2_inject by lia. rewrite <- pow2_split.
      replace (ilog2 x - p + p)%Z with (ilog2 x) by lia. exact Hlx.
Qed.

Lemma round_pos_mono (x y : Q) :
  0 < x -> x <= y -> round_pos x <= round_pos y.
Proof.
  intros Hx Hxy.
  assert (Hy : 0 < y) by (eapply Qlt_le_trans; eauto).
  pose proof (ilog2_mono x y Hx Hxy) as Hlog.
  destruct (Z.eq_dec (ulp_exp x) (ulp_exp y)) as [Heq|Hne].
  - unfold round_pos. rewrite Heq.
    apply Qmult_le_compat_r; [|apply Qlt_le_weak, pow2_pos].
    rewrite <- Zle_Qle. apply round_half_even_mono.
    apply Qmult_le_compat_r; [exact Hxy|].
    apply Qlt_le_weak, Qinv_lt_0_compat, pow2_pos.
  - unfold ulp_exp in Hne.
    assert (He : (ilog2 x < ilog2 y)%Z /\ (-1074 <= ilog2 y)%Z) by lia.
    destruct He as [He Hey].
    destruct (ilog2_spec x Hx) as [_ Hux].
    destruct (ilog2_spec y Hy) as [Hly _].
    pose proof (round_pos_pow2 (ilog2 y) Hey) as Hfix.
    apply Qle_trans with (2 ^ ilog2 y).
    + apply round_pos_le; [exact Hx| |exact Hfix].
      apply Qlt_le_weak. eapply Qlt_le_trans; [exact Hux|]. apply pow2_le. lia.
    + apply round_pos_ge; [apply pow2_pos | exact Hly | exact Hfix].
Qed.

Lemma round_finite_pos (x r : Q) :
  0 < x -> round x = Fin r ->
  r == round_pos x /\ overflows (round_pos x) = false.
Proof.
  intros Hx. unfold round. destruct x as [a b].
  destruct a as [|a|a]; try (unfold Qlt in Hx; simpl in Hx; lia).
  cbn [Qnum]. destruct (overflows _); [discriminate|].
  intros H. injection H as <-. split; [apply Qred_correct | reflexivity].
Qed.

Lemma round_pos_finite (x : Q) :
  0 < x -> overflows (round_pos x) = false -> round x = Fin (Qred (round_pos x)).
Proof.
  intros Hx Hov. unfold round. destruct x as [a b].
  destruct a as [|a|a]; try (unfold Qlt in Hx; simpl in Hx; lia).
  cbn [Qnum]. now rewrite Hov.
Qed.

Lemma round_zero (x : Q) : x == 0 -> round x = Fin 0.
Proof.
  intros Hx. destruct x as [a b]. unfold Qeq in Hx. simpl in Hx.
  assert (a = 0%Z) by lia. subst a. reflexivity.
Qed.

Lemma overflows_le (x y : Q) : x <= y -> overflows y = false -> overflows x = false.
Proof.
  unfold overflows. intros Hxy Hy.
  destruct (Qle_bool (2 ^ 1024) x) eqn:E; [|reflexivity].
  apply Qle_bool_iff in E.
  assert (H : Qle_bool (2 ^ 1024) y = true)
    by (apply Qle_bool_iff; eapply Qle_trans; eauto).
  congruence.
Qed.

(** Rounding is monotone on the non-negative rationals. *)
Lemma round_mono (x y b : Q) :
  0 <= x -> x <= y -> round y = Fin b ->
  exists a, round x = Fin a /\ 0 <= a /\ a <= b.
Proof.
  intros Hx Hxy Hy.
  destruct (Qlt_le_dec 0 x) as [Hpos|Hz].
  - assert (Hypos : 0 < y) by (eapply Qlt_le_trans; eauto).
    destruct (round_finite_pos y b Hypos Hy) as [Hb Hov].
    pose proof (round_pos_mono x y Hpos Hxy) as Hm.
    exists (Qred (round_pos x)). split; [|split].
    + apply round_pos_finite; [exact Hpos|]. eapply overflows_le; eauto.
    + rewrite Qred_correct. apply round_pos_nonneg. now apply Qlt_le_weak.
    + rewrite Qred_correct, Hb. exact Hm.
  - exists 0. split; [|split].
    + apply round_zero. now apply Qle_antisym.
    + apply Qle_refl.
    + destruct (Qlt_le_dec 0 y) as [Hypos|Hyz].
      * destruct (round_finite_pos y b Hypos Hy) as [Hb _].
        rewrite Hb. apply round_pos_nonneg. now apply Qlt_le_weak.
      * assert (Hy0 : y == 0) by (apply Qle_antisym; [exact Hyz | eapply Qle_trans; eauto]).
        rewrite (round_zero y Hy0) in Hy. injection Hy as <-. apply Qle_refl.
Qed.

(** The rounding of a value at or above a positive binary64 value [B]
    is at or above [B]. *)
Lemma round_lower (x B r : Q) :
  0 < B -> B <= x -> representable B -> round x = Fin r -> B <= r.
Proof.
  intros HB HBx Hrep Hr.
  destruct (representable_pos B HB Hrep) as [Hfix _].
  assert (Hx : 0 < x) by (eapply Qlt_le_trans; eauto).
  destruct (round_finite_pos x r Hx Hr) as [Hq _].
  rewrite Hq. now apply round_pos_ge.
Qed.

Lemma representable_Qeq' (x q : Q) : x == q -> representable q -> representable x.
Proof.
  intros Heq Hrep. unfold representable in *.
  rewrite (round_Qeq x q Heq), Hrep. f_equal. symmetry. now apply Qred_complete.
Qed.

(** Dyadic rationals with a 53-bit mantissa are binary64 values. *)
Lemma representable_dyadic (m p : Z) :
  (0 <= m < 2 ^ 53)%Z -> (-1074 <= p <= 970)%Z ->
  representable (inject_Z m * 2 ^ p).
Proof.
  intros Hm Hp. unfold representable.
  destruct (Z.eq_dec m 0%Z) as [->|Hne].
  - rewrite (round_zero (inject_Z 0 * 2 ^ p)) by ring.
    reflexivity.
  - assert (Hpos : 0 < inject_Z m * 2 ^ p).
    { apply Qmult_lt_0_compat; [|apply pow2_pos].
      change 0 with (inject_Z 0). rewrite <- Zlt_Qlt. lia. }
    pose proof (round_pos_dyadic m p ltac:(lia) ltac:(lia)) as Hfix.
    rewrite round_pos_finite; [f_equal; now apply Qred_complete|exact Hpos|].
    rewrite (overflows_Qeq _ _ Hfix). unfold overflows.
    destruct (Qle_bool _ _) eqn:E; [|reflexivity]. exfalso.
    apply Qle_bool_iff in E. apply (Qlt_irrefl (2 ^ 1024)).
    eapply Qle_lt_trans; [exact E|].
    apply Qlt_le_trans with (2 ^ 53 * 2 ^ p).
    + apply Qmult_lt_compat_r; [apply pow2_pos|].
      rewrite <- pow2_inject by lia. rewrite <- Zlt_Qlt. lia.
    + rewrite <- pow2_split. apply pow2_le. lia.
Qed.

Lemma representable_Z (z : Z) : (0 <= z < 2 ^ 53)%Z -> representable (inject_Z z).
Proof.
  intros Hz. apply (representable_Qeq' _ (inject_Z z * 2 ^ 0)).
  - change (2 ^ 0) with 1. ring.
  - apply representable_dyadic; lia.
Qed.

End RoundingFacts.

(** ** The error of rounding, and of the quantizer *)

From Stdlib Require Import Lqa.

Module RoundingError.
Import Number NumberFacts RoundingFacts.
Local Open Scope Q_scope.

Lemma round_half_even_near (q : Q) :
  inject_Z (round_half_even q) <= q + 1 /\ q - 1 <= inject_Z (round_half_even q).
Proof.
  pose proof (Qfloor_le q) as Hl. pose proof (Qlt_floor q) as Hu.
  rewrite inject_Z_plus in Hu. change (inject_Z 1) with 1 in Hu.
  assert (Hr : (Qfloor q <= round_half_even q <= Qfloor q + 1)%Z).
  { unfold round_half_even. destruct (Qcompare _ _); [destruct (Z.even _)| |]; lia. }
  destruct Hr as [Hr1 Hr2]. rewrite Zle_Qle in Hr1, Hr2.
  rewrite inject_Z_plus in Hr2. change (inject_Z 1) with 1 in Hr2.
  split.
  - eapply Qle_trans; [exact Hr2|]. apply Qplus_le_l. exact Hl.
  - eapply Qle_trans; [|exact Hr1].
    apply Qlt_le_weak. apply Qplus_lt_l with 1.
    setoid_replace (q - 1 + 1) with q using relation Qeq by ring. exact Hu.
Qed.

Lemma ilog2_pow2 (e : Z) : ilog2 (2 ^ e) = e.
Proof.
  apply ilog2_unique; [apply pow2_pos | apply Qle_refl|].
  apply Qpower_lt_compat_l; [lia | reflexivity].
Qed.

(** In the normal range rounding changes a value by at most one part in
    [2^52]. *)
Lemma round_pos_relative (x : Q) :
  2 ^ (-1022) <= x ->
  x * (1 - 2 ^ (-52)) <= round_pos x /\ round_pos x <= x * (1 + 2 ^ (-52)).
Proof.
  intros Hx.
  assert (Hpos : 0 < x) by (eapply Qlt_le_trans; [|exact Hx]; reflexivity).
  assert (He : (-1022 <= ilog2 x)%Z).
  { rewrite <- (ilog2_pow2 (-1022)). apply ilog2_mono; [reflexivity | exact Hx]. }
  destruct (ilog2_spec x Hpos) as [Hlo _].
  unfold round_pos, ulp_exp.
  replace (Z.max (ilog2 x - 52) (-1074)) with (ilog2 x - 52)%Z by lia.
  set (p := (ilog2 x - 52)%Z).
  set (q := x / 2 ^ p).
  assert (Hp0 : 0 < 2 ^ p) by apply pow2_pos.
  assert (Hxq : x == q * 2 ^ p).
  { unfold q. field. apply Qnot_eq_sym, Qlt_not_eq, Hp0. }
  assert (Hq : 2 ^ 52 <= q).
  { unfold q. apply Qle_shift_div_l; [exact Hp0|].
    rewrite <- pow2_split. replace (52 + p)%Z with (ilog2 x) by (unfold p; lia).
    exact Hlo. }
  assert (Hone : 1 <= q * 2 ^ (-52)).
  { change (2 ^ (-52)) with (/ 2 ^ 52).
    apply Qle_shift_div_l; [reflexivity|]. now rewrite Qmult_1_l. }
  destruct (round_half_even_near q) as [Hup Hdown].
  split.
  - apply Qle_trans with ((q - 1) * 2 ^ p).
    + rewrite Hxq at 1.
      setoid_replace (q * 2 ^ p * (1 - 2 ^ (-52)))
        with ((q - q * 2 ^ (-52)) * 2 ^ p) using relation Qeq by ring.
      apply Qmult_le_compat_r; [|now apply Qlt_le_weak].
      apply Qplus_le_r. apply Qopp_le_compat. exact Hone.
    + apply Qmult_le_compat_r; [exact Hdown | now apply Qlt_le_weak].
  - apply Qle_trans with ((q + 1) * 2 ^ p).
    + apply Qmult_le_compat_r; [exact Hup | now apply Qlt_le_weak].
    + rewrite Hxq at 1.
      setoid_replace (q * 2 ^ p * (1 + 2 ^ (-52)))
        with ((q + q * 2 ^ (-52)) * 2 ^ p) using relation Qeq by ring.
      apply Qmult_le_compat_r; [|now apply Qlt_le_weak].
      apply Qplus_le_r. exact Hone.
Qed.

Lemma round_relative (x r : Q) :
  2 ^ (-1022) <= x -> round x = Fin r ->
  x * (1 - 2 ^ (-52)) <= r /\ r <= x * (1 + 2 ^ (-52)).
Proof.
  intros Hx Hr.
  assert (Hpos : 0 < x) by (eapply Qlt_le_trans; [|exact Hx]; reflexivity).
  destruct (round_finite_pos x r Hpos Hr) as [Hq _].
  rewrite Hq. now apply round_pos_relative.
Qed.

Lemma round_relative0 (x r : Q) :
  x == 0 \/ 2 ^ (-1022) <= x -> round x = Fin r ->
  x * (1 - 2 ^ (-52)) <= r /\ r <= x * (1 + 2 ^ (-52)).
Proof.
  intros [Hz|Hx] Hr; [|now apply round_relative].
  rewrite (round_zero x Hz) in Hr. injection Hr as <-.
  rewrite Hz, !Qmult_0_l. split; apply Qle_refl.
Qed.

Lemma upper_chain (A w k D R c n E : Q) :
  1 <= E -> E * E * E * E <= 1 + (1 # 1000) ->
  0 < n -> 0 <= A -> 0 <= k -> 0 <= D -> 0 <= c -> c <= 255 ->
  A <= (c / 255) * E -> w <= (A * n) * E -> k <= w ->
  D <= (k / n) * E -> R <= (D * 255) * E ->
  R < c + 1.
Proof.
  intros HE HE4 Hn HA Hk HD Hc Hc' H1 H2 H3 H4 H5.
  assert (Hkn : k / n <= A * E).
  { apply Qle_shift_div_r; [exact Hn|]. nra. }
  assert (HD2 : D <= A * E * E) by nra.
  assert (HR : R <= A * E * E * E * 255) by nra.
  assert (HA2 : A * 255 <= c * E).
  { assert (Heq : c / 255 * E * 255 == c * E) by field.
    rewrite <- Heq. nra. }
  assert (H6 : A * 255 * E <= c * E * E) by nra.
  assert (H7 : A * 255 * E * E <= c * E * E * E) by nra.
  assert (H8 : A * 255 * E * E * E <= c * E * E * E * E) by nra.
  assert (H9 : c * (E * E * E * E) <= c * (1 + (1 # 1000))) by nra.
  nra.
Qed.

Lemma lower_chain (A w k D R c n v F : Q) :
  0 <= F -> F <= 1 -> 1 - (1 # 1000) <= F * F * F * F ->
  1 <= n -> 0 <= A -> 0 <= k -> 0 <= D -> 0 <= c -> c <= 255 ->
  (c / 255) * F <= A -> (A * n) * F <= w -> w < k + 1 ->
  (k / n) * F <= D -> (D * 255) * F <= R -> R < v + 1 ->
  c - v < 255 / n + 2.
Proof.
  intros HF HF1 HF4 Hn HA Hk HD Hc Hc' H1 H2 H3 H4 H5 H6.
  assert (Hn0 : 0 < n) by lra.
  assert (HA2 : c * F <= A * 255).
  { assert (Heq : c / 255 * F * 255 == c * F) by field.
    rewrite <- Heq. nra. }
  assert (HDn : k * F <= D * n).
  { assert (Heq : k / n * F * n == k * F) by (field; lra).
    rewrite <- Heq. nra. }
  assert (G1 : 255 * (D * n) * F <= R * n) by nra.
  assert (G2 : 255 * (k * F) * F <= 255 * (D * n) * F) by nra.
  assert (G3 : 255 * ((w - 1) * F) * F <= 255 * (k * F) * F) by nra.
  assert (G4 : 255 * ((A * n * F - 1) * F) * F <= 255 * ((w - 1) * F) * F) by nra.
  assert (G5 : (c * F) * n * F * F * F <= (A * 255) * n * F * F * F).
  { assert (0 <= n * F * F * F) by nra. nra. }
  assert (G6 : c * n * (F * F * F * F) - 255 <= R * n).
  { assert (F * F <= 1) by nra. nra. }
  assert (G7 : R * n < (v + 1) * n) by nra.
  assert (G8 : c * n * (1 - (1 # 1000)) <= c * n * (F * F * F * F)).
  { assert (0 <= c * n) by nra. nra. }
  assert (G9 : (c - v) * n < 255 + 2 * n) by nra.
  assert (Heq : 255 / n + 2 == (255 + 2 * n) / n) by (field; lra).
  rewrite Heq. apply Qlt_shift_div_l; [exact Hn0 | exact G9].
Qed.

End RoundingError.

Module QuantizerError.
Import Number MosaicWorker Quantizer NumberFacts QuantizerFacts RoundingFacts RoundingError.
Local Open Scope Q_scope.

Lemma Qfloor_below (q : Q) (z : Z) : q < inject_Z z + 1 -> (Qfloor q <= z)%Z.
Proof.
  intros Hq. assert (H : (Qfloor q < z + 1)%Z).
  { rewrite Zlt_Qlt, inject_Z_plus. eapply Qle_lt_trans; [apply Qfloor_le|exact Hq]. }
  lia.
Qed.

Lemma reduce_chain (c : Z) (n : Q) :
  (0 <= c <= 255)%Z -> representable n -> 1 <= n ->
  exists A w D R,
    round (inject_Z c / 255) = Fin A
    /\ round (A * n) = Fin w
    /\ round (inject_Z (Qfloor w) / n) = Fin D
    /\ round (D * 255) = Fin R
    /\ reduce (of_Z c) (Fin n) = Int (Qfloor R)
    /\ 0 <= A /\ 0 <= w /\ 0 <= D /\ 0 <= R.
Proof.
  intros Hc Hrep Hn.
  assert (Hn0 : 0 < n) by (eapply Qlt_le_trans; [|exact Hn]; reflexivity).
  unfold reduce, of_Z at 1 2. unfold div at 2.
  rewrite (is_zero_false (inject_Z 255)) by reflexivity.
  destruct (round_bounds (inject_Z c / inject_Z 255) 1) as (A & HA & HA0 & HA1).
  { apply Qle_shift_div_l; [reflexivity|]. rewrite Qmult_0_l.
    change 0 with (inject_Z 0). rewrite <- Zle_Qle. lia. }
  { apply Qle_shift_div_r; [reflexivity|]. rewrite Qmult_1_l.
    rewrite <- Zle_Qle. lia. }
  { reflexivity. }
  { exact representable_1. }
  rewrite HA. unfold mul at 2.
  destruct (round_bounds (A * n) n) as (w & Hw & Hw0 & Hw1); try assumption.
  { apply Qmult_le_0_compat; [exact HA0 | apply Qlt_le_weak, Hn0]. }
  { rewrite <- (Qmult_1_l n) at 2. apply Qmult_le_compat_r; [exact HA1 | apply Qlt_le_weak, Hn0]. }
  rewrite Hw. cbn [Math_floor to_number].
  assert (Hk0 : (0 <= Qfloor w)%Z) by now apply Qfloor_nonneg.
  assert (Hkn : inject_Z (Qfloor w) <= n).
  { eapply Qle_trans; [apply Qfloor_le | exact Hw1]. }
  unfold of_Z, div. rewrite (is_zero_false n Hn0).
  destruct (round_bounds (inject_Z (Qfloor w) / n) 1) as (D & HD & HD0 & HD1).
  { apply Qle_shift_div_l; [exact Hn0|]. rewrite Qmult_0_l.
    change 0 with (inject_Z 0). rewrite <- Zle_Qle. lia. }
  { apply Qle_shift_div_r; [exact Hn0|]. rewrite Qmult_1_l. exact Hkn. }
  { reflexivity. }
  { exact representable_1. }
  rewrite HD. unfold mul.
  destruct (round_bounds (D * inject_Z 255) (inject_Z 255)) as (R & HR & HR0 & HR1).
  { apply Qmult_le_0_compat; [exact HD0 | discriminate]. }
  { rewrite <- (Qmult_1_l (inject_Z 255)) at 2.
    apply Qmult_le_compat_r; [exact HD1 | discriminate]. }
  { reflexivity. }
  { exact representable_255. }
  rewrite HR. cbn [Math_floor].
  exists A, w, D, R. repeat split; assumption.
Qed.

(** X18: in binary64 arithmetic, for a palette size between 1 and 2^53,
    quantising never brightens a channel, and it darkens it by less
    than [255 / n + 2]. *)
Theorem reduce_error_bound (c : Z) (n : Q) :
  (0 <= c <= 255)%Z -> representable n -> 1 <= n -> n <= 2 ^ 53 ->
  exists v, reduce (of_Z c) (Fin n) = Int v
    /\ (0 <= v <= c)%Z /\ inject_Z (c - v) < 255 / n + 2.
Proof.
  intros Hc Hrep Hn Hn53.
  destruct (reduce_chain c n Hc Hrep Hn)
    as (A & w & D & R & HA & Hw & HD & HR & Hred & HA0 & Hw0 & HD0 & HR0).
  exists (Qfloor R). split; [exact Hred|].
  assert (Hn0 : 0 < n) by lra.
  assert (Htiny : 2 ^ (-1022) <= 1 # 1152921504606846976)
    by (unfold Qle; vm_compute; discriminate).
  change (2 ^ 53) with 9007199254740992 in Hn53.
  remember (1 + 2 ^ (-52)) as E eqn:HeqE. remember (1 - 2 ^ (-52)) as F eqn:HeqF.
  assert (HE : 1 <= E) by (rewrite HeqE; unfold Qle; vm_compute; discriminate).
  assert (HE4 : E * E * E * E <= 1 + (1 # 1000))
    by (rewrite HeqE; unfold Qle; vm_compute; discriminate).
  assert (HF : (1 # 2) <= F) by (rewrite HeqF; unfold Qle; vm_compute; discriminate).
  assert (HF1 : F <= 1) by (rewrite HeqF; unfold Qle; vm_compute; discriminate).
  assert (HF4 : 1 - (1 # 1000) <= F * F * F * F)
    by (rewrite HeqF; unfold Qle; vm_compute; discriminate).
  assert (Hc0 : 0 <= inject_Z c) by (change 0 with (inject_Z 0); rewrite <- Zle_Qle; lia).
  assert (Hc255 : inject_Z c <= 255) by (change 255 with (inject_Z 255); rewrite <- Zle_Qle; lia).
  assert (Hk0 : 0 <= inject_Z (Qfloor w)).
  { change 0 with (inject_Z 0). rewrite <- Zle_Qle. now apply Qfloor_nonneg. }
  pose proof (Qfloor_le w) as Hkw. pose proof (Qlt_floor w) as Hwk.
  rewrite inject_Z_plus in Hwk. change (inject_Z 1) with 1 in Hwk.
  pose proof (Qlt_floor R) as HRv.
  rewrite inject_Z_plus in HRv. change (inject_Z 1) with 1 in HRv.
  set (k := inject_Z (Qfloor w)) in *. set (cq := inject_Z c) in *.
  (* each rounded value is zero or in the normal range *)
  assert (Hc1 : cq == 0 \/ 1 <= cq).
  { destruct (Z.eq_dec c 0%Z) as [->|Hne]; [left; reflexivity|right].
    unfold cq. change 1 with (inject_Z 1). rewrite <- Zle_Qle. lia. }
  assert (Hk1 : k == 0 \/ 1 <= k).
  { destruct (Z.eq_dec (Qfloor w) 0%Z) as [Hz|Hne]; [left; unfold k; now rewrite Hz|right].
    unfold k. change 1 with (inject_Z 1). rewrite <- Zle_Qle.
    pose proof (Qfloor_nonneg w Hw0). lia. }
  destruct (round_relative0 (cq / 255) A) as [HAl HAu]; [|exact HA|].
  { destruct Hc1 as [Hz|Hp]; [left; rewrite Hz; reflexivity|right].
    eapply Qle_trans; [exact Htiny|]. apply Qle_shift_div_l; [reflexivity|]. lra. }
  rewrite <- HeqF in HAl. rewrite <- HeqE in HAu.
  assert (HAok : A == 0 \/ (1 # 1000) <= A).
  { destruct Hc1 as [Hz|Hp].
    - left. rewrite Hz in HAu. apply Qle_antisym; [|exact HA0].
      assert (Heq : 0 / 255 * E == 0) by reflexivity. now rewrite Heq in HAu.
    - right. eapply Qle_trans; [|exact HAl].
      assert (Hdiv : 1 / 255 <= cq / 255)
        by (apply Qmult_le_compat_r; [exact Hp | discriminate]).
      assert (Heq : 1 / 255 == 1 # 255) by reflexivity. rewrite Heq in Hdiv.
      nra. }
  destruct (round_relative0 (A * n) w) as [Hwl Hwu]; [|exact Hw|].
  { destruct HAok as [Hz|Hp]; [left; rewrite Hz; ring|right].
    eapply Qle_trans; [exact Htiny|]. nra. }
  rewrite <- HeqF in Hwl. rewrite <- HeqE in Hwu.
  destruct (round_relative0 (k / n) D) as [HDl HDu]; [|exact HD|].
  { destruct Hk1 as [Hz|Hp]; [left; rewrite Hz; reflexivity|right].
    eapply Qle_trans; [exact Htiny|]. apply Qle_shift_div_l; [exact Hn0|]. nra. }
  rewrite <- HeqF in HDl. rewrite <- HeqE in HDu.
  assert (HDok : D == 0 \/ (1 # 1152921504606846976) <= D * 255).
  { destruct Hk1 as [Hz|Hp].
    - left. rewrite Hz in HDu. apply Qle_antisym; [|exact HD0].
      assert (Heq : 0 / n * E == 0) by (unfold Qdiv; ring). now rewrite Heq in HDu.
    - right.
      assert (Hkn : (1 # 9007199254740992) <= k / n).
      { apply Qle_shift_div_l; [exact Hn0|]. nra. }
      nra. }
  destruct (round_relative0 (D * 255) R) as [HRl HRu]; [|exact HR|].
  { destruct HDok as [Hz|Hp]; [left; rewrite Hz; ring|right].
    eapply Qle_trans; [exact Htiny | exact Hp]. }
  rewrite <- HeqF in HRl. rewrite <- HeqE in HRu.
  assert (Hup : R < cq + 1).
  { apply (upper_chain A w k D R cq n E); assumption. }
  assert (Hlow : cq - inject_Z (Qfloor R) < 255 / n + 2).
  { apply (lower_chain A w k D R cq n (inject_Z (Qfloor R)) F); try assumption. lra. }
  split; [split|].
  - now apply Qfloor_nonneg.
  - now apply Qfloor_below.
  - unfold Zminus. rewrite inject_Z_plus, inject_Z_opp. exact Hlow.
Qed.

Lemma reduce_error_bound_witness :
  exists v, reduce (of_Z 155) (Fin 51) = Int v
    /\ (0 <= v <= 155)%Z /\ inject_Z (155 - v) < 255 / 51 + 2.
Proof.
  apply (reduce_error_bound 155 51);
    [lia | vm_compute; reflexivity | discriminate | discriminate].
Defined.

End QuantizerError.

(** ** The worker: keys, decoding and the colour map *)

Module WorkerFacts.
Import Number MosaicWorker Quantizer NumberFacts QuantizerFacts HexDecode.
Local Open Scope Z_scope.









Local Open Scope Q_scope.

Lemma rgbToHex_hex2 (r g b : Z) (n : Q) :
  (0 <= r <= 255)%Z -> (0 <= g <= 255)%Z -> (0 <= b <= 255)%Z ->
  representable n -> 1 <= n ->
  exists r' g' b' : Z,
    (reduce (of_Z r) (Fin n) = Int r' /\ (0 <= r' <= 255)%Z) /\
    (reduce (of_Z g) (Fin n) = Int g' /\ (0 <= g' <= 255)%Z) /\
    (reduce (of_Z b) (Fin n) = Int b' /\ (0 <= b' <= 255)%Z) /\
    rgbToHex (of_Z r) (of_Z g) (of_Z b) (Fin n)
      = (hex2 r' +:+ hex2 g' +:+ hex2 b')%string.
Proof.
  intros Hr Hg Hb Hrep Hn.
  destruct (reduce_range r n Hr Hrep Hn) as (r' & Er & Hr').
  destruct (reduce_range g n Hg Hrep Hn) as (g' & Eg & Hg').
  destruct (reduce_range b n Hb Hrep Hn) as (b' & Eb & Hb').
  destruct (convertToHex_hex2 r' Hr') as (Cr & _).
  destruct (convertToHex_hex2 g' Hg') as (Cg & _).
  destruct (convertToHex_hex2 b' Hb') as (Cb & _).
  exists r', g', b'. repeat split; try assumption; try lia.
  unfold rgbToHex. cbv zeta. now rewrite Er, Eg, Eb, Cr, Cg, Cb.
Qed.

Local Close Scope Q_scope.

Lemma hex2_table : forallb two_digits components = true.
Proof. vm_compute. reflexivity. Qed.

Lemma hex2_digits (v : Z) :
  0 <= v <= 255 ->
  exists a b, hex2 v = String a (String b EmptyString)
              /\ parse_hex (String a (String b EmptyString)) = Some v.
Proof.
  intros Hv.
  pose proof (proj1 (forallb_forall _ _) hex2_table v) as H.
  unfold two_digits in H.
  destruct (hex2 v) as [|a [|b [|c rest]]]; try (discriminate H; apply list_elem_of_In, elem_of_seqZ; lia).
  exists a, b. split; [reflexivity|].
  destruct (parse_hex _) as [w|]; [|discriminate H; apply list_elem_of_In, elem_of_seqZ; lia].
  f_equal. apply Z.eqb_eq, H. apply list_elem_of_In, elem_of_seqZ. lia.
Qed.

Lemma parse_key_hex2 (r g b : Z) :
  0 <= r <= 255 -> 0 <= g <= 255 -> 0 <= b <= 255 ->
  parse_key (hex2 r +:+ hex2 g +:+ hex2 b) = Some (r, g, b).
Proof.
  intros Hr Hg Hb.
  destruct (hex2_digits r Hr) as (r1 & r2 & -> & Pr).
  destruct (hex2_digits g Hg) as (g1 & g2 & -> & Pg).
  destruct (hex2_digits b Hb) as (b1 & b2 & -> & Pb).
  change (parse_key (String r1 (String r2 (String g1 (String g2
            (String b1 (String b2 EmptyString)))))) = Some (r, g, b)).
  unfold parse_key. now rewrite Pr, Pg, Pb.
Qed.

(** X2: a key reads back as the three reduced components it was written
    from, so two pixels get the same key exactly when their reduced
    components are the same. *)
Theorem rgbToHex_parse_key (r g b : Z) (n : Q) :
  0 <= r <= 255 -> 0 <= g <= 255 -> 0 <= b <= 255 ->
  representable n -> (1 <= n)%Q ->
  exists r' g' b' : Z,
    reduce (of_Z r) (Fin n) = Int r'
    /\ reduce (of_Z g) (Fin n) = Int g'
    /\ reduce (of_Z b) (Fin n) = Int b'
    /\ parse_key (rgbToHex (of_Z r) (of_Z g) (of_Z b) (Fin n)) = Some (r', g', b').
Proof.
  intros Hr Hg Hb Hrep Hn.
  destruct (rgbToHex_hex2 r g b n Hr Hg Hb Hrep Hn)
    as (r' & g' & b' & [Er Hr'] & [Eg Hg'] & [Eb Hb'] & ->).
  exists r', g', b'. repeat split; try assumption.
  now apply parse_key_hex2.
Qed.

Lemma rgbToHex_parse_key_witness :
  exists r' g' b' : Z,
    reduce (of_Z 160) (Fin 16) = Int r'
    /\ reduce (of_Z 255) (Fin 16) = Int g'
    /\ reduce (of_Z 17) (Fin 16) = Int b'
    /\ parse_key (rgbToHex (of_Z 160) (of_Z 255) (of_Z 17) (Fin 16)) = Some (r', g', b').
Proof.
  apply (rgbToHex_parse_key 160 255 17 16); try lia;
    [vm_compute; reflexivity | discriminate].
Defined.

(** X3: with a palette size of zero every channel is [NaN], whatever the
    pixel: the key is ["NaNNaNNaN"]. *)
Theorem rgbToHex_zero_palette (r g b : number) :
  reduce r (Fin 0) = INaN
  /\ rgbToHex r g b (Fin 0) = "NaNNaNNaN"%string.
Proof.
  assert (Hred : forall c, reduce c (Fin 0) = INaN).
  { intros c. unfold reduce.
    assert (Hm : forall x, mul x (Fin 0) = Fin 0 \/ mul x (Fin 0) = NaN).
    { intros [a|s|]; cbn; auto.
      left. unfold round. cbn [Qnum Qmult]. now rewrite Z.mul_0_r. }
    destruct (Hm (div c (of_Z 255))) as [-> | ->]; reflexivity. }
  split; [apply Hred|].
  unfold rgbToHex. cbv zeta. now rewrite !Hred.
Qed.

Lemma list_ind4 {A} (P : list A -> Prop) :
  P [] -> (forall a, P [a]) -> (forall a b, P [a; b]) -> (forall a b c, P [a; b; c]) ->
  (forall a b c d l, P l -> P (a :: b :: c :: d :: l)) ->
  forall l, P l.
Proof.
  intros H0 H1 H2 H3 H4. fix IH 1.
  intros [|a [|b [|c [|d l]]]];
    [exact H0 | apply H1 | apply H2 | apply H3 | apply H4, IH].
Qed.

Lemma getColorMap_length (data : list Z) (colors : number) :
  length (getColorMap data colors) = ((length data + 3) / 4)%nat.
Proof.
  induction data as [|a|a b|a b c|a b c d l IH] using list_ind4; try reflexivity.
  cbn [getColorMap length]. rewrite IH.
  replace (S (S (S (S (length l)))) + 3)%nat with (length l + 3 + 1 * 4)%nat by lia.
  rewrite Nat.div_add by lia. lia.
Qed.

Lemma getColorMap_lookup (data : list Z) (colors : number) :
  forall (n : nat) r g b,
    data !! (4 * n)%nat = Some r ->
    data !! (4 * n + 1)%nat = Some g ->
    data !! (4 * n + 2)%nat = Some b ->
    getColorMap data colors !! n
    = Some (rgbToHex (of_Z r) (of_Z g) (of_Z b) colors).
Proof.
  induction data as [|u|u v|u v w|u v w t l IH] using list_ind4;
    intros n r g b Hr Hg Hb.
  + rewrite lookup_nil in Hr. discriminate.
  + destruct n; cbn in Hg; [discriminate|].
    replace (4 * S n + 1)%nat with (S (S (S (S (S (4 * n)))))) in Hg by lia.
    discriminate.
  + destruct n.
    * cbn in Hb. discriminate.
    * replace (4 * S n + 2)%nat with (S (S (S (S (S (S (4 * n))))))) in Hb by lia.
      discriminate.
  + destruct n.
    * cbn in Hr, Hg, Hb. injection Hr as <-. injection Hg as <-. injection Hb as <-.
      reflexivity.
    * replace (4 * S n)%nat with (S (S (S (S (4 * n))))) in Hr by lia. discriminate.
  + destruct n.
    * cbn in Hr, Hg, Hb. injection Hr as <-. injection Hg as <-. injection Hb as <-.
      reflexivity.
    * cbn [getColorMap]. change ((?x :: ?k) !! S n) with (k !! n).
      apply IH.
      -- replace (4 * S n)%nat with (S (S (S (S (4 * n))))) in Hr by lia. exact Hr.
      -- replace (4 * S n + 1)%nat with (S (S (S (S (4 * n + 1))))) in Hg by lia. exact Hg.
      -- replace (4 * S n + 2)%nat with (S (S (S (S (4 * n + 2))))) in Hb by lia. exact Hb.
Qed.

(** X4: the colour map has one key per group of four bytes, in pixel
    order; key [n] is computed from bytes [4n], [4n+1] and [4n+2], and
    the fourth byte of a group, the alpha channel, plays no part. *)
Theorem getColorMap_pixels (data : list Z) (colors : number) :
  length (getColorMap data colors) = ((length data + 3) / 4)%nat
  /\ forall (n : nat) r g b,
       data !! (4 * n)%nat = Some r ->
       data !! (4 * n + 1)%nat = Some g ->
       data !! (4 * n + 2)%nat = Some b ->
       getColorMap data colors !! n
       = Some (rgbToHex (of_Z r) (of_Z g) (of_Z b) colors).
Proof. split; [apply getColorMap_length | apply getColorMap_lookup]. Qed.

Lemma getColorMap_pixels_witness :
  length (getColorMap [0; 128; 255; 255; 255; 255; 255; 0] (of_Z 2)) = 2%nat
  /\ getColorMap [0; 128; 255; 255; 255; 255; 255; 0] (of_Z 2) !! 1%nat
     = Some (rgbToHex (of_Z 255) (of_Z 255) (of_Z 255) (of_Z 2)).
Proof.
  destruct (getColorMap_pixels [0; 128; 255; 255; 255; 255; 255; 0] (of_Z 2))
    as [Hlen Hkey].
  split; [exact Hlen|]. now apply (Hkey 1%nat).
Defined.

Lemma hex2_key (r g b : Z) :
  0 <= r <= 255 -> 0 <= g <= 255 -> 0 <= b <= 255 ->
  String.length (hex2 r +:+ hex2 g +:+ hex2 b) = 6%nat
  /\ all_lower_hex (hex2 r +:+ hex2 g +:+ hex2 b) = true.
Proof.
  intros Hr Hg Hb.
  destruct (convertToHex_hex2 r Hr) as (_ & Lr & Nr).
  destruct (convertToHex_hex2 g Hg) as (_ & Lg & Ng).
  destruct (convertToHex_hex2 b Hb) as (_ & Lb & Nb).
  rewrite !length_string_app, !all_lower_hex_app, Nr, Ng, Nb, Lr, Lg, Lb.
  split; reflexivity.
Qed.

(** X5: for image data, bytes in groups of four, and a palette size
    [n >= 1], the colour map has one key per pixel and every key is six
    lowercase hexadecimal digits. *)
Theorem getColorMap_keys (data : list Z) (n : Q) :
  Forall (fun v => 0 <= v <= 255) data ->
  (length data mod 4 = 0)%nat ->
  representable n -> (1 <= n)%Q ->
  length (getColorMap data (Fin n)) = (length data / 4)%nat
  /\ Forall (fun key => String.length key = 6%nat /\ all_lower_hex key = true)
       (getColorMap data (Fin n)).
Proof.
  intros Hbytes Hlen Hrep Hn.
  induction data as [|a|a b|a b c|a b c d l IH] using list_ind4;
    try (cbn in Hlen; discriminate).
  - split; [reflexivity | constructor].
  - apply Forall_cons in Hbytes as [Ha Hbytes].
    apply Forall_cons in Hbytes as [Hb Hbytes].
    apply Forall_cons in Hbytes as [Hc Hbytes].
    apply Forall_cons in Hbytes as [_ Hbytes].
    assert (Hl : (length l mod 4 = 0)%nat).
    { cbn [length] in Hlen.
      replace (S (S (S (S (length l))))) with (length l + 1 * 4)%nat in Hlen by lia.
      now rewrite Nat.Div0.mod_add in Hlen. }
    destruct (IH Hbytes Hl) as [IHlen IHkeys].
    cbn [getColorMap length]. split.
    + rewrite IHlen.
      replace (S (S (S (S (length l))))) with (length l + 1 * 4)%nat by lia.
      rewrite Nat.div_add by lia. lia.
    + constructor; [|exact IHkeys].
      destruct (rgbToHex_hex2 a b c n Ha Hb Hc Hrep Hn)
        as (r' & g' & b' & [_ Hr'] & [_ Hg'] & [_ Hb'] & ->).
      now apply hex2_key.
Qed.

Lemma getColorMap_keys_witness :
  length (getColorMap [0; 128; 255; 255; 255; 255; 255; 0] (Fin 2)) = (8 / 4)%nat
  /\ Forall (fun key => String.length key = 6%nat /\ all_lower_hex key = true)
       (getColorMap [0; 128; 255; 255; 255; 255; 255; 0] (Fin 2)).
Proof.
  apply (getColorMap_keys [0; 128; 255; 255; 255; 255; 255; 0] 2).
  - repeat constructor; lia.
  - reflexivity.
  - vm_compute. reflexivity.
  - discriminate.
Defined.

End WorkerFacts.

(** ** The quantizer keeps order and the ends of the range *)

Module QuantizerOrder.
Import Number MosaicWorker Quantizer NumberFacts QuantizerFacts RoundingFacts.
Local Open Scope Q_scope.

Lemma inner_bucket_mono (c c' : Z) (n : Q) :
  (0 <= c <= c')%Z -> (c' <= 255)%Z -> representable n -> 1 <= n ->
  exists k k', (0 <= k <= k')%Z /\ (k' <= Qfloor n)%Z
    /\ reduce (of_Z c) (Fin n) = bucket_value n k
    /\ reduce (of_Z c') (Fin n) = bucket_value n k'.
Proof.
  intros Hc Hc' Hrep Hn.
  assert (Hn0 : 0 < n) by (eapply Qlt_le_trans; [|exact Hn]; reflexivity).
  unfold reduce, of_Z at 1 2 4 5. unfold div at 2 4.
  rewrite (is_zero_false (inject_Z 255)) by reflexivity.
  destruct (round_bounds (inject_Z c' / inject_Z 255) 1) as (a' & Ha' & Ha0' & Ha1').
  { apply Qle_shift_div_l; [reflexivity|]. rewrite Qmult_0_l.
    change 0 with (inject_Z 0). rewrite <- Zle_Qle. lia. }
  { apply Qle_shift_div_r; [reflexivity|]. rewrite Qmult_1_l.
    rewrite <- Zle_Qle. lia. }
  { reflexivity. }
  { exact representable_1. }
  destruct (round_mono (inject_Z c / inject_Z 255) (inject_Z c' / inject_Z 255) a')
    as (a & Ha & Ha0 & Haa'); [| |exact Ha'|].
  { apply Qle_shift_div_l; [reflexivity|]. rewrite Qmult_0_l.
    change 0 with (inject_Z 0). rewrite <- Zle_Qle. lia. }
  { apply Qmult_le_compat_r; [rewrite <- Zle_Qle; lia | discriminate]. }
  rewrite Ha, Ha'. unfold mul at 2 4.
  destruct (round_bounds (a' * n) n) as (b' & Hb' & Hb0' & Hb1'); try assumption.
  { apply Qmult_le_0_compat; [exact Ha0' | apply Qlt_le_weak, Hn0]. }
  { rewrite <- (Qmult_1_l n) at 2. apply Qmult_le_compat_r; [exact Ha1' | apply Qlt_le_weak, Hn0]. }
  destruct (round_mono (a * n) (a' * n) b') as (b & Hb & Hb0 & Hbb'); [| |exact Hb'|].
  { apply Qmult_le_0_compat; [exact Ha0 | apply Qlt_le_weak, Hn0]. }
  { apply Qmult_le_compat_r; [exact Haa' | apply Qlt_le_weak, Hn0]. }
  rewrite Hb, Hb'. cbn [Math_floor to_number].
  exists (Qfloor b), (Qfloor b'). repeat split.
  - apply Qfloor_nonneg, Hb0.
  - apply Qfloor_resp_le, Hbb'.
  - apply Qfloor_resp_le, Hb1'.
Qed.

Lemma bucket_value_mono (n : Q) (k k' : Z) :
  (0 <= k <= k')%Z -> (k' <= Qfloor n)%Z -> representable n -> 1 <= n ->
  exists v v', bucket_value n k = Int v /\ bucket_value n k' = Int v'
    /\ (0 <= v <= v')%Z /\ (v' <= 255)%Z.
Proof.
  intros Hk Hk' Hrep Hn.
  assert (Hn0 : 0 < n) by (eapply Qlt_le_trans; [|exact Hn]; reflexivity).
  assert (Hkn : inject_Z k' <= n).
  { eapply Qle_trans; [|apply (Qfloor_le n)]. rewrite <- Zle_Qle. lia. }
  unfold bucket_value, of_Z. unfold div. rewrite (is_zero_false n Hn0).
  destruct (round_bounds (inject_Z k' / n) 1) as (d' & Hd' & Hd0' & Hd1').
  { apply Qle_shift_div_l; [exact Hn0|]. rewrite Qmult_0_l.
    change 0 with (inject_Z 0). rewrite <- Zle_Qle. lia. }
  { apply Qle_shift_div_r; [exact Hn0|]. rewrite Qmult_1_l. exact Hkn. }
  { reflexivity. }
  { exact representable_1. }
  destruct (round_mono (inject_Z k / n) (inject_Z k' / n) d') as (d & Hd & Hd0 & Hdd');
    [| |exact Hd'|].
  { apply Qle_shift_div_l; [exact Hn0|]. rewrite Qmult_0_l.
    change 0 with (inject_Z 0). rewrite <- Zle_Qle. lia. }
  { apply Qmult_le_compat_r; [rewrite <- Zle_Qle; lia|].
    apply Qlt_le_weak, Qinv_lt_0_compat, Hn0. }
  rewrite Hd, Hd'. unfold mul.
  destruct (round_bounds (d' * inject_Z 255) (inject_Z 255)) as (e' & He' & He0' & He1').
  { apply Qmult_le_0_compat; [exact Hd0' | discriminate]. }
  { rewrite <- (Qmult_1_l (inject_Z 255)) at 2.
    apply Qmult_le_compat_r; [exact Hd1' | discriminate]. }
  { reflexivity. }
  { exact representable_255. }
  destruct (round_mono (d * inject_Z 255) (d' * inject_Z 255) e') as (e & He & He0 & Hee');
    [| |exact He'|].
  { apply Qmult_le_0_compat; [exact Hd0 | discriminate]. }
  { apply Qmult_le_compat_r; [exact Hdd' | discriminate]. }
  rewrite He, He'. cbn [Math_floor]. do 2 eexists. split; [reflexivity|].
  split; [reflexivity|]. repeat split.
  - apply Qfloor_nonneg, He0.
  - apply Qfloor_resp_le, Hee'.
  - rewrite <- (Qfloor_Z 255). apply Qfloor_resp_le, He1'.
Qed.

(** X6: quantising a channel keeps the order of its values: a brighter
    component never gets a darker reduced value. *)
Theorem reduce_monotone (c c' : Z) (n : Q) :
  (0 <= c <= c')%Z -> (c' <= 255)%Z -> representable n -> 1 <= n ->
  exists v v', reduce (of_Z c) (Fin n) = Int v
    /\ reduce (of_Z c') (Fin n) = Int v' /\ (v <= v')%Z.
Proof.
  intros Hc Hc' Hrep Hn.
  destruct (inner_bucket_mono c c' n Hc Hc' Hrep Hn) as (k & k' & Hk & Hk' & -> & ->).
  destruct (bucket_value_mono n k k' Hk Hk' Hrep Hn) as (v & v' & Hv & Hv' & Hvv & _).
  exists v, v'. repeat split; try assumption. lia.
Qed.

Lemma reduce_monotone_witness :
  exists v v', reduce (of_Z 100) (Fin 16) = Int v
    /\ reduce (of_Z 200) (Fin 16) = Int v' /\ (v <= v')%Z.
Proof.
  apply (reduce_monotone 100 200 16); [lia | lia | vm_compute; reflexivity | discriminate].
Defined.

(** X7: for a whole palette size, black stays black and white stays
    white. *)
Theorem reduce_endpoints (n : Z) :
  (1 <= n)%Z -> representable (inject_Z n) ->
  reduce (of_Z 0) (of_Z n) = Int 0 /\ reduce (of_Z 255) (of_Z n) = Int 255.
Proof.
  intros Hn Hrep.
  assert (Hn0 : 0 < inject_Z n) by (change 0 with (inject_Z 0); rewrite <- Zlt_Qlt; lia).
  assert (Hnz : ~ inject_Z n == 0) by (apply Qnot_eq_sym, Qlt_not_eq, Hn0).
  split.
  - unfold reduce, of_Z. unfold div at 2.
    rewrite (is_zero_false (inject_Z 255)) by reflexivity.
    rewrite (round_zero (inject_Z 0 / inject_Z 255)) by reflexivity.
    unfold mul at 2. rewrite (round_zero (0 * inject_Z n)) by ring.
    cbn [Math_floor to_number]. change (Qfloor 0) with 0%Z.
    unfold of_Z, div. rewrite (is_zero_false _ Hn0).
    rewrite (round_zero (inject_Z 0 / inject_Z n)) by (field; exact Hnz).
    unfold mul. rewrite (round_zero (0 * inject_Z 255)) by ring. reflexivity.
  - unfold reduce, of_Z. unfold div at 2.
    rewrite (is_zero_false (inject_Z 255)) by reflexivity.
    rewrite (round_Qeq (inject_Z 255 / inject_Z 255) 1) by reflexivity.
    rewrite representable_1. unfold mul at 2.
    rewrite (round_Qeq (Qred 1 * inject_Z n) (inject_Z n)) by (change (Qred 1) with 1; ring).
    rewrite Hrep. cbn [Math_floor to_number].
    rewrite (Qfloor_comp _ _ (Qred_correct (inject_Z n))), Qfloor_Z.
    unfold of_Z, div. rewrite (is_zero_false _ Hn0).
    rewrite (round_Qeq (inject_Z n / inject_Z n) 1) by (field; exact Hnz).
    rewrite representable_1. unfold mul.
    rewrite (round_Qeq (Qred 1 * inject_Z 255) (inject_Z 255)) by reflexivity.
    rewrite representable_255. reflexivity.
Qed.

Lemma reduce_endpoints_witness :
  reduce (of_Z 0) (of_Z 16) = Int 0 /\ reduce (of_Z 255) (of_Z 16) = Int 255.
Proof.
  apply (reduce_endpoints 16); [lia | vm_compute; reflexivity].
Defined.

End QuantizerOrder.

(** ** [unique], [once] and a loader without slots *)

Module UniqueFacts.
Import Mosaic MosaicFacts.
Local Open Scope Z_scope.

Lemma indexOf_from_found (pre rest : list string) (v : string) (from : Z) :
  v ∈ pre -> indexOf_from (pre ++ rest) v from < from + Z.of_nat (length pre).
Proof.
  revert from. induction pre as [|u pre IH]; intros from Hin.
  - now apply elem_of_nil in Hin.
  - cbn [app indexOf_from]. change (length (u :: pre)) with (S (length pre)).
    rewrite Nat2Z.inj_succ. unfold strict_eq at 1, string_strict_eq.
    destruct (String.eqb u v) eqn:E; [lia|].
    apply elem_of_cons in Hin as [->|Hin].
    + rewrite String.eqb_refl in E. discriminate.
    + specialize (IH (from + 1) Hin). unfold string_strict_eq in *. lia.
Qed.

Lemma unique_first_occurrence (pre rest : list string) (v : string) :
  unique v (Z.of_nat (length pre)) (pre ++ v :: rest) = true <-> v ∉ pre.
Proof.
  unfold unique, indexOf. split.
  - intros Hu Hin. pose proof (indexOf_from_found pre (v :: rest) v 0 Hin). lia.
  - intros Hnot. rewrite indexOf_from_skip.
    + cbn. unfold strict_eq at 1, string_strict_eq. rewrite String.eqb_refl. lia.
    + intros u Hu. unfold strict_eq, string_strict_eq. apply String.eqb_neq.
      intros ->. contradiction.
Qed.

Lemma filter_unique_strings (rest : list string) : forall pre : list string,
  let kept := filter_from unique (pre ++ rest) rest (Z.of_nat (length pre)) in
  NoDup kept
  /\ (forall s, s ∈ kept <-> s ∈ rest /\ s ∉ pre)
  /\ sublist kept rest.
Proof.
  induction rest as [|v rest IH]; intros pre; cbn zeta.
  - cbn. split; [constructor|]. split; [|constructor].
    intros s. split; [intros H; now apply elem_of_nil in H|].
    intros [H _]. now apply elem_of_nil in H.
  - cbn [filter_from].
    specialize (IH (pre ++ [v])). cbn zeta in IH.
    replace (Z.of_nat (length (pre ++ [v]))) with (Z.of_nat (length pre) + 1) in IH
      by (rewrite length_app; cbn; lia).
    replace ((pre ++ [v]) ++ rest) with (pre ++ v :: rest) in IH
      by (now rewrite <- app_assoc).
    destruct IH as (Hnd & Hel & Hsub).
    destruct (unique v (Z.of_nat (length pre)) (pre ++ v :: rest)) eqn:Hu.
    + apply unique_first_occurrence in Hu. split; [|split].
      * constructor; [|exact Hnd]. intros Hin. apply Hel in Hin as [_ Hnot].
        apply Hnot, elem_of_app. right. apply list_elem_of_here.
      * intros s. rewrite elem_of_cons, Hel, elem_of_cons, elem_of_app, list_elem_of_singleton.
        destruct (decide (s = v)) as [->|Hne]; tauto.
      * now constructor.
    + assert (Hin : v ∈ pre).
      { destruct (decide (v ∈ pre)) as [|Hnot]; [assumption|].
        apply (unique_first_occurrence pre rest v) in Hnot. congruence. }
      split; [exact Hnd|]. split.
      * intros s. rewrite Hel, elem_of_cons, elem_of_app, list_elem_of_singleton.
        destruct (decide (s = v)) as [->|Hne]; tauto.
      * now constructor.
Qed.

(** X8: filtering an array of strings with [unique] keeps one copy of
    each value, in the order of the array. *)
Theorem unique_strings (l : list string) :
  NoDup (array_filter unique l)
  /\ (forall s, s ∈ array_filter unique l <-> s ∈ l)
  /\ sublist (array_filter unique l) l.
Proof.
  destruct (filter_unique_strings l []) as (Hnd & Hel & Hsub).
  split; [exact Hnd|]. split; [|exact Hsub].
  intros s. rewrite (Hel s). split; [tauto|]. intros H. split; [exact H|].
  apply not_elem_of_nil.
Qed.

End UniqueFacts.

Module OnceFacts.
Import Mosaic Once.

Section Once.
Context {Args V W : Type}.
Variable fn : Args -> W -> completion V * W.

Lemma calls_called (f : wrapper (V := V)) (argss : list Args) (w : W) :
  called f = true ->
  calls fn f argss w = (replicate (length argss) (Returns (value f)), f, w).
Proof.
  intros Hc. induction argss as [|a rest IH]; [reflexivity|].
  cbn [calls length replicate]. unfold call at 1. rewrite Hc, IH. reflexivity.
Qed.

(** X9: however often the wrapper is called, the wrapped function runs
    for the first call only; every later call returns what the wrapper
    stored, the first result, or [undefined] if the function threw,
    and leaves the world as the first call left it. *)
Theorem once_runs_first_call_only (args : Args) (rest : list Args) (w : W) :
  calls fn once (args :: rest) w
  = match fn args w with
    | (Returns v, w') =>
        (Returns (Some v) :: replicate (length rest) (Returns (Some v)),
         {| called := true; value := Some v |}, w')
    | (Throws name message, w') =>
        (Throws name message :: replicate (length rest) (Returns None),
         {| called := true; value := None |}, w')
    end.
Proof.
  cbn [calls]. unfold call at 1. cbn [called once value].
  destruct (fn args w) as [[v|name message] w'];
    now rewrite calls_called by reflexivity.
Qed.

End Once.
End OnceFacts.

Module LoaderEdge.
Import Loader LoaderInvariants LoaderFacts.
Local Open Scope Z_scope.

(** X10: after a call that returns, with a limit of zero or less and
    something to load, nothing is ever started and the final callback is never called. *)
Theorem no_slots_no_start {A R E U : Type} (arr : list A) (limit : Z)
    (iterator : iterator_kind)
    (callback : option E -> option (list (option R)) -> U -> U)
    (outcome : Z -> option E * R) (user0 : U)
    (schedule : list Z) (s0 s : state R U) :
  limit <= 0 -> arr <> [] ->
  downloadLimitedItems arr limit iterator callback user0 = Mosaic.Returns s0 ->
  run arr limit callback outcome schedule s0 = Some s ->
  schedule = [] /\ started s = [] /\ pending s = []
  /\ called s = false /\ user s = user0.
Proof.
  intros Hlimit Harr Hcall. apply returns_start in Hcall as [_ ->].
  assert (Hl : 0 < l arr).
  { unfold l. destruct arr; [contradiction|]. cbn [length]. lia. }
  assert (Hinit : start arr limit callback user0
          = {| complete := 0; aborted := false;
               results := replicate (length arr) None;
               queued := 0; i := 0; called := false; user := user0;
               started := []; pending := [] |}).
  { unfold start, flush. cbn [complete i].
    destruct (Z.eqb_spec 0 (l arr)) as [E0|_]; [lia|].
    destruct (Z.to_nat (l arr - 0)) as [|fuel]; [reflexivity|].
    cbn [flush_loop queued].
    destruct (Z.ltb_spec 0 limit) as [Hlt|_]; [lia|reflexivity]. }
  rewrite Hinit. destruct schedule as [|idx rest].
  - cbn. intros [= <-]. cbn. repeat split; reflexivity.
  - cbn [run]. unfold deliver, is_pending. cbn. discriminate.
Qed.

Lemma no_slots_no_start_witness :
  exists s0 : state Z (call_log Z string),
    downloadLimitedItems Examples.keys 0 IsFunction record_call []
    = Mosaic.Returns s0
    /\ @nil Z = []
    /\ started s0 = [] /\ pending s0 = []
    /\ called s0 = false /\ user s0 = [].
Proof.
  eexists. split; [reflexivity|].
  apply (no_slots_no_start Examples.keys 0 IsFunction record_call
           Examples.all_succeed [] []
           (start Examples.keys 0 record_call [])
           (start Examples.keys 0 record_call []));
    [lia | discriminate | reflexivity | reflexivity].
Defined.

End LoaderEdge.

(** ** The size and the grid of the mosaic *)

Module LayoutFacts.
Import Number NumberFacts RoundingFacts Layout.
Local Open Scope Q_scope.

Lemma inject_Z_pos (z : Z) : (0 < z)%Z -> 0 < inject_Z z.
Proof. intros H. change 0 with (inject_Z 0). now rewrite <- Zlt_Qlt. Qed.

Lemma inject_Z_nonneg (z : Z) : (0 <= z)%Z -> 0 <= inject_Z z.
Proof. intros H. change 0 with (inject_Z 0). now rewrite <- Zle_Qle. Qed.

Lemma Qsub_pos (a b : Q) : a < b -> 0 < b - a.
Proof. intros H. unfold Qminus. now apply -> Qlt_minus_iff. Qed.

Lemma Qsub_nonneg (a b : Q) : a <= b -> 0 <= b - a.
Proof. intros H. unfold Qminus. now apply -> Qle_minus_iff. Qed.

Lemma Qsub_lt (a d : Q) : 0 < d -> a - d < a.
Proof.
  intros H. apply Qlt_minus_iff.
  setoid_replace (a + - (a - d)) with d using relation Qeq by ring. exact H.
Qed.

Lemma Qadd_lt (a d : Q) : 0 < d -> a < a + d.
Proof.
  intros H. apply Qlt_minus_iff.
  setoid_replace (a + d + - a) with d using relation Qeq by ring. exact H.
Qed.

Lemma div_pos (a b : Q) : 0 < b -> div (Fin a) (Fin b) = round (a / b).
Proof. intros Hb. unfold div. now rewrite (is_zero_false b Hb). Qed.

Lemma Qfloor_le_Z (q : Q) (z : Z) : q < inject_Z z + 1 -> (Qfloor q <= z)%Z.
Proof.
  intros Hq. assert (H : (Qfloor q < z + 1)%Z).
  { rewrite Zlt_Qlt, inject_Z_plus. eapply Qle_lt_trans; [apply Qfloor_le|exact Hq]. }
  lia.
Qed.

Lemma quarter_representable (w : Z) :
  (0 <= w < 2 ^ 50)%Z -> representable (inject_Z w + (1 # 4)).
Proof.
  intros Hw. apply (representable_Qeq' _ (inject_Z (4 * w + 1) * 2 ^ (-2))).
  - rewrite inject_Z_plus, inject_Z_mult. change (2 ^ (-2)) with (1 # 4).
    change (inject_Z 4) with 4. change (inject_Z 1) with 1. field.
  - apply representable_dyadic; lia.
Qed.

Lemma below_representable (h : Z) :
  (1 <= h <= 2 ^ 24)%Z -> representable (inject_Z h - 2 ^ (-26)).
Proof.
  intros Hh. apply (representable_Qeq' _ (inject_Z (h * 2 ^ 26 - 1) * 2 ^ (-26))).
  - unfold Zminus. rewrite inject_Z_plus, inject_Z_mult.
    change (inject_Z (2 ^ 26)) with (/ 2 ^ (-26)).
    change (inject_Z (- (1))) with (- (1)). field. discriminate.
  - apply representable_dyadic; lia.
Qed.

Section Fit.
Variables iw ih w h : Z.
Hypothesis iw_range : (1 <= iw <= 2 ^ 24)%Z.
Hypothesis ih_range : (1 <= ih <= 2 ^ 24)%Z.
Hypothesis w_range : (1 <= w <= 2 ^ 24)%Z.
Hypothesis h_range : (1 <= h <= 2 ^ 24)%Z.

Lemma aspect_ratio_bounds :
  exists a, round (inject_Z iw / inject_Z ih) = Fin a
    /\ 2 ^ (-24) <= a /\ a <= inject_Z (2 ^ 24).
Proof.
  assert (Hih : 0 < inject_Z ih) by (apply inject_Z_pos; lia).
  destruct (round_bounds (inject_Z iw / inject_Z ih) (inject_Z (2 ^ 24)))
    as (a & Ha & Ha0 & Ha1).
  { apply Qle_shift_div_l; [exact Hih|]. rewrite Qmult_0_l. apply inject_Z_nonneg. lia. }
  { apply Qle_shift_div_r; [exact Hih|]. rewrite <- inject_Z_mult, <- Zle_Qle. nia. }
  { reflexivity. }
  { apply representable_Z. lia. }
  exists a. split; [exact Ha|]. split; [|exact Ha1].
  apply (round_lower (inject_Z iw / inject_Z ih)); [reflexivity| |
    apply (representable_Qeq' _ (inject_Z 1 * 2 ^ (-24)));
      [ring | apply representable_dyadic; lia] | exact Ha].
  apply Qle_shift_div_l; [exact Hih|].
  apply Qle_trans with 1.
  - change (2 ^ (-24)) with (/ inject_Z (2 ^ 24)).
    rewrite Qmult_comm. apply Qle_shift_div_r; [reflexivity|].
    rewrite Qmult_1_l, <- Zle_Qle. lia.
  - change 1 with (inject_Z 1). rewrite <- Zle_Qle. lia.
Qed.

Lemma getSize_spec :
  exists sx sy : Z,
    getSize {| width := of_Z iw; height := of_Z ih |}
            {| width := of_Z w; height := of_Z h |}
    = {| x := of_Z sx; y := of_Z sy |}
    /\ (0 <= sx <= w)%Z /\ (0 <= sy <= h)%Z /\ (sx = w \/ sy = h).
Proof.
  assert (Hih : 0 < inject_Z ih) by (apply inject_Z_pos; lia).
  assert (Hw : 0 < inject_Z w) by (apply inject_Z_pos; lia).
  assert (Hh : 0 < inject_Z h) by (apply inject_Z_pos; lia).
  destruct aspect_ratio_bounds as (a & Ha & Hal & Hau).
  assert (Ha0 : 0 < a) by (eapply Qlt_le_trans; [|exact Hal]; reflexivity).
  unfold getSize. cbn [width height]. unfold of_Z.
  rewrite (div_pos _ _ Hih), Ha. rewrite (div_pos _ _ Ha0).
  destruct (round_bounds (inject_Z w / a) (inject_Z (2 ^ 48))) as (t & Ht & Ht0 & Ht1).
  { apply Qle_shift_div_l; [exact Ha0|]. rewrite Qmult_0_l. now apply Qlt_le_weak. }
  { apply Qle_shift_div_r; [exact Ha0|].
    apply Qle_trans with (inject_Z (2 ^ 24)); [rewrite <- Zle_Qle; lia|].
    apply Qle_trans with (inject_Z (2 ^ 48) * 2 ^ (-24)); [vm_compute; discriminate|].
    apply Qmult_le_l; [reflexivity | exact Hal]. }
  { reflexivity. }
  { apply representable_Z. lia. }
  rewrite Ht. unfold lt.
  destruct (Qle_bool (inject_Z h) t) eqn:Hcmp; cbn [negb].
  - (* the height is the binding side *)
    apply Qle_bool_iff in Hcmp.
    assert (Hprod : inject_Z h * a <= inject_Z w + (1 # 4)).
    { apply Qnot_lt_le. intros Hgt.
      destruct (round_bounds (inject_Z w / a) (inject_Z h - 2 ^ (-26)))
        as (t' & Ht' & _ & Hle).
      - apply Qle_shift_div_l; [exact Ha0|]. rewrite Qmult_0_l. now apply Qlt_le_weak.
      - apply Qle_shift_div_r; [exact Ha0|].
        assert (Hda : 2 ^ (-26) * a <= 1 # 4).
        { apply Qle_trans with (2 ^ (-26) * inject_Z (2 ^ 24)); [|vm_compute; discriminate].
          apply Qmult_le_l; [reflexivity | exact Hau]. }
        apply Qle_trans with (inject_Z h * a - 2 ^ (-26) * a).
        + apply Qle_minus_iff.
          setoid_replace (inject_Z h * a - 2 ^ (-26) * a + - inject_Z w)
            with ((inject_Z h * a - (inject_Z w + (1 # 4))) + ((1 # 4) - 2 ^ (-26) * a))
            using relation Qeq by ring.
          apply Qle_trans with (0 + 0); [apply Qle_refl|].
          apply Qplus_le_compat.
          * apply Qlt_le_weak, Qsub_pos. exact Hgt.
          * apply Qsub_nonneg. exact Hda.
        + apply Qle_lteq. right. ring.
      - apply Qsub_pos.
        apply Qlt_le_trans with 1; [reflexivity|].
        change 1 with (inject_Z 1). rewrite <- Zle_Qle. lia.
      - apply below_representable. lia.
      - rewrite Ht in Ht'. injection Ht' as <-.
        apply (Qlt_irrefl (inject_Z h)).
        eapply Qle_lt_trans; [exact Hcmp|]. eapply Qle_lt_trans; [exact Hle|].
        apply Qsub_lt. reflexivity. }
    unfold mul.
    destruct (round_bounds (inject_Z h * a) (inject_Z w + (1 # 4))) as (r & Hr & Hr0 & Hr1).
    { apply Qmult_le_0_compat; now apply Qlt_le_weak. }
    { exact Hprod. }
    { apply Qlt_trans with (inject_Z w); [exact Hw|]. apply Qadd_lt. reflexivity. }
    { apply quarter_representable. lia. }
    rewrite Hr. cbn [Math_floor to_number]. rewrite Qfloor_Z.
    exists (Qfloor r), h. split; [reflexivity|]. repeat split; try lia.
    + now apply Qfloor_nonneg.
    + apply Qfloor_le_Z. eapply Qle_lt_trans; [exact Hr1|].
      apply Qplus_lt_r. reflexivity.
  - (* the width is the binding side *)
    assert (Hlt : t < inject_Z h).
    { apply Qnot_le_lt. intros Hle. apply Qle_bool_iff in Hle. congruence. }
    cbn [Math_floor to_number].
    exists w, (Qfloor t). split; [reflexivity|]. repeat split; try lia.
    + now apply Qfloor_nonneg.
    + apply Qfloor_le_Z. eapply Qlt_trans; [exact Hlt|]. apply Qadd_lt. reflexivity.
Qed.

End Fit.

Lemma Qceiling_eighth (z : Z) : Qceiling (inject_Z z * 2 ^ (-3)) = ((z + 7) / 8)%Z.
Proof.
  unfold Qceiling.
  rewrite (Qfloor_comp _ ((- z) # 8)).
  2:{ change (2 ^ (-3)) with (1 # 8). unfold Qeq, inject_Z. simpl. lia. }
  unfold Qfloor. change (Z.pos 8) with 8%Z.
  Z.div_mod_to_equations. lia.
Qed.

Lemma tile_count (s : Z) :
  (0 <= s < 2 ^ 53)%Z ->
  Math_ceil (div (of_Z s) (of_Z 8)) = Int ((s + 7) / 8).
Proof.
  intros Hs. unfold of_Z. rewrite div_pos by reflexivity.
  assert (Hrep : representable (inject_Z s * 2 ^ (-3)))
    by (apply representable_dyadic; lia).
  rewrite (round_Qeq (inject_Z s / inject_Z 8) (inject_Z s * 2 ^ (-3))).
  2:{ change (2 ^ (-3)) with (/ inject_Z 8). reflexivity. }
  rewrite Hrep. cbn [Math_ceil]. f_equal.
  unfold Qceiling.
  rewrite (Qfloor_comp _ _ (Qopp_comp _ _ (Qred_correct _))).
  apply Qceiling_eighth.
Qed.

Lemma getDimensions_spec (sx sy : Z) :
  (0 <= sx < 2 ^ 53)%Z -> (0 <= sy < 2 ^ 53)%Z ->
  getDimensions {| x := of_Z sx; y := of_Z sy |}
  = {| x := of_Z ((sx + 7) / 8); y := of_Z ((sy + 7) / 8) |}.
Proof.
  intros Hx Hy. unfold getDimensions. cbn [x y].
  change Create.TILE_WIDTH with 8%Z. change Create.TILE_HEIGHT with 8%Z.
  now rewrite !tile_count.
Qed.

(** X11: for an image and a canvas of whole sizes between 1 and 2^24
    the size chosen fits the canvas and fills it in one direction. *)
Theorem getSize_fits (iw ih w h : Z) :
  (1 <= iw <= 2 ^ 24)%Z -> (1 <= ih <= 2 ^ 24)%Z ->
  (1 <= w <= 2 ^ 24)%Z -> (1 <= h <= 2 ^ 24)%Z ->
  exists sx sy : Z,
    getSize {| width := of_Z iw; height := of_Z ih |}
            {| width := of_Z w; height := of_Z h |}
    = {| x := of_Z sx; y := of_Z sy |}
    /\ (0 <= sx <= w)%Z /\ (0 <= sy <= h)%Z /\ (sx = w \/ sy = h).
Proof. intros. now apply getSize_spec. Qed.

Lemma getSize_fits_witness :
  exists sx sy : Z,
    getSize {| width := of_Z 1920; height := of_Z 1080 |}
            {| width := of_Z 800; height := of_Z 600 |}
    = {| x := of_Z sx; y := of_Z sy |}
    /\ (0 <= sx <= 800)%Z /\ (0 <= sy <= 600)%Z /\ (sx = 800 \/ sy = 600)%Z.
Proof. apply (getSize_fits 1920 1080 800 600); lia. Defined.

(** X12: the mosaic has the least number of 8-pixel tiles that covers the
    size in each direction. *)
Theorem getDimensions_covers (sx sy : Z) :
  (0 <= sx < 2 ^ 53)%Z -> (0 <= sy < 2 ^ 53)%Z ->
  exists gx gy : Z,
    getDimensions {| x := of_Z sx; y := of_Z sy |}
    = {| x := of_Z gx; y := of_Z gy |}
    /\ (8 * (gx - 1) < sx <= 8 * gx)%Z
    /\ (8 * (gy - 1) < sy <= 8 * gy)%Z.
Proof.
  intros Hx Hy. exists ((sx + 7) / 8)%Z, ((sy + 7) / 8)%Z.
  split; [now apply getDimensions_spec|].
  split; Z.div_mod_to_equations; lia.
Qed.

Lemma getDimensions_covers_witness :
  exists gx gy : Z,
    getDimensions {| x := of_Z 800; y := of_Z 450 |}
    = {| x := of_Z gx; y := of_Z gy |}
    /\ (8 * (gx - 1) < 800 <= 8 * gx)%Z
    /\ (8 * (gy - 1) < 450 <= 8 * gy)%Z.
Proof. apply (getDimensions_covers 800 450); lia. Defined.

(** X13: the grid computed for an image on a canvas never has a tile
    that starts outside the canvas. *)
Theorem grid_within_canvas (iw ih w h : Z) :
  (1 <= iw <= 2 ^ 24)%Z -> (1 <= ih <= 2 ^ 24)%Z ->
  (1 <= w <= 2 ^ 24)%Z -> (1 <= h <= 2 ^ 24)%Z ->
  exists gx gy : Z,
    getDimensions (getSize {| width := of_Z iw; height := of_Z ih |}
                           {| width := of_Z w; height := of_Z h |})
    = {| x := of_Z gx; y := of_Z gy |}
    /\ (0 <= gx)%Z /\ (8 * (gx - 1) < w)%Z
    /\ (0 <= gy)%Z /\ (8 * (gy - 1) < h)%Z.
Proof.
  intros Hiw Hih Hw Hh.
  destruct (getSize_spec iw ih w h Hiw Hih Hw Hh) as (sx & sy & -> & Hsx & Hsy & _).
  exists ((sx + 7) / 8)%Z, ((sy + 7) / 8)%Z.
  split; [apply getDimensions_spec; lia|].
  repeat split; Z.div_mod_to_equations; lia.
Qed.

Lemma grid_within_canvas_witness :
  exists gx gy : Z,
    getDimensions (getSize {| width := of_Z 1920; height := of_Z 1080 |}
                           {| width := of_Z 800; height := of_Z 600 |})
    = {| x := of_Z gx; y := of_Z gy |}
    /\ (0 <= gx)%Z /\ (8 * (gx - 1) < 800)%Z
    /\ (0 <= gy)%Z /\ (8 * (gy - 1) < 600)%Z.
Proof. apply (grid_within_canvas 1920 1080 800 600); lia. Defined.

End LayoutFacts.

(** ** The size keeps the aspect ratio *)

Module LayoutAspect.
Import Number NumberFacts RoundingFacts RoundingError Layout LayoutFacts.
Local Open Scope Q_scope.

(** [t] is [w / a] rounded, and [a] is [iw / ih] rounded. *)
Lemma ratio_chain (iw ih w a t E F : Q) :
  (1 # 2) <= F -> F <= 1 -> 1 <= E -> E <= 2 ->
  (E - F) * 281474976710656 <= 1 # 8 ->
  1 <= iw -> 1 <= ih -> 0 <= w -> w * ih <= 281474976710656 -> 0 < a -> 0 <= t ->
  (iw / ih) * F <= a -> a <= (iw / ih) * E ->
  (w / a) * F <= t -> t <= (w / a) * E ->
  t * iw <= w * ih + (1 # 4) /\ w * ih - (1 # 4) <= t * iw.
Proof.
  intros HF HF1 HE HE2 HEF Hiw Hih Hw HP Ha Ht Hal Hau Htl Htu.
  assert (Hal' : iw * F <= a * ih).
  { assert (Heq : iw / ih * F * ih == iw * F) by (field; lra).
    rewrite <- Heq. nra. }
  assert (Hau' : a * ih <= iw * E).
  { assert (Heq : iw / ih * E * ih == iw * E) by (field; lra).
    rewrite <- Heq. nra. }
  assert (Htl' : w * F <= t * a).
  { assert (Heq : w / a * F * a == w * F) by (field; lra).
    rewrite <- Heq. nra. }
  assert (Htu' : t * a <= w * E).
  { assert (Heq : w / a * E * a == w * E) by (field; lra).
    rewrite <- Heq. nra. }
  set (P := w * ih) in *. set (X := t * iw).
  assert (H1 : X * F <= P * E).
  { assert (t * (iw * F) <= t * (a * ih)) by nra.
    assert ((t * a) * ih <= (w * E) * ih) by nra.
    unfold X, P. nra. }
  assert (H2 : P * F <= X * E).
  { assert ((w * F) * ih <= (t * a) * ih) by nra.
    assert (t * (a * ih) <= t * (iw * E)) by nra.
    unfold X, P. nra. }
  assert (HP0 : 0 <= P) by (unfold P; nra).
  assert (H3 : P * (E - F) <= 1 # 8) by nra.
  split.
  - assert (X * F <= (P + (1 # 4)) * F) by nra. nra.
  - assert ((P - (1 # 4)) * E <= X * E) by nra. nra.
Qed.

(** [m] is [h * a] rounded, and [a] is [iw / ih] rounded. *)
Lemma product_chain (iw ih h a m E F : Q) :
  (1 # 2) <= F -> F <= 1 -> 1 <= E -> E <= 2 ->
  (E * E - 1) * 281474976710656 <= 1 # 4 ->
  (1 - F * F) * 281474976710656 <= 1 # 4 ->
  1 <= iw -> 1 <= ih -> 0 <= h -> h * iw <= 281474976710656 -> 0 < a -> 0 <= m ->
  (iw / ih) * F <= a -> a <= (iw / ih) * E ->
  (h * a) * F <= m -> m <= (h * a) * E ->
  m * ih <= h * iw + (1 # 4) /\ h * iw - (1 # 4) <= m * ih.
Proof.
  intros HF HF1 HE HE2 HE1 HF2 Hiw Hih Hh HS Ha Hm Hal Hau Hml Hmu.
  assert (Hal' : iw * F <= a * ih).
  { assert (Heq : iw / ih * F * ih == iw * F) by (field; lra).
    rewrite <- Heq. nra. }
  assert (Hau' : a * ih <= iw * E).
  { assert (Heq : iw / ih * E * ih == iw * E) by (field; lra).
    rewrite <- Heq. nra. }
  set (S := h * iw) in *.
  assert (H1 : m * ih <= S * (E * E)).
  { assert (h * (a * ih) <= h * (iw * E)) by nra.
    assert (m * ih <= (h * a * E) * ih) by nra.
    unfold S. nra. }
  assert (H2 : S * (F * F) <= m * ih).
  { assert (h * (iw * F) <= h * (a * ih)) by nra.
    assert ((h * a * F) * ih <= m * ih) by nra.
    unfold S. nra. }
  assert (HS0 : 0 <= S) by (unfold S; nra).
  split; nra.
Qed.

Section Fit.
Variables iw ih w h : Z.
Hypothesis iw_range : (1 <= iw <= 2 ^ 24)%Z.
Hypothesis ih_range : (1 <= ih <= 2 ^ 24)%Z.
Hypothesis w_range : (1 <= w <= 2 ^ 24)%Z.
Hypothesis h_range : (1 <= h <= 2 ^ 24)%Z.

(** X19: for whole image and canvas dimensions between 1 and 2^24 the
    size chosen keeps the aspect ratio of the image: the side
    that does not fill the canvas is the exact proportional length
    rounded down to a whole number (one less, at most, when that length
    is itself whole). *)
Theorem getSize_keeps_aspect_ratio :
  exists sx sy : Z,
    getSize {| width := of_Z iw; height := of_Z ih |}
            {| width := of_Z w; height := of_Z h |}
    = {| x := of_Z sx; y := of_Z sy |}
    /\ (sx = w /\ (sy * iw <= w * ih <= (sy + 1) * iw)%Z
        \/ sy = h /\ (sx * ih <= h * iw <= (sx + 1) * ih)%Z).
Proof.
  assert (Hiw : 0 < inject_Z iw) by (apply inject_Z_pos; lia).
  assert (Hih : 0 < inject_Z ih) by (apply inject_Z_pos; lia).
  assert (Hw : 0 < inject_Z w) by (apply inject_Z_pos; lia).
  assert (Hh : 0 < inject_Z h) by (apply inject_Z_pos; lia).
  assert (Hiw1 : 1 <= inject_Z iw) by (change 1 with (inject_Z 1); rewrite <- Zle_Qle; lia).
  assert (Hih1 : 1 <= inject_Z ih) by (change 1 with (inject_Z 1); rewrite <- Zle_Qle; lia).
  assert (Hw1 : 1 <= inject_Z w) by (change 1 with (inject_Z 1); rewrite <- Zle_Qle; lia).
  assert (Hh1 : 1 <= inject_Z h) by (change 1 with (inject_Z 1); rewrite <- Zle_Qle; lia).
  assert (Hwu : inject_Z w <= 16777216)
    by (change 16777216 with (inject_Z (2 ^ 24)); rewrite <- Zle_Qle; lia).
  assert (Hhu : inject_Z h <= 16777216)
    by (change 16777216 with (inject_Z (2 ^ 24)); rewrite <- Zle_Qle; lia).
  assert (Hiwu : inject_Z iw <= 16777216)
    by (change 16777216 with (inject_Z (2 ^ 24)); rewrite <- Zle_Qle; lia).
  assert (Hihu : inject_Z ih <= 16777216)
    by (change 16777216 with (inject_Z (2 ^ 24)); rewrite <- Zle_Qle; lia).
  destruct (aspect_ratio_bounds iw ih iw_range ih_range) as (a & Ha & Hal & Hau).
  change (2 ^ (-24)) with (1 # 16777216) in Hal.
  change (inject_Z (2 ^ 24)) with 16777216 in Hau.
  assert (Ha0 : 0 < a) by lra.
  assert (Htiny : 2 ^ (-1022) <= 1 # 281474976710656)
    by (unfold Qle; vm_compute; discriminate).
  remember (1 + 2 ^ (-52)) as E eqn:HeqE. remember (1 - 2 ^ (-52)) as F eqn:HeqF.
  assert (HE : 1 <= E) by (rewrite HeqE; unfold Qle; vm_compute; discriminate).
  assert (HE2 : E <= 2) by (rewrite HeqE; unfold Qle; vm_compute; discriminate).
  assert (HF : (1 # 2) <= F) by (rewrite HeqF; unfold Qle; vm_compute; discriminate).
  assert (HF1 : F <= 1) by (rewrite HeqF; unfold Qle; vm_compute; discriminate).
  assert (HEF : (E - F) * 281474976710656 <= 1 # 8)
    by (rewrite HeqE, HeqF; unfold Qle; vm_compute; discriminate).
  assert (HEE : (E * E - 1) * 281474976710656 <= 1 # 4)
    by (rewrite HeqE; unfold Qle; vm_compute; discriminate).
  assert (HFF : (1 - F * F) * 281474976710656 <= 1 # 4)
    by (rewrite HeqF; unfold Qle; vm_compute; discriminate).
  destruct (round_relative (inject_Z iw / inject_Z ih) a) as [Hrl Hru]; [|exact Ha|].
  { eapply Qle_trans; [exact Htiny|]. apply Qle_shift_div_l; [exact Hih|]. nra. }
  rewrite <- HeqF in Hrl. rewrite <- HeqE in Hru.
  unfold getSize. cbn [width height]. unfold of_Z.
  rewrite (div_pos _ _ Hih), Ha. rewrite (div_pos _ _ Ha0).
  destruct (round_bounds (inject_Z w / a) (inject_Z (2 ^ 48))) as (t & Ht & Ht0 & Ht1).
  { apply Qle_shift_div_l; [exact Ha0|]. rewrite Qmult_0_l. now apply Qlt_le_weak. }
  { apply Qle_shift_div_r; [exact Ha0|].
    change (inject_Z (2 ^ 48)) with 281474976710656. nra. }
  { reflexivity. }
  { apply representable_Z. lia. }
  rewrite Ht. unfold lt.
  destruct (Qle_bool (inject_Z h) t) eqn:Hcmp; cbn [negb].
  - (* the height is the binding side *)
    unfold mul.
    destruct (round_bounds (inject_Z h * a) (inject_Z (2 ^ 48))) as (m & Hm & Hm0 & Hm1).
    { apply Qmult_le_0_compat; now apply Qlt_le_weak. }
    { change (inject_Z (2 ^ 48)) with 281474976710656. nra. }
    { reflexivity. }
    { apply representable_Z. lia. }
    rewrite Hm. cbn [Math_floor to_number]. rewrite Qfloor_Z.
    destruct (round_relative (inject_Z h * a) m) as [Hml Hmu]; [|exact Hm|].
    { eapply Qle_trans; [exact Htiny|]. nra. }
    rewrite <- HeqF in Hml. rewrite <- HeqE in Hmu.
    destruct (product_chain (inject_Z iw) (inject_Z ih) (inject_Z h) a m E F)
      as [Hup Hdown]; try assumption; try lra; [nra|].
    exists (Qfloor m), h. split; [reflexivity|]. right. split; [reflexivity|].
    pose proof (Qfloor_le m) as Hfl. pose proof (Qlt_floor m) as Hfu.
    rewrite inject_Z_plus in Hfu. change (inject_Z 1) with 1 in Hfu.
    split.
    + assert (H : inject_Z (Qfloor m * ih) < inject_Z (h * iw + 1)).
      { rewrite inject_Z_plus, !inject_Z_mult. change (inject_Z 1) with 1.
        assert (inject_Z (Qfloor m) * inject_Z ih <= m * inject_Z ih)
          by (apply Qmult_le_compat_r; [exact Hfl | lra]).
        lra. }
      rewrite <- Zlt_Qlt in H. lia.
    + assert (H : inject_Z (h * iw - 1) < inject_Z ((Qfloor m + 1) * ih)).
      { unfold Zminus. rewrite !inject_Z_plus, !inject_Z_mult, inject_Z_plus, inject_Z_opp.
        change (inject_Z 1) with 1.
        assert (m * inject_Z ih < (inject_Z (Qfloor m) + 1) * inject_Z ih)
          by (apply Qmult_lt_compat_r; [lra | exact Hfu]).
        lra. }
      rewrite <- Zlt_Qlt in H. lia.
  - (* the width is the binding side *)
    cbn [Math_floor to_number].
    destruct (round_relative (inject_Z w / a) t) as [Htl Htu]; [|exact Ht|].
    { eapply Qle_trans; [exact Htiny|]. apply Qle_shift_div_l; [exact Ha0|]. nra. }
    rewrite <- HeqF in Htl. rewrite <- HeqE in Htu.
    destruct (ratio_chain (inject_Z iw) (inject_Z ih) (inject_Z w) a t E F)
      as [Hup Hdown]; try assumption; try lra; [nra|].
    exists w, (Qfloor t). split; [reflexivity|]. left. split; [reflexivity|].
    pose proof (Qfloor_le t) as Hfl. pose proof (Qlt_floor t) as Hfu.
    rewrite inject_Z_plus in Hfu. change (inject_Z 1) with 1 in Hfu.
    split.
    + assert (H : inject_Z (Qfloor t * iw) < inject_Z (w * ih + 1)).
      { rewrite inject_Z_plus, !inject_Z_mult. change (inject_Z 1) with 1.
        assert (inject_Z (Qfloor t) * inject_Z iw <= t * inject_Z iw)
          by (apply Qmult_le_compat_r; [exact Hfl | lra]).
        lra. }
      rewrite <- Zlt_Qlt in H. lia.
    + assert (H : inject_Z (w * ih - 1) < inject_Z ((Qfloor t + 1) * iw)).
      { unfold Zminus. rewrite !inject_Z_plus, !inject_Z_mult, inject_Z_plus, inject_Z_opp.
        change (inject_Z 1) with 1.
        assert (t * inject_Z iw < (inject_Z (Qfloor t) + 1) * inject_Z iw)
          by (apply Qmult_lt_compat_r; [lra | exact Hfu]).
        lra. }
      rewrite <- Zlt_Qlt in H. lia.
Qed.

End Fit.

Lemma getSize_keeps_aspect_ratio_witness :
  exists sx sy : Z,
    getSize {| width := of_Z 1920; height := of_Z 1080 |}
            {| width := of_Z 800; height := of_Z 600 |}
    = {| x := of_Z sx; y := of_Z sy |}
    /\ (sx = 800%Z /\ (sy * 1920 <= 800 * 1080 <= (sy + 1) * 1920)%Z
        \/ sy = 600%Z /\ (sx * 1080 <= 600 * 1920 <= (sx + 1) * 1080)%Z).
Proof. apply (getSize_keeps_aspect_ratio 1920 1080 800 600); lia. Defined.

End LayoutAspect.

(** ** The finished mosaic *)

Module PaintingFacts.
Import Mosaic Create CreateInvariants LoaderUser CreateFacts MosaicFacts Painting.
Local Open Scope Z_scope.

(** *** What [flush] changes *)

Lemma flush_shape {A R E U : Type} (arr : list A) (limit : Z)
    (callback : option E -> option (list (option R)) -> U -> U)
    (s : Loader.state R U) :
  exists k, 0 <= k
    /\ Loader.i (Loader.flush arr limit callback s) = Loader.i s + k
    /\ Loader.pending (Loader.flush arr limit callback s)
       = Loader.pending s ++ seqZ (Loader.i s) k
    /\ Loader.aborted (Loader.flush arr limit callback s) = Loader.aborted s
    /\ (Loader.user (Loader.flush arr limit callback s) = Loader.user s
        \/ Loader.user (Loader.flush arr limit callback s)
           = callback None (Some (Loader.results s)) (Loader.user s)).
Proof.
  unfold Loader.flush. destruct (_ =? _).
  - exists 0. unfold Loader.call_once.
    destruct (Loader.called s); cbn; rewrite app_nil_r;
      repeat split; try lia; auto.
  - destruct (LoaderFacts.flush_loop_pushed arr limit
                (Z.to_nat (Loader.l arr - Loader.i s)) s) as (k & Hk & ->).
    exists k. cbn. repeat split; try lia; auto.
Qed.

(** *** Sorted pixel maps: the rows, one after the other, are the map *)

Lemma elem_of_findCurrentRow (pm : list pixel) (r : Z) (p : pixel) :
  p ∈ findCurrentRow pm r <-> p ∈ pm /\ y p = r.
Proof.
  unfold findCurrentRow. rewrite !list_elem_of_In, List.filter_In.
  now rewrite Z.eqb_eq.
Qed.

Lemma flat_map_empty {A B} (f : A -> list B) (rows : list A) :
  (forall r, r ∈ rows -> f r = []) -> flat_map f rows = [].
Proof.
  induction rows as [|r rows IH]; intros H; [reflexivity|]. cbn.
  rewrite (H r) by apply list_elem_of_here.
  apply IH. intros r' Hr'. apply H. now apply list_elem_of_further.
Qed.

Lemma flat_map_agree {A B} (f g : A -> list B) (rows : list A) :
  (forall r, r ∈ rows -> f r = g r) -> flat_map f rows = flat_map g rows.
Proof.
  induction rows as [|r rows IH]; intros H; [reflexivity|]. cbn.
  rewrite (H r) by apply list_elem_of_here. f_equal.
  apply IH. intros r' Hr'. apply H. now apply list_elem_of_further.
Qed.

Lemma filter_none {A} (f : A -> bool) (l : list A) :
  (forall q, q ∈ l -> f q = false) -> List.filter f l = [].
Proof.
  induction l as [|q l IH]; intros H; [reflexivity|]. cbn.
  rewrite (H q) by apply list_elem_of_here.
  apply IH. intros q' Hq'. apply H. now apply list_elem_of_further.
Qed.

Lemma rows_of_sorted (pm : list pixel) : forall a n,
  StronglySorted Z.le (map y pm) -> 0 <= n ->
  flat_map (findCurrentRow pm) (seqZ a n)
  = List.filter (fun p => (a <=? y p) && (y p <? a + n)) pm.
Proof.
  induction pm as [|p pm IH]; intros a n Hs Hn.
  - cbn. induction (seqZ a n) as [|r rows IHr]; [reflexivity | exact IHr].
  - cbn [map] in Hs. apply StronglySorted_inv in Hs as [Hs Hp].
    assert (Hge : forall q, q ∈ pm -> y p <= y q).
    { intros q Hq. rewrite Forall_forall in Hp. apply Hp.
      apply list_elem_of_fmap. now exists q. }
    cbn [List.filter].
    destruct (Z.leb_spec a (y p)) as [Ha|Ha]; cbn [andb];
      [destruct (Z.ltb_spec (y p) (a + n)) as [Hb|Hb]|].
    + (* the row of [p] is one of the rows *)
      replace n with ((y p - a) + (1 + (a + n - y p - 1))) by lia.
      rewrite seqZ_app, flat_map_app by lia.
      replace (a + (y p - a)) with (y p) by lia.
      rewrite (seqZ_cons (y p)) by lia. cbn [flat_map].
      assert (Hbefore : flat_map (findCurrentRow (p :: pm)) (seqZ a (y p - a)) = []).
      { apply flat_map_empty. intros r Hr.
        apply elem_of_seqZ in Hr. unfold findCurrentRow. cbn [List.filter].
        destruct (Z.eqb_spec (y p) r); [lia|].
        apply filter_none. intros q Hq.
        apply Z.eqb_neq. specialize (Hge q Hq). lia. }
      rewrite Hbefore. cbn [app]. unfold findCurrentRow at 1. cbn [List.filter].
      rewrite Z.eqb_refl. cbn [app]. f_equal.
      assert (Hafter : flat_map (findCurrentRow (p :: pm))
                         (seqZ (Z.succ (y p)) (Z.pred (1 + (a + n - y p - 1))))
                       = flat_map (findCurrentRow pm)
                           (seqZ (Z.succ (y p)) (Z.pred (1 + (a + n - y p - 1))))).
      { apply flat_map_agree. intros r Hr. apply elem_of_seqZ in Hr.
        unfold findCurrentRow. cbn [List.filter].
        destruct (Z.eqb_spec (y p) r); [lia | reflexivity]. }
      rewrite Hafter.
      change (List.filter (fun pixel => y pixel =? y p) pm)
        with (findCurrentRow pm (y p)).
      change (findCurrentRow pm (y p) ++ flat_map (findCurrentRow pm)
                (seqZ (Z.succ (y p)) (Z.pred (1 + (a + n - y p - 1)))))
        with (flat_map (findCurrentRow pm)
                (y p :: seqZ (Z.succ (y p)) (Z.pred (1 + (a + n - y p - 1))))).
      rewrite <- (seqZ_cons (y p)) by lia.
      rewrite (IH (y p)) by (assumption || lia).
      apply List.filter_ext_in. intros q Hq.
      specialize (Hge q (proj2 (list_elem_of_In _ _) Hq)).
      destruct (Z.leb_spec (y p) (y q)); [|lia].
      destruct (Z.leb_spec a (y q)); [|lia]. cbn [andb].
      destruct (Z.ltb_spec (y q) (y p + (1 + (a + n - y p - 1))));
        destruct (Z.ltb_spec (y q) (a + n)); try reflexivity; lia.
    + (* every row lies before [p] *)
      rewrite <- (IH a n) by assumption.
      apply flat_map_agree. intros r Hr. apply elem_of_seqZ in Hr.
      unfold findCurrentRow. cbn [List.filter].
      destruct (Z.eqb_spec (y p) r); [lia | reflexivity].
    + rewrite <- (IH a n) by assumption.
      apply flat_map_agree. intros r Hr. apply elem_of_seqZ in Hr.
      unfold findCurrentRow. cbn [List.filter].
      destruct (Z.eqb_spec (y p) r); [lia | reflexivity].
Qed.


(** *** Rendering with tiles that are the images of their keys *)

Section Render.
Variable pixelMap : list pixel.
Variable offset : Q * Q.

Local Abbreviation renderCompleteRows := (renderCompleteRows pixelMap offset).
Local Abbreviation renderCompleteRows_fuel := (renderCompleteRows_fuel pixelMap offset).
Local Abbreviation drawImage := (drawImage offset).
Local Abbreviation painted := (painted offset).
Local Abbreviation tiles_ok := (tiles_ok offset).
Local Abbreviation rendered := (rendered pixelMap).
Local Abbreviation run := (Create.run pixelMap offset).
Local Abbreviation create :=
  (Loader.start (uniqueColors pixelMap) 16 (final_callback pixelMap offset)
     (initial_canvas pixelMap)).
Local Abbreviation keys := (uniqueColors pixelMap).
Local Abbreviation counts_ok :=
  (LoaderInvariants.counts_ok (R := image) (U := canvas) keys 16).
Local Abbreviation topped_up :=
  (LoaderInvariants.topped_up (R := image) (U := canvas) keys 16).
Local Abbreviation loading := (loading pixelMap).

Lemma drawImage_painted tiles (p : pixel) :
  tiles !! color p = Some (tile_of (color p)) -> drawImage tiles p = painted p.
Proof.
  intros H. unfold Painting.painted, Create.drawImage. now rewrite H.
Qed.

Lemma downloaded_lookup (row : list pixel) tiles :
  currentRowDownloaded row tiles = true ->
  forall p, p ∈ row -> exists img, tiles !! color p = Some img /\ complete img = true.
Proof.
  unfold currentRowDownloaded. intros H p Hp.
  apply negb_true_iff in H.
  destruct (tiles !! color p) as [img|] eqn:E.
  - exists img. split; [reflexivity|].
    destruct (complete img) eqn:Ec; [reflexivity|]. exfalso.
    assert (Ht : existsb (fun elem => negb match tiles !! color elem with
                                        | Some tile => complete tile
                                        | None => false end) row = true).
    { apply existsb_exists. exists p. split; [now apply list_elem_of_In|].
      now rewrite E, Ec. }
    congruence.
  - exfalso.
    assert (Ht : existsb (fun elem => negb match tiles !! color elem with
                                        | Some tile => complete tile
                                        | None => false end) row = true).
    { apply existsb_exists. exists p. split; [now apply list_elem_of_In|].
      now rewrite E. }
    congruence.
Qed.

Lemma lookup_downloaded (row : list pixel) tiles :
  (forall p, p ∈ row -> tiles !! color p = Some (tile_of (color p))) ->
  currentRowDownloaded row tiles = true.
Proof.
  intros H. unfold currentRowDownloaded. apply negb_true_iff.
  apply not_true_is_false. intros Ht. apply existsb_exists in Ht as (p & Hp & Hn).
  rewrite (H p) in Hn by now apply list_elem_of_In. discriminate.
Qed.

Lemma row_painted (row : list pixel) tiles :
  (forall key img, tiles !! key = Some img -> img = tile_of key) ->
  currentRowDownloaded row tiles = true ->
  map (drawImage tiles) row = map painted row.
Proof.
  intros Hsound Hd. apply map_ext_in. intros p Hp.
  destruct (downloaded_lookup row tiles Hd p) as (img & Himg & _);
    [now apply list_elem_of_In|].
  apply drawImage_painted. rewrite Himg. f_equal. now apply Hsound.
Qed.

Lemma renderCompleteRows_fuel_tiles fuel : forall c c',
  renderCompleteRows_fuel fuel c = Some c' ->
  completeTiles c' = completeTiles c /\ halted c'
  /\ (tiles_ok c -> tiles_ok c').
Proof.
  induction fuel as [|fuel IH]; intros c c'; cbn; [discriminate|].
  destruct (currentRowDownloaded (currentRow c) (completeTiles c)) eqn:Hd; cbn.
  - set (c1 := {| currentRowIndex := currentRowIndex c + 1;
                  currentRow := findCurrentRow pixelMap (currentRowIndex c + 1);
                  completeTiles := completeTiles c;
                  drawn := drawn c ++ map (drawImage (completeTiles c)) (currentRow c) |}).
    assert (Hok : tiles_ok c -> tiles_ok c1).
    { intros [Hsound Hdrawn]. constructor; [exact Hsound|]. cbn.
      rewrite !map_app, <- Hdrawn. f_equal.
      rewrite (entry_drawImage offset).
      now apply row_painted. }
    destruct (Nat.eqb (length (findCurrentRow pixelMap (currentRowIndex c + 1))) 0) eqn:Hlen.
    + intros [= <-]. split; [reflexivity|]. split; [|exact Hok].
      left. cbn. apply Nat.eqb_eq in Hlen. now apply length_zero_iff_nil.
    + intros Hrun. destruct (IH c1 c' Hrun) as (Ht & Hh & Hk).
      split; [exact Ht|]. split; [exact Hh|]. intros H. apply Hk, Hok, H.
  - intros [= <-]. split; [reflexivity|]. split; [now right | auto].
Qed.

Lemma renderCompleteRows_tiles (c : canvas) :
  completeTiles (renderCompleteRows c) = completeTiles c
  /\ halted (renderCompleteRows c)
  /\ (tiles_ok c -> tiles_ok (renderCompleteRows c)).
Proof.
  apply (renderCompleteRows_fuel_tiles (S (length pixelMap))).
  apply renderCompleteRows_returns.
Qed.

Lemma set_tile_ok color (c : canvas) :
  tiles_ok c -> tiles_ok (set_tile color (tile_of color) c).
Proof.
  intros [Hsound Hdrawn]. constructor; [|exact Hdrawn].
  intros key img. cbn. destruct (decide (key = color)) as [->|Hne].
  - rewrite lookup_insert_eq. now intros [= <-].
  - rewrite lookup_insert_ne by congruence. apply Hsound.
Qed.

Lemma initial_canvas_ok : tiles_ok (initial_canvas pixelMap) /\ halted (initial_canvas pixelMap).
Proof.
  split.
  - constructor; cbn; [|reflexivity]. intros key img H.
    rewrite lookup_empty in H. discriminate.
  - unfold halted. cbn.
    destruct (findCurrentRow pixelMap 1) as [|p row]; [now left|right].
    unfold currentRowDownloaded. cbn. now rewrite lookup_empty.
Qed.

(** *** What holds of every state the loads lead to *)

Local Abbreviation sound := (sound pixelMap offset).

Lemma create_sound : sound create.
Proof.
  constructor.
  - apply LoaderFacts.init_counts.
  - apply LoaderFacts.init_topped_up.
  - unfold Loader.start.
    match goal with |- loading (Loader.flush _ _ _ ?s0) =>
      destruct (flush_shape keys 16 (final_callback pixelMap offset) s0)
        as (k & Hk & Hi & Hp & Ha & Hu) end.
    cbn in Hi, Hp, Ha. constructor; [exact Ha|].
    intros idx key Hidx Hnot. exfalso. apply Hnot. rewrite Hi in Hidx. rewrite Hp.
    apply elem_of_seqZ. lia.
  - apply create_rendered.
  - apply (init_user _ _ _ tiles_ok).
    + intros err res u. apply renderCompleteRows_tiles.
    + apply initial_canvas_ok.
  - apply (init_user _ _ _ halted).
    + intros err res u _. apply renderCompleteRows_tiles.
    + apply initial_canvas_ok.
Qed.

Lemma onload_sound idx color (s : pass) :
  sound s -> idx ∈ Loader.pending s -> keys !! Z.to_nat idx = Some color ->
  sound (onload pixelMap offset idx color s).
Proof.
  intros [Hc Ht Hl Hr Hk Hh] Hin Hkey.
  assert (Hc1 : counts_ok (with_user (set_tile color (tile_of color)) s))
    by now apply with_user_counts.
  constructor.
  - now apply onload_counts.
  - unfold onload. cbv zeta. unfold LoaderInvariants.topped_up. cbn.
    apply (LoaderFacts.settle_topped_up keys 16 (final_callback pixelMap offset)
             idx None _ _ Hc1 Hin).
  - unfold onload. cbv zeta.
    change {| src := "color/" +:+ color; complete := true |} with (tile_of color).
    set (s1 := with_user (set_tile color (tile_of color)) s) in *.
    unfold Loader.settle.
    match goal with |- loading (with_user _ (Loader.flush _ _ _ ?s0)) =>
      destruct (flush_shape keys 16 (final_callback pixelMap offset) s0)
        as (k & Hk0 & Hi & Hp & Ha & Hu);
      set (s2 := Loader.flush keys 16 (final_callback pixelMap offset) s0) in * end.
    cbn in Hi, Hp, Ha, Hu.
    assert (Htiles : completeTiles (Loader.user s2)
                     = <[color := tile_of color]> (completeTiles (Loader.user s))).
    { destruct Hu as [-> | ->]; [reflexivity|].
      unfold final_callback.
      now rewrite (proj1 (renderCompleteRows_tiles _)). }
    destruct Hl as [Hab Hrep]. constructor.
    + cbn. now rewrite Ha.
    + intros j key. cbn. rewrite Hi, Hp.
      rewrite (proj1 (renderCompleteRows_tiles _)), Htiles.
      intros Hj Hnot Hjk.
      assert (Hj' : 0 <= j < Loader.i s).
      { destruct (Z.lt_ge_cases j (Loader.i s)) as [|Hge]; [lia|].
        exfalso. apply Hnot, elem_of_app. right. apply elem_of_seqZ. lia. }
      destruct (decide (key = color)) as [->|Hne];
        [now rewrite lookup_insert_eq|].
      rewrite lookup_insert_ne by congruence.
      apply (Hrep j key Hj'); [|exact Hjk].
      intros Hpend. apply Hnot, elem_of_app. left.
      apply LoaderFacts.elem_of_filter_remove. split; [exact Hpend|].
      intros ->. rewrite Hkey in Hjk. congruence.
  - now apply onload_rendered.
  - unfold onload. cbv zeta. rewrite user_with_user.
    apply renderCompleteRows_tiles.
    apply (settle_user _ _ _ tiles_ok).
    + intros err res u. apply renderCompleteRows_tiles.
    + rewrite user_with_user. now apply set_tile_ok.
  - unfold onload. cbv zeta. rewrite user_with_user.
    apply renderCompleteRows_tiles.
Qed.

Lemma run_sound schedule : forall (s s' : pass),
  sound s -> run schedule s = Some s' -> sound s'.
Proof.
  induction schedule as [|idx h IH]; intros s s' Hs; cbn.
  - now intros [= <-].
  - unfold load. destruct (Loader.is_pending idx s) eqn:Hp; [|discriminate].
    apply LoaderFacts.is_pending_elem in Hp.
    destruct (keys !! Z.to_nat idx) as [color|] eqn:Hkey; [|discriminate].
    apply IH. now apply onload_sound.
Qed.

(** *** Every fetch that is outstanding can load, until none is left *)

Lemma run_finishes (s : pass) :
  sound s -> exists rest s', run rest s = Some s' /\ Loader.pending s' = [].
Proof.
  intros Hs.
  assert (Hm : exists n : nat,
             Loader.l keys - Loader.i s + Z.of_nat (length (Loader.pending s))
             = Z.of_nat n).
  { exists (Z.to_nat (Loader.l keys - Loader.i s + Z.of_nat (length (Loader.pending s)))).
    pose proof (LoaderInvariants.i_range _ _ s (s_counts _ _ s Hs)). lia. }
  destruct Hm as [n Hn]. revert s Hs Hn.
  induction n as [|n IH]; intros s Hs Hn.
  - exists [], s. split; [reflexivity|].
    pose proof (LoaderInvariants.i_range _ _ s (s_counts _ _ s Hs)).
    destruct (Loader.pending s); [reflexivity | cbn in Hn; lia].
  - destruct (Loader.pending s) as [|idx p] eqn:Hp.
    + exists [], s. split; [reflexivity | assumption].
    + assert (Hin : idx ∈ Loader.pending s) by (rewrite Hp; left).
      pose proof (s_counts _ _ s Hs) as Hc.
      pose proof (LoaderInvariants.pending_started _ _ s Hc idx Hin) as Hidx.
      pose proof (LoaderInvariants.i_range _ _ s Hc) as Hi.
      destruct (lookup_lt_is_Some_2 keys (Z.to_nat idx)) as [color Hkey];
        [unfold Loader.l in *; lia|].
      assert (Hc1 : counts_ok (with_user (set_tile color (tile_of color)) s))
        by now apply with_user_counts.
      pose proof (LoaderFacts.settle_measure keys 16 (final_callback pixelMap offset)
                    idx None (tile_of color) _ Hc1 Hin) as Hms.
      destruct (IH (onload pixelMap offset idx color s)) as (rest & s' & Hrun & Hdone).
      * now apply onload_sound.
      * unfold onload. cbv zeta. cbn [with_user Loader.i Loader.pending] in *.
        change {| src := "color/" +:+ color; complete := true |} with (tile_of color).
        rewrite Hp in Hms. cbn [length] in Hms, Hn. lia.
      * exists (idx :: rest), s'. split; [|assumption].
        cbn [Create.run]. unfold load.
        rewrite (proj2 (LoaderFacts.is_pending_elem idx s) Hin), Hkey. exact Hrun.
Qed.

(** *** When nothing is outstanding the pixel map has been painted *)

Section Finished.
Hypothesis distinct : NoDup (map addr pixelMap).
Hypothesis sorted : StronglySorted Z.le (map y pixelMap).
Hypothesis rows : forall p, p ∈ pixelMap ->
  1 <= y p /\ forall r, 1 <= r <= y p -> findCurrentRow pixelMap r <> [].

Lemma keys_colors : keys = map color pixelMap.
Proof. unfold uniqueColors, uniqueMap. now rewrite array_filter_unique_distinct. Qed.

Lemma filter_all {A} (f : A -> bool) (l : list A) :
  (forall q, q ∈ l -> f q = true) -> List.filter f l = l.
Proof.
  induction l as [|q l IH]; intros H; [reflexivity|]. cbn.
  rewrite (H q) by apply list_elem_of_here. f_equal.
  apply IH. intros q' Hq'. apply H. now apply list_elem_of_further.
Qed.

Lemma finished_painted (s : pass) :
  sound s -> Loader.pending s = [] ->
  drawn (Loader.user s) = map painted pixelMap.
Proof.
  intros [Hc Ht [Hab Hrep] Hr [Hsound Hdrawn] Hh] Hp.
  assert (Hi : Loader.i s = Loader.l keys).
  { pose proof (LoaderInvariants.pending_eq_queued _ _ s Hc Hab) as Hq.
    rewrite Hp in Hq. cbn in Hq. destruct (Ht Hab) as [|Hlim]; [assumption|lia]. }
  assert (Hall : forall p, p ∈ pixelMap ->
            completeTiles (Loader.user s) !! color p = Some (tile_of (color p))).
  { intros p Hin. apply list_elem_of_lookup in Hin as [n Hn].
    apply (Hrep (Z.of_nat n)).
    - rewrite Hi. unfold Loader.l. rewrite keys_colors, length_map.
      apply lookup_lt_Some in Hn. lia.
    - rewrite Hp. apply not_elem_of_nil.
    - rewrite Nat2Z.id, keys_colors, list_lookup_fmap, Hn. reflexivity. }
  destruct Hr as [Hrow Hpos Hrows Hloaded].
  assert (Hempty : findCurrentRow pixelMap (currentRowIndex (Loader.user s)) = []).
  { rewrite <- Hrow. destruct Hh as [|Hfalse]; [assumption|exfalso].
    rewrite lookup_downloaded in Hfalse; [discriminate|].
    intros p Hin. apply Hall. rewrite Hrow in Hin.
    now apply elem_of_findCurrentRow in Hin as [Hin _]. }
  rewrite Hdrawn, Hrows. f_equal.
  rewrite rows_of_sorted by (assumption || lia).
  apply filter_all. intros p Hin. destruct (rows p Hin) as [Hy Hne].
  destruct (Z.leb_spec 1 (y p)); [|lia]. cbn [andb].
  destruct (Z.ltb_spec (y p) (1 + (currentRowIndex (Loader.user s) - 1)));
    [reflexivity|exfalso].
  apply (Hne (currentRowIndex (Loader.user s))); [lia | exact Hempty].
Qed.

End Finished.

End Render.

(** *** The pixel map of [getPixelMap] *)

Section PixelMap.
Variable base : nat.
Variables gx gy : Z.
Variable tileColors : list string.
Hypothesis gx_pos : 1 <= gx.

Local Abbreviation pixelMap := (getPixelMap base (gx, gy) tileColors).

Lemma getPixelMap_lookup (n : nat) (p : pixel) :
  pixelMap !! n = Some p -> y p = Z.of_nat n / gx + 1.
Proof.
  unfold getPixelMap. rewrite lookup_map_from.
  destruct (tileColors !! n); [|discriminate]. cbn. intros [= <-]. cbn. reflexivity.
Qed.

Lemma getPixelMap_distinct : NoDup (map addr pixelMap).
Proof.
  unfold getPixelMap. rewrite addr_map_from by reflexivity. apply NoDup_seq.
Qed.

Lemma getPixelMap_sorted : StronglySorted Z.le (map y pixelMap).
Proof.
  assert (H : map y pixelMap
              = map (fun n => n / gx + 1) (seqZ 0 (Z.of_nat (length tileColors)))).
  { change (map y pixelMap) with (map (fun p => snd (Grid.coordinates p)) pixelMap).
    rewrite <- (map_map Grid.coordinates snd).
    rewrite (coordinates_getPixelMap base gx gy gx_pos), map_map. reflexivity. }
  rewrite H. clear H.
  pose proof (seqZ_sorted 0 (Z.of_nat (length tileColors))) as Hs.
  induction Hs as [|a l Hs IH Ha]; cbn; [constructor|].
  constructor; [exact IH|].
  apply Forall_forall. intros v Hv. apply list_elem_of_fmap in Hv as (b & -> & Hb).
  rewrite Forall_forall in Ha. specialize (Ha b Hb).
  assert (a / gx <= b / gx) by (apply Z.div_le_mono; lia). lia.
Qed.

Lemma getPixelMap_rows (p : pixel) :
  p ∈ pixelMap ->
  1 <= y p /\ forall r, 1 <= r <= y p -> findCurrentRow pixelMap r <> [].
Proof.
  intros Hin. apply list_elem_of_lookup in Hin as [n Hn].
  pose proof (getPixelMap_lookup n p Hn) as Hy.
  pose proof (lookup_lt_Some _ _ _ Hn) as Hlen.
  assert (H0 : 0 <= Z.of_nat n / gx) by (apply Z.div_pos; lia).
  split; [lia|]. intros r Hr.
  assert (Hm : (r - 1) * gx <= Z.of_nat n).
  { pose proof (Z.mul_div_le (Z.of_nat n) gx ltac:(lia)). nia. }
  destruct (lookup_lt_is_Some_2 pixelMap (Z.to_nat ((r - 1) * gx))) as [q Hq]; [nia|].
  pose proof (getPixelMap_lookup _ q Hq) as Hyq.
  rewrite Z2Nat.id in Hyq by nia. rewrite Z.div_mul in Hyq by lia.
  intros Hnil.
  assert (Hqin : q ∈ findCurrentRow pixelMap r).
  { apply (proj2 (elem_of_findCurrentRow pixelMap r q)).
    split; [|lia]. apply list_elem_of_lookup. eauto. }
  rewrite Hnil in Hqin. now apply elem_of_nil in Hqin.
Qed.

End PixelMap.

(** X15: whatever the order in which the tiles load, once none is
    outstanding the canvas has received exactly one call per entry of
    the pixel map, in the order of the map, each with the image fetched
    for the entry's own key at the entry's position; and from every
    state the loads that are outstanding lead to that end. *)
Theorem mosaic_painted (base : nat) (gx gy : Z) (tileColors : list string)
    (offset : Q * Q) (schedule : list Z) (s0 s : pass) :
  1 <= gx ->
  Create.create (getPixelMap base (gx, gy) tileColors) offset = Returns s0 ->
  Create.run (getPixelMap base (gx, gy) tileColors) offset schedule s0 = Some s ->
  (Loader.pending s = [] ->
   drawn (Loader.user s)
   = map (painted offset) (getPixelMap base (gx, gy) tileColors))
  /\ exists rest s',
       Create.run (getPixelMap base (gx, gy) tileColors) offset rest s = Some s'
       /\ Loader.pending s' = []
       /\ drawn (Loader.user s')
          = map (painted offset) (getPixelMap base (gx, gy) tileColors).
Proof.
  intros Hgx Hcall Hrun. apply create_returns in Hcall as ->.
  set (pm := getPixelMap base (gx, gy) tileColors) in *.
  pose proof (run_sound pm offset schedule _ s (create_sound pm offset) Hrun) as Hs.
  assert (Hfin : forall t, sound pm offset t -> Loader.pending t = [] ->
                   drawn (Loader.user t) = map (painted offset) pm).
  { intros t Ht Hp. apply finished_painted; try assumption.
    - apply getPixelMap_distinct.
    - now apply getPixelMap_sorted.
    - intros p. now apply getPixelMap_rows. }
  split; [now apply Hfin|].
  destruct (run_finishes pm offset s Hs) as (rest & s' & Hrest & Hdone).
  exists rest, s'. split; [exact Hrest|]. split; [exact Hdone|].
  apply Hfin; [|exact Hdone]. eapply run_sound; eauto.
Qed.

Lemma mosaic_painted_witness :
  exists s0 s,
    Create.create Examples.sample_map (0, 0)%Q = Returns s0
    /\ Create.run Examples.sample_map (0, 0)%Q [2; 1; 3; 0] s0 = Some s
    /\ Loader.pending s = []
    /\ drawn (Loader.user s) = map (painted (0, 0)%Q) Examples.sample_map.
Proof.
  eexists. eexists. split; [reflexivity|].
  split; [vm_compute; reflexivity|].
  match goal with |- context [Loader.user ?s'] =>
    assert (Hrun : Create.run Examples.sample_map (0, 0)%Q [2; 1; 3; 0]
                     (Loader.start (uniqueColors Examples.sample_map) 16
                        (final_callback Examples.sample_map (0, 0)%Q)
                        (initial_canvas Examples.sample_map)) = Some s')
      by (vm_compute; reflexivity)
  end.
  split; [vm_compute; reflexivity|].
  destruct (mosaic_painted 0 2 2 ["000000"; "ffffff"; "a0ff10"; "000000"]%string
              (0, 0)%Q [2; 1; 3; 0] _ _ ltac:(lia) eq_refl Hrun) as [Hdone _].
  apply Hdone. vm_compute. reflexivity.
Defined.

End PaintingFacts.

(** ** The client: the name of the download *)

Module ClientFacts.
Import Stdlib.Strings.Ascii Client.
Local Open Scope string_scope.

Lemma split_nonempty (sep : ascii) (s : string) : split sep s <> [].
Proof.
  destruct s as [|a s]; cbn; [discriminate|].
  destruct (Ascii.eqb a sep); [discriminate|].
  destruct (split sep s); discriminate.
Qed.

Lemma split_whole (sep : ascii) (s : string) :
  ~ In sep (String.list_ascii_of_string s) -> split sep s = [s].
Proof.
  induction s as [|a s IH]; intros Hno; [reflexivity|]. cbn in *.
  destruct (Ascii.eqb_spec a sep) as [->|Hne]; [exfalso; auto|].
  rewrite IH by auto. reflexivity.
Qed.

Lemma split_app (sep : ascii) (s t : string) :
  split sep (s +:+ String sep t) = (split sep s ++ split sep t)%list.
Proof.
  induction s as [|a s IH].
  - change ("" +:+ String sep t) with (String sep t).
    cbn [split]. now rewrite Ascii.eqb_refl.
  - change (String a s +:+ String sep t) with (String a (s +:+ String sep t)).
    cbn [split]. rewrite IH. destruct (Ascii.eqb a sep); [reflexivity|].
    pose proof (split_nonempty sep s) as Hne.
    destruct (split sep s) as [|piece pieces]; [contradiction|reflexivity].
Qed.

(** Joining the pieces of a split with the separator gives the string
    back. *)
Lemma join_split (sep : ascii) (s : string) :
  join (String sep "") (split sep s) = s.
Proof.
  induction s as [|a s IH]; [reflexivity|]. cbn [split].
  pose proof (split_nonempty sep s) as Hne.
  destruct (Ascii.eqb_spec a sep) as [->|Hn].
  - destruct (split sep s) as [|piece pieces] eqn:E; [contradiction|].
    cbn [join]. cbn [join] in IH. rewrite IH. reflexivity.
  - destruct (split sep s) as [|piece pieces] eqn:E; [contradiction|].
    destruct pieces as [|piece' pieces].
    + cbn in *. now rewrite IH.
    + cbn [join] in *. rewrite <- IH. reflexivity.
Qed.

Lemma download_name_stem (stem ext : string) :
  ~ In "."%char (String.list_ascii_of_string ext) ->
  download_name (stem +:+ "." +:+ ext) = stem +:+ "-mosaic.png".
Proof.
  intros Hno. unfold download_name.
  change ("." +:+ ext) with (String "." ext).
  rewrite split_app, (split_whole _ ext Hno), removelast_last.
  now rewrite (join_split "." stem).
Qed.

Lemma download_name_whole (name : string) :
  ~ In "."%char (String.list_ascii_of_string name) ->
  download_name name = "-mosaic.png".
Proof.
  intros Hno. unfold download_name. now rewrite (split_whole _ name Hno).
Qed.

(** X16: for an image file the download is named after the file, its
    last extension replaced by [-mosaic.png]: the name up to the last
    dot is kept whole, dots included. *)
Theorem onFileChange_download_name (f : file) (others : list file)
    (stem ext : string) :
  type f ∈ ["image/png"; "image/jpg"; "image/jpeg"] ->
  name f = stem +:+ "." +:+ ext ->
  ~ In "."%char (String.list_ascii_of_string ext) ->
  onFileChange (Some (f :: others))
  = [SetErrorText ""; AddBodyClass "view";
     SetDownload (stem +:+ "-mosaic.png"); RenderCanvas; Render f].
Proof.
  intros Htype Hname Hext. unfold onFileChange.
  rewrite Hname, (download_name_stem stem ext Hext).
  assert (Hok : String.eqb (type f) "image/png"
                || String.eqb (type f) "image/jpg"
                || String.eqb (type f) "image/jpeg" = true).
  { apply elem_of_cons in Htype as [->|Htype]; [reflexivity|].
    apply elem_of_cons in Htype as [->|Htype]; [reflexivity|].
    apply list_elem_of_singleton in Htype as ->. reflexivity. }
  now rewrite Hok.
Qed.

Lemma onFileChange_download_name_witness :
  onFileChange (Some [{| type := "image/jpeg"; name := "holiday.2016.jpg" |}])
  = [SetErrorText ""; AddBodyClass "view";
     SetDownload "holiday.2016-mosaic.png"; RenderCanvas;
     Render {| type := "image/jpeg"; name := "holiday.2016.jpg" |}].
Proof.
  apply (onFileChange_download_name
           {| type := "image/jpeg"; name := "holiday.2016.jpg" |} []
           "holiday.2016" "jpg").
  - apply list_elem_of_In. simpl. auto.
  - reflexivity.
  - simpl. intros [H|[H|[H|H]]]; try discriminate H; exact H.
Defined.

(** X17: a file name without a dot leaves nothing of itself in the
    download name. *)
Theorem onFileChange_name_without_dot (f : file) (others : list file) :
  type f ∈ ["image/png"; "image/jpg"; "image/jpeg"] ->
  ~ In "."%char (String.list_ascii_of_string (name f)) ->
  onFileChange (Some (f :: others))
  = [SetErrorText ""; AddBodyClass "view";
     SetDownload "-mosaic.png"; RenderCanvas; Render f].
Proof.
  intros Htype Hname. unfold onFileChange.
  rewrite (download_name_whole (name f) Hname).
  assert (Hok : String.eqb (type f) "image/png"
                || String.eqb (type f) "image/jpg"
                || String.eqb (type f) "image/jpeg" = true).
  { apply elem_of_cons in Htype as [->|Htype]; [reflexivity|].
    apply elem_of_cons in Htype as [->|Htype]; [reflexivity|].
    apply list_elem_of_singleton in Htype as ->. reflexivity. }
  now rewrite Hok.
Qed.

Lemma onFileChange_name_without_dot_witness :
  onFileChange (Some [{| type := "image/png"; name := "scan" |}])
  = [SetErrorText ""; AddBodyClass "view";
     SetDownload "-mosaic.png"; RenderCanvas;
     Render {| type := "image/png"; name := "scan" |}].
Proof.
  apply (onFileChange_name_without_dot {| type := "image/png"; name := "scan" |} []).
  - apply list_elem_of_In. simpl. auto.
  - simpl. intros [H|[H|[H|[H|H]]]]; try discriminate H; exact H.
Defined.

End ClientFacts.

(** ** From image data to the pixel map *)

Module PipelineFacts.
Import Number Mosaic MosaicFacts WorkerFacts.
Local Open Scope Z_scope.

(** X14: from the bytes of a [gx] by [gy] image to the pixel map, through
    the worker: the map has one entry per pixel, and the entry of the
    pixel in column [cx] of row [cy] carries these coordinates and the
    key of that pixel's red, green and blue bytes. *)
Theorem pixel_map_of_image_data (base : nat) (gx gy : Z) (data : list Z)
    (colors : number) :
  1 <= gx -> 0 <= gy -> Z.of_nat (length data) = 4 * (gx * gy) ->
  exists tileColors,
    getColorMap true data colors = Returns tileColors
    /\ Z.of_nat (length (getPixelMap base (gx, gy) tileColors)) = gx * gy
    /\ forall cx cy, 1 <= cx <= gx -> 1 <= cy <= gy ->
         exists p r g b,
           getPixelMap base (gx, gy) tileColors
             !! Z.to_nat ((cy - 1) * gx + (cx - 1)) = Some p
           /\ x p = cx /\ y p = cy
           /\ data !! Z.to_nat (4 * ((cy - 1) * gx + (cx - 1))) = Some r
           /\ data !! Z.to_nat (4 * ((cy - 1) * gx + (cx - 1)) + 1) = Some g
           /\ data !! Z.to_nat (4 * ((cy - 1) * gx + (cx - 1)) + 2) = Some b
           /\ color p = MosaicWorker.rgbToHex (of_Z r) (of_Z g) (of_Z b) colors.
Proof.
  intros Hgx Hgy Hlen.
  exists (MosaicWorker.getColorMap data colors). split; [reflexivity|].
  assert (Hkeys : Z.of_nat (length (MosaicWorker.getColorMap data colors)) = gx * gy).
  { rewrite getColorMap_length.
    replace (length data) with (Z.to_nat (gx * gy) * 4)%nat by nia.
    rewrite Nat.div_add_l by lia. cbn. nia. }
  split.
  { unfold getPixelMap. now rewrite length_map_from. }
  intros cx cy Hcx Hcy.
  set (n := (cy - 1) * gx + (cx - 1)).
  assert (Hn : 0 <= n < gx * gy) by (unfold n; nia).
  destruct (lookup_lt_is_Some_2 data (Z.to_nat (4 * n))) as [r Hr]; [lia|].
  destruct (lookup_lt_is_Some_2 data (Z.to_nat (4 * n + 1))) as [g Hg]; [lia|].
  destruct (lookup_lt_is_Some_2 data (Z.to_nat (4 * n + 2))) as [b Hb]; [lia|].
  assert (Hkey : MosaicWorker.getColorMap data colors !! Z.to_nat n
                 = Some (MosaicWorker.rgbToHex (of_Z r) (of_Z g) (of_Z b) colors)).
  { apply getColorMap_lookup.
    - replace (4 * Z.to_nat n)%nat with (Z.to_nat (4 * n)) by lia. exact Hr.
    - replace (4 * Z.to_nat n + 1)%nat with (Z.to_nat (4 * n + 1)) by lia. exact Hg.
    - replace (4 * Z.to_nat n + 2)%nat with (Z.to_nat (4 * n + 2)) by lia. exact Hb. }
  eexists _, r, g, b. split.
  { unfold getPixelMap. rewrite lookup_map_from, Hkey. reflexivity. }
  cbn [x y color fst]. rewrite Z2Nat.id by lia. rewrite !Z.add_0_l.
  assert (Hq : n / gx = cy - 1).
  { symmetry. apply (Z.div_unique n gx (cy - 1) (cx - 1)); [lia | unfold n; lia]. }
  assert (Hm : Z.rem n gx = cx - 1).
  { rewrite Z.rem_mod_nonneg by lia. symmetry.
    apply (Z.mod_unique n gx (cy - 1) (cx - 1)); [lia | unfold n; lia]. }
  rewrite Hq, Hm. repeat split; try lia; assumption.
Qed.

Lemma pixel_map_of_image_data_witness :
  exists tileColors,
    getColorMap true [0; 0; 0; 255; 255; 255; 255; 255] (of_Z 16) = Returns tileColors
    /\ Z.of_nat (length (getPixelMap 0 (2, 1) tileColors)) = 2 * 1
    /\ forall cx cy, 1 <= cx <= 2 -> 1 <= cy <= 1 ->
         exists p r g b,
           getPixelMap 0 (2, 1) tileColors
             !! Z.to_nat ((cy - 1) * 2 + (cx - 1)) = Some p
           /\ x p = cx /\ y p = cy
           /\ [0; 0; 0; 255; 255; 255; 255; 255]
                !! Z.to_nat (4 * ((cy - 1) * 2 + (cx - 1))) = Some r
           /\ [0; 0; 0; 255; 255; 255; 255; 255]
                !! Z.to_nat (4 * ((cy - 1) * 2 + (cx - 1)) + 1) = Some g
           /\ [0; 0; 0; 255; 255; 255; 255; 255]
                !! Z.to_nat (4 * ((cy - 1) * 2 + (cx - 1)) + 2) = Some b
           /\ color p = MosaicWorker.rgbToHex (of_Z r) (of_Z g) (of_Z b) (of_Z 16).
Proof.
  apply (pixel_map_of_image_data 0 2 1 [0; 0; 0; 255; 255; 255; 255; 255] (of_Z 16));
    [lia | lia | reflexivity].
Defined.

End PipelineFacts.
(** ** Where the tiles are drawn *)

Module CentreFacts.
Import Number NumberFacts RoundingFacts Layout LayoutFacts Centre.
Local Open Scope Q_scope.

Lemma half_representable (z : Z) :
  (0 <= z < 2 ^ 53)%Z -> representable (inject_Z z * (1 # 2)).
Proof. intros Hz. apply (representable_dyadic z (-1)); lia. Qed.

Lemma centre (w s : Z) :
  (0 <= s <= w)%Z -> (w < 2 ^ 52)%Z ->
  div (sub (of_Z w) (of_Z s)) (of_Z 2) = Fin (Qred (inject_Z (w - s) * (1 # 2))).
Proof.
  intros Hs Hw. unfold sub, of_Z.
  rewrite (round_Qeq (inject_Z w - inject_Z s) (inject_Z (w - s))).
  2:{ unfold Zminus. rewrite inject_Z_plus, inject_Z_opp. reflexivity. }
  rewrite (representable_Z (w - s)) by lia.
  rewrite div_pos by reflexivity.
  rewrite (round_Qeq _ (inject_Z (w - s) * (1 # 2))).
  2:{ rewrite Qred_correct. reflexivity. }
  apply half_representable. lia.
Qed.

Section Positions.
Variables iw ih w h : Z.
Hypothesis iw_range : (1 <= iw <= 2 ^ 24)%Z.
Hypothesis ih_range : (1 <= ih <= 2 ^ 24)%Z.
Hypothesis w_range : (1 <= w <= 2 ^ 24)%Z.
Hypothesis h_range : (1 <= h <= 2 ^ 24)%Z.

Local Abbreviation image := {| width := of_Z iw; height := of_Z ih |}.
Local Abbreviation canvas := {| width := of_Z w; height := of_Z h |}.

(** X20: for whole image and canvas dimensions between 1 and 2^24,
    the offset that centres the mosaic is not negative, and every tile
    of the pixel map is drawn with its top left corner inside the
    canvas; the positions are binary64 values, so that adding them up
    in JavaScript rounds nothing. *)
Theorem tiles_start_inside_canvas :
  exists (gx gy : Z) (ox oy : Q),
    getDimensions (getSize image canvas) = {| x := of_Z gx; y := of_Z gy |}
    /\ offset canvas (getSize image canvas) = {| x := Fin ox; y := Fin oy |}
    /\ 0 <= ox /\ 0 <= oy
    /\ forall (base : nat) (tileColors : list string) tiles (p : Mosaic.pixel),
         Z.of_nat (length tileColors) = (gx * gy)%Z ->
         p ∈ Mosaic.getPixelMap base (gx, gy) tileColors ->
         let d := Create.drawImage (ox, oy) tiles p in
         0 <= Create.dx d /\ Create.dx d < inject_Z w
         /\ 0 <= Create.dy d /\ Create.dy d < inject_Z h
         /\ representable (Create.dx d) /\ representable (Create.dy d).
Proof.
  destruct (getSize_spec iw ih w h iw_range ih_range w_range h_range)
    as (sx & sy & Hsize & Hsx & Hsy & _).
  rewrite Hsize.
  exists ((sx + 7) / 8)%Z, ((sy + 7) / 8)%Z,
         (Qred (inject_Z (w - sx) * (1 # 2))), (Qred (inject_Z (h - sy) * (1 # 2))).
  split; [apply getDimensions_spec; lia|].
  split.
  { unfold offset. cbn [width height x y]. now rewrite !centre by lia. }
  assert (Hox : 0 <= inject_Z (w - sx)) by (apply inject_Z_nonneg; lia).
  assert (Hoy : 0 <= inject_Z (h - sy)) by (apply inject_Z_nonneg; lia).
  split; [rewrite Qred_correct; lra|]. split; [rewrite Qred_correct; lra|].
  intros base tileColors tiles p Hlen Hp. cbv zeta.
  set (gx := ((sx + 7) / 8)%Z) in *. set (gy := ((sy + 7) / 8)%Z) in *.
  assert (Hgx : (0 <= gx /\ 8 * (gx - 1) < sx)%Z)
    by (unfold gx; split; Z.div_mod_to_equations; lia).
  assert (Hgy : (0 <= gy /\ 8 * (gy - 1) < sy)%Z)
    by (unfold gy; split; Z.div_mod_to_equations; lia).
  apply list_elem_of_lookup in Hp as [n Hn].
  pose proof (lookup_lt_Some _ _ _ Hn) as Hlt.
  unfold Mosaic.getPixelMap in Hn, Hlt.
  rewrite MosaicFacts.length_map_from in Hlt.
  rewrite MosaicFacts.lookup_map_from in Hn.
  destruct (tileColors !! n) as [key|]; [|discriminate].
  cbn in Hn. injection Hn as <-.
  assert (Hn0 : (0 <= Z.of_nat n < gx * gy)%Z) by lia.
  assert (Hgx1 : (1 <= gx)%Z) by nia.
  assert (Hcol : (0 <= Z.rem (Z.of_nat n) gx < gx)%Z).
  { rewrite Z.rem_mod_nonneg by lia. apply Z.mod_pos_bound. lia. }
  assert (Hrow : (0 <= Z.of_nat n / gx < gy)%Z).
  { split; [apply Z.div_pos; lia|]. apply Z.div_lt_upper_bound; lia. }
  unfold Create.drawImage. cbn [Create.dx Create.dy Mosaic.x Mosaic.y fst snd].
  change Create.TILE_WIDTH with 8%Z. change Create.TILE_HEIGHT with 8%Z.
  rewrite !Z.add_0_l.
  set (col := Z.rem (Z.of_nat n) gx) in *. set (row := (Z.of_nat n / gx)%Z) in *.
  replace (col + 1 - 1)%Z with col by lia. replace (row + 1 - 1)%Z with row by lia.
  assert (Hdx : Qred (inject_Z (w - sx) * (1 # 2)) + inject_Z (col * 8)
                == inject_Z (w - sx + 16 * col) * (1 # 2)).
  { rewrite Qred_correct, !inject_Z_plus, !inject_Z_mult.
    change (inject_Z 8) with 8. change (inject_Z 16) with 16. ring. }
  assert (Hdy : Qred (inject_Z (h - sy) * (1 # 2)) + inject_Z (row * 8)
                == inject_Z (h - sy + 16 * row) * (1 # 2)).
  { rewrite Qred_correct, !inject_Z_plus, !inject_Z_mult.
    change (inject_Z 8) with 8. change (inject_Z 16) with 16. ring. }
  assert (Hxw : inject_Z (w - sx + 16 * col) < inject_Z (2 * w))
    by (rewrite <- Zlt_Qlt; lia).
  assert (Hyh : inject_Z (h - sy + 16 * row) < inject_Z (2 * h))
    by (rewrite <- Zlt_Qlt; lia).
  assert (Hx0 : 0 <= inject_Z (w - sx + 16 * col)) by (apply inject_Z_nonneg; lia).
  assert (Hy0 : 0 <= inject_Z (h - sy + 16 * row)) by (apply inject_Z_nonneg; lia).
  rewrite inject_Z_mult in Hxw, Hyh. change (inject_Z 2) with 2 in Hxw, Hyh.
  repeat split.
  - rewrite Hdx. lra.
  - rewrite Hdx. lra.
  - rewrite Hdy. lra.
  - rewrite Hdy. lra.
  - apply (representable_Qeq' _ _ Hdx). apply half_representable. lia.
  - apply (representable_Qeq' _ _ Hdy). apply half_representable. lia.
Qed.

End Positions.

Lemma tiles_start_inside_canvas_witness :
  exists (gx gy : Z) (ox oy : Q),
    getDimensions (getSize {| width := of_Z 1920; height := of_Z 1080 |}
                           {| width := of_Z 800; height := of_Z 600 |})
    = {| x := of_Z gx; y := of_Z gy |}
    /\ offset {| width := of_Z 800; height := of_Z 600 |}
              (getSize {| width := of_Z 1920; height := of_Z 1080 |}
                       {| width := of_Z 800; height := of_Z 600 |})
       = {| x := Fin ox; y := Fin oy |}
    /\ 0 <= ox /\ 0 <= oy
    /\ forall (base : nat) (tileColors : list string) tiles (p : Mosaic.pixel),
         Z.of_nat (length tileColors) = (gx * gy)%Z ->
         p ∈ Mosaic.getPixelMap base (gx, gy) tileColors ->
         let d := Create.drawImage (ox, oy) tiles p in
         0 <= Create.dx d /\ Create.dx d < inject_Z 800
         /\ 0 <= Create.dy d /\ Create.dy d < inject_Z 600
         /\ representable (Create.dx d) /\ representable (Create.dy d).
Proof. apply (tiles_start_inside_canvas 1920 1080 800 600); lia. Defined.

End CentreFacts.

